(** * Function extraction and call-graph grouping of [repo_function_deepdive.py]

    A shallow embedding of the symbol extraction and grouping engine:
    the span locator [_brace_span], the heuristic extractor
    [parse_js_functions] with the regular expressions it runs, the
    grammar-aware extractor [parse_python_functions], the edge and caller
    maps built in [analyze_file], and the grouping engine [build_groups];
    then what [analyze_file] and [make_group_prompt] put into the prompt
    of a group, and the retry loop of [call_openai].

    Conventions.
    - A source text is the list of its characters ([list ascii]); Python
      indexes a [str] by position, and so do [!!], [take] and [drop].
      The alphabet of the model is the characters with codes 0 to 255;
      the scanners tell a handful of them apart and the patterns a few
      classes, every other character is opaque to them.
    - A function name is a [string]; Python orders [str] values
      lexicographically by character code, which is [String.le].
    - A Python [set] of names is a [gset string], a [dict] keyed by names a
      [gmap string _].  The order in which Python iterates over a set of
      strings changes from run to run (string hashing is seeded per
      process); that order is a parameter of the model, the class
      [IterOrder].
    - The functions of the model are total.  The interpreter bounds the
      depth of recursion, and on a syntax tree nested beyond that bound
      the recursive visitor of [parse_python_functions] raises
      [RecursionError]; the model describes the runs that stay within
      the bound. *)

From Stdlib Require Import Ascii String ZArith Lia.
From stdpp Require Import gmap strings list sorting.

#[local] Set Warnings "-clear-no-such-hyp".
Local Open Scope Z_scope.

(** ** Characters *)

Definition squote : ascii := "'"%char.
Definition dquote : ascii := "034"%char.
Definition bquote : ascii := "`"%char.
Definition backslash : ascii := "\"%char.
Definition lbrace : ascii := "{"%char.
Definition rbrace : ascii := "}"%char.

(** The test of [_brace_span] for a character that opens a string: the
    single quote, the double quote or the backtick. *)
Definition is_quote (ch : ascii) : bool :=
  bool_decide (ch = squote) || bool_decide (ch = dquote) || bool_decide (ch = bquote).

(** ** The span locator *)

(** The body of the [while i < len(code)] loop of [_brace_span], run on the
    characters from index [i] on.  [s] is [code[i:]]; the loop variables
    are [depth], [in_str] (None, or the quote that opened the string) and
    [esc].  The result is the index returned, or the sentinel [-1]. *)
Fixpoint scan (s : list ascii) (i : nat) (depth : Z)
    (in_str : option ascii) (esc : bool) : Z :=
  match s with
  | [] => -1
  | ch :: s' =>
    match in_str with
    | Some q =>
      if esc then scan s' (S i) depth in_str false
      else if bool_decide (ch = backslash) then scan s' (S i) depth in_str true
      else if bool_decide (ch = q) then scan s' (S i) depth None esc
      else scan s' (S i) depth in_str esc
    | None =>
      if is_quote ch then scan s' (S i) depth (Some ch) esc
      else if bool_decide (ch = lbrace) then scan s' (S i) (depth + 1) in_str esc
      else if bool_decide (ch = rbrace) then
        if bool_decide (depth - 1 = 0) then Z.of_nat i
        else scan s' (S i) (depth - 1) in_str esc
      else scan s' (S i) depth in_str esc
    end
  end.

(** [_brace_span(code, start_brace_idx)].  The callers pass the result of a
    successful [code.find], so the index is a natural number. *)
Definition _brace_span (code : list ascii) (start_brace_idx : nat) : Z :=
  scan (drop start_brace_idx code) start_brace_idx 0 None false.

(** *** What a matching brace is

    The specification side, independent of the scanner: the grammar of
    texts whose braces are balanced, where a quoted string is one item
    whatever it contains. *)

(** The content of a string opened by [q]: escaped pairs, and characters
    other than the backslash and [q]. *)
Inductive str_body (q : ascii) : list ascii → Prop :=
  | sb_nil : str_body q []
  | sb_esc c l : str_body q l → str_body q (backslash :: c :: l)
  | sb_chr c l : c ≠ backslash → c ≠ q → str_body q l → str_body q (c :: l).

Inductive balanced : list ascii → Prop :=
  | bal_nil : balanced []
  | bal_chr c l :
      is_quote c = false → c ≠ lbrace → c ≠ rbrace →
      balanced l → balanced (c :: l)
  | bal_str q b l :
      is_quote q = true → str_body q b →
      balanced l → balanced (q :: b ++ q :: l)
  | bal_block b l :
      balanced b → balanced l → balanced (lbrace :: b ++ rbrace :: l).

(** [code[i]] is an opening brace and [code[j]] the brace that closes it. *)
Definition matching_brace (code : list ascii) (i j : nat) : Prop :=
  ∃ pre body post,
    code = pre ++ lbrace :: body ++ rbrace :: post ∧
    length pre = i ∧ balanced body ∧ j = (i + 1 + length body)%nat.

(** [d] closing braces are pending; the last of them is at offset [k]. *)
Inductive closes : nat → list ascii → nat → Prop :=
  | closes_last b rest :
      balanced b → closes 1 (b ++ rbrace :: rest) (length b)
  | closes_next d b l k :
      balanced b → closes (S d) l k →
      closes (S (S d)) (b ++ rbrace :: l) (length b + 1 + k).

(** ** Text primitives of Python used by the extractors *)

(** [code[a:b]] for indices [0 <= a], [0 <= b]. *)
Definition slice (code : list ascii) (a b : nat) : list ascii :=
  drop a (take b code).

Fixpoint find_char (ch : ascii) (s : list ascii) (i : nat) : Z :=
  match s with
  | [] => -1
  | c :: s' => if bool_decide (c = ch) then Z.of_nat i else find_char ch s' (S i)
  end.

(** [code.find(ch, start)] for a one-character needle: the first index at
    or after [start] that holds [ch], or [-1]. *)
Definition str_find (code : list ascii) (ch : ascii) (start : nat) : Z :=
  find_char ch (drop start code) start.

Definition newline : ascii := "010"%char.

(** [_line_no(code, idx)] is [code.count(newline, 0, idx) + 1]. *)
Definition _line_no (code : list ascii) (idx : nat) : Z :=
  Z.of_nat (length (filter (λ c, c = newline) (take idx code))) + 1.

(** ** Regular expressions of the extractor

    The fragment of Python's [re] that the five patterns of the source
    need, with the matching discipline of [re]: atoms are tried from left
    to right, a repetition is greedy and gives characters back one at a
    time, an alternation tries its branches in order, and the first way
    to match wins. *)

Module Re.

Inductive atom :=
  | Lit (w : list ascii)                  (* literal text *)
  | Alt (ws : list (list ascii))          (* [(?:w1|w2|...)] *)
  | One (cls : ascii → bool)              (* one character of a class *)
  | Many (cls : ascii → bool) (lo : nat)  (* greedy [cls*] ([lo = 0]) or [cls+] ([lo = 1]) *)
  | WordBoundary                          (* [\b] *)
  | GroupOpen                             (* the parentheses of group 1 *)
  | GroupClose.

Definition code_of (c : ascii) : nat := nat_of_ascii c.

Definition in_range (lo hi c : ascii) : bool :=
  (code_of lo <=? code_of c)%nat && (code_of c <=? code_of hi)%nat.

(** [[A-Za-z0-9_]] *)
Definition ident_char (c : ascii) : bool :=
  in_range "A" "Z" c || in_range "a" "z" c || in_range "0" "9" c
  || bool_decide (c = "_"%char).

(** [[A-Za-z_]] *)
Definition ident_start (c : ascii) : bool :=
  in_range "A" "Z" c || in_range "a" "z" c || bool_decide (c = "_"%char).

(** [[^)]] *)
Definition not_rparen (c : ascii) : bool := negb (bool_decide (c = ")"%char)).

(** [\s] on a [str] pattern: the whitespace of Unicode, here for the codes
    up to 255: tab to carriage return, the four separators 28 to 31, the
    space, NEL and the no-break space. *)
Definition space (c : ascii) : bool :=
  let n := code_of c in
  ((9 <=? n) && (n <=? 13) || (28 <=? n) && (n <=? 32)
   || (n =? 133) || (n =? 160))%nat.

(** [\w] on a [str] pattern, which decides [\b]: letters, digits and other
    numeric characters of Unicode and the underscore, for the codes up to
    255. *)
Definition word_char (c : ascii) : bool :=
  let n := code_of c in
  ident_char c
  || ((n =? 170) || (n =? 178) || (n =? 179) || (n =? 181) || (n =? 185)
      || (n =? 186) || (188 <=? n) && (n <=? 190)
      || (192 <=? n) && (n <=? 214) || (216 <=? n) && (n <=? 246)
      || (248 <=? n))%nat.

Definition is_word (c : option ascii) : bool :=
  match c with Some c => word_char c | None => false end.

(** The length of the longest prefix of [s] inside the class. *)
Fixpoint run (cls : ascii → bool) (s : list ascii) : nat :=
  match s with
  | c :: s' => if cls c then S (run cls s') else 0
  | [] => 0
  end.

(** The character before the position reached after [k] characters of
    [s], where [prev] stood before [s]. *)
Definition prev_after (prev : option ascii) (s : list ascii) (k : nat)
    : option ascii :=
  match k with 0%nat => prev | S k' => s !! k' end.

(** Backtracking of a greedy repetition: the continuation is tried after
    [k] characters, then after [k - 1], down to [lo]. *)
Fixpoint give_back {A} (f : nat → option A) (lo k : nat) : option A :=
  if bool_decide (lo ≤ k)%nat then
    match f k with
    | Some r => Some r
    | None => match k with 0%nat => None | S k' => give_back f lo k' end
    end
  else None.

Fixpoint first_of {A B} (f : A → option B) (l : list A) : option B :=
  match l with
  | [] => None
  | x :: l' => match f x with Some r => Some r | None => first_of f l' end
  end.

Definition starts_with (w s : list ascii) : bool :=
  bool_decide (take (length w) s = w).

(** [match_at p prev s pos g]: the pattern [p] matched at position [pos],
    where [s] is the text from [pos] on and [prev] the character before
    it.  [g] is the span of group 1 so far.  The result is the end of the
    match and the span of group 1. *)
Fixpoint match_at (p : list atom) (prev : option ascii) (s : list ascii)
    (pos : nat) (g : nat * nat) : option (nat * (nat * nat)) :=
  match p with
  | [] => Some (pos, g)
  | Lit w :: p' =>
    if starts_with w s
    then match_at p' (prev_after prev s (length w)) (drop (length w) s)
           (pos + length w) g
    else None
  | Alt ws :: p' =>
    first_of (λ w,
      if starts_with w s
      then match_at p' (prev_after prev s (length w)) (drop (length w) s)
             (pos + length w) g
      else None) ws
  | One cls :: p' =>
    match s with
    | c :: s' => if cls c then match_at p' (Some c) s' (S pos) g else None
    | [] => None
    end
  | Many cls lo :: p' =>
    give_back (λ k, match_at p' (prev_after prev s k) (drop k s) (pos + k) g)
      lo (run cls s)
  | WordBoundary :: p' =>
    if xorb (is_word prev) (is_word (head s)) then match_at p' prev s pos g
    else None
  | GroupOpen :: p' => match_at p' prev s pos (pos, g.2)
  | GroupClose :: p' => match_at p' prev s pos (g.1, pos)
  end.

(** A match object: [m.start()], [m.end()] and the span of [m.group(1)]. *)
Record rmatch := { m_start : nat; m_end : nat; g_start : nat; g_end : nat }.

(** [m.group(1)] *)
Definition group1 (text : list ascii) (m : rmatch) : list ascii :=
  slice text (g_start m) (g_end m).

(** The scan of [finditer]: [s] is the text from [pos] on, and [skip]
    characters of it still belong to the match found last.  A match is
    looked for at each position in turn, and the search resumes where the
    match ended.  Every pattern of the source consumes a character, so no
    match is empty. *)
Fixpoint finditer_from (p : list atom) (prev : option ascii) (s : list ascii)
    (pos skip : nat) : list rmatch :=
  match skip with
  | S skip' =>
    match s with
    | c :: s' => finditer_from p (Some c) s' (S pos) skip'
    | [] => []
    end
  | 0%nat =>
    match match_at p prev s pos (0%nat, 0%nat) with
    | Some (e, g) =>
      {| m_start := pos; m_end := e; g_start := g.1; g_end := g.2 |} ::
      match s with
      | c :: s' => finditer_from p (Some c) s' (S pos) (e - pos - 1)
      | [] => []
      end
    | None =>
      match s with
      | c :: s' => finditer_from p (Some c) s' (S pos) 0
      | [] => []
      end
    end
  end.

(** [rx.finditer(text)] *)
Definition finditer (p : list atom) (text : list ascii) : list rmatch :=
  finditer_from p None text 0 0.

End Re.

Import Re.

Definition txt (w : string) : list ascii := list_ascii_of_string w.

(** The patterns of the source, written here with a space between atoms.
    [\b function \s+ ( [A-Za-z0-9_]+ ) \s* \(] *)
Definition rx_decl : list atom :=
  [WordBoundary; Lit (txt "function"); Many space 1;
   GroupOpen; Many ident_char 1; GroupClose; Many space 0; Lit (txt "(")].

(** [\b (?:const|let|var) \s+ ( [A-Za-z0-9_]+ ) \s* = \s* \( [^\)]* \) \s* => \s* {] *)
Definition rx_arrow : list atom :=
  [WordBoundary; Alt [txt "const"; txt "let"; txt "var"]; Many space 1;
   GroupOpen; Many ident_char 1; GroupClose; Many space 0; Lit (txt "=");
   Many space 0; Lit (txt "("); Many not_rparen 0; Lit (txt ")");
   Many space 0; Lit (txt "=>"); Many space 0; Lit (txt "{")].

(** [\b (?:const|let|var) \s+ ( [A-Za-z0-9_]+ ) \s* = \s* function \s* \(] *)
Definition rx_expr : list atom :=
  [WordBoundary; Alt [txt "const"; txt "let"; txt "var"]; Many space 1;
   GroupOpen; Many ident_char 1; GroupClose; Many space 0; Lit (txt "=");
   Many space 0; Lit (txt "function"); Many space 0; Lit (txt "(")].

(** [\b ( [A-Za-z0-9_]+ ) \s* \( [^)]* \) \s* {] *)
Definition rx_method_hint : list atom :=
  [WordBoundary; GroupOpen; Many ident_char 1; GroupClose; Many space 0;
   Lit (txt "("); Many not_rparen 0; Lit (txt ")"); Many space 0;
   Lit (txt "{")].

Definition JS_FUNC_PATTERNS : list (list atom * string) :=
  [(rx_decl, "decl"); (rx_arrow, "arrow"); (rx_expr, "expr");
   (rx_method_hint, "method_hint")]%string.

(** [\b ( [A-Za-z_] [A-Za-z0-9_]* ) \s* \(] *)
Definition JS_CALL_RE : list atom :=
  [WordBoundary; GroupOpen; One ident_start; Many ident_char 0; GroupClose;
   Many space 0; Lit (txt "(")].

(** ** The heuristic extractor *)

Module JsFunction.
Record t := {
  name : string;
  start_idx : Z;
  end_idx : Z;
  start_line : Z;
  end_line : Z;
  src : list ascii;
  calls : gset string }.
End JsFunction.

(** The tokens that the call harvest of [parse_js_functions] leaves out. *)
Definition call_skip : gset string :=
  {[ "if"; "for"; "while"; "switch"; "return"; "function" ]}%string.

(** The loop over [JS_CALL_RE.finditer(body)]. *)
Definition harvest_calls (body : list ascii) : gset string :=
  foldl (λ calls cm,
    let callee := string_of_list_ascii (group1 body cm) in
    if bool_decide (callee ∈ call_skip) then calls else calls ∪ {[callee]})
    ∅ (finditer JS_CALL_RE body).

(** The body of the inner loop of [parse_js_functions] up to the record it
    builds for the match [m]; [None] where the source runs [continue]. *)
Definition candidate (code : list ascii) (m : rmatch) : option JsFunction.t :=
  let name := group1 code m in
  if bool_decide (name = []) then None else
  let brace_idx := str_find code lbrace (m_end m) in
  if bool_decide (brace_idx = -1) then None else
  let end_idx := _brace_span code (Z.to_nat brace_idx) in
  if bool_decide (end_idx = -1) then None else
  let src := slice code (m_start m) (Z.to_nat (end_idx + 1)) in
  let body := slice code (Z.to_nat brace_idx) (Z.to_nat (end_idx + 1)) in
  Some {| JsFunction.name := string_of_list_ascii name;
          JsFunction.start_idx := Z.of_nat (m_start m);
          JsFunction.end_idx := end_idx + 1;
          JsFunction.start_line := _line_no code (m_start m);
          JsFunction.end_line := _line_no code (Z.to_nat (end_idx + 1));
          JsFunction.src := src;
          JsFunction.calls := harvest_calls body |}.

Definition span_len (jf : JsFunction.t) : Z :=
  JsFunction.end_idx jf - JsFunction.start_idx jf.

(** The last statement of the loop body: "avoid overwriting same name with
    a shorter span". *)
Definition keep (seen : gmap string JsFunction.t) (jf : JsFunction.t)
    : gmap string JsFunction.t :=
  match seen !! JsFunction.name jf with
  | None => <[JsFunction.name jf := jf]> seen
  | Some old =>
    if bool_decide (span_len old < span_len jf)
    then <[JsFunction.name jf := jf]> seen else seen
  end.

Definition parse_js_functions (code : list ascii) : gmap string JsFunction.t :=
  foldl (λ seen rx_kind,
    foldl (λ seen m,
      match candidate code m with
      | Some jf => keep seen jf
      | None => seen
      end) seen (finditer rx_kind.1 code))
    ∅ JS_FUNC_PATTERNS.

(** The candidates in the order the two loops meet them. *)
Definition js_candidates (code : list ascii) : list JsFunction.t :=
  rx_kind ← JS_FUNC_PATTERNS; omap (candidate code) (finditer rx_kind.1 code).

(** ** The grammar-aware extractor *)

(** The part of a Python syntax tree that [parse_python_functions] looks
    at.  [FunctionDef] stands for [ast.FunctionDef] and, with the flag
    set, for [ast.AsyncFunctionDef]; [Other] is any other node, with its
    child nodes in the order of [ast.iter_child_nodes]. *)
Module Ast.
#[warnings="-register-all"]
Inductive node :=
  | FunctionDef (is_async : bool) (name : string) (lineno end_lineno : nat)
      (children : list node)
  | Call (func : node) (args : list node)
  | Name (id : string)
  | Attribute (value : node) (attr : string)
  | Other (children : list node).

Definition iter_child_nodes (n : node) : list node :=
  match n with
  | FunctionDef _ _ _ _ children => children
  | Call func args => func :: args
  | Name _ => []
  | Attribute value _ => [value]
  | Other children => children
  end.

Fixpoint height (n : node) : nat :=
  let heights := fix heights (l : list node) : nat :=
    match l with [] => 0%nat | c :: l' => Nat.max (height c) (heights l') end in
  match n with
  | FunctionDef _ _ _ _ children => S (heights children)
  | Call func args => S (Nat.max (height func) (heights args))
  | Name _ => 1%nat
  | Attribute value _ => S (height value)
  | Other children => S (heights children)
  end.

(** The nodes [d] levels below [n], from left to right. *)
Fixpoint level (d : nat) (n : node) : list node :=
  match d with
  | 0%nat => [n]
  | S d' => c ← iter_child_nodes n; level d' c
  end.

(** [ast.walk(tree)]: breadth first, that is level by level. *)
Definition walk (tree : node) : list node :=
  d ← seq 0 (height tree); level d tree.
End Ast.

(** What the extractor takes from Python's library: the parser
    ([None]: [ast.parse] raised), [ast.get_source_segment] ([None]: it
    raised; [Some None]: it returned [None]) and [str.splitlines]. *)
Class PythonAst := {
  ast_parse : list ascii → option Ast.node;
  get_source_segment : list ascii → Ast.node → option (option (list ascii));
  splitlines : list ascii → list (list ascii) }.

Module PyFunction.
Record t := {
  name : string;
  start : nat;
  end_ : nat;
  src : list ascii;
  calls : gset string }.
End PyFunction.

(** [CallVisitor(cur).visit(node)] followed by reading [v.calls]: the
    visitor records every call below [node]: the name of a called name,
    the attribute of a called attribute. *)
Fixpoint visit (n : Ast.node) : gset string :=
  let visit_all := fix visit_all (l : list Ast.node) : gset string :=
    match l with [] => ∅ | c :: l' => visit c ∪ visit_all l' end in
  match n with
  | Ast.Call func args =>
    match func with
    | Ast.Name id => {[ id ]}
    | Ast.Attribute _ attr => {[ attr ]}
    | _ => ∅
    end ∪ (visit func ∪ visit_all args)
  | Ast.FunctionDef _ _ _ _ children => visit_all children
  | Ast.Name _ => ∅
  | Ast.Attribute value _ => visit value
  | Ast.Other children => visit_all children
  end.

(** [sep.join(lines)] *)
Fixpoint join (sep : list ascii) (lines : list (list ascii)) : list ascii :=
  match lines with
  | [] => []
  | [l] => l
  | l :: ls => l ++ sep ++ join sep ls
  end.

(** The source segment of a function node, with the fallback to a slice of
    lines when [ast.get_source_segment] raises; a segment that is [None]
    becomes the empty text. *)
Definition segment_of `{PythonAst} (code : list ascii) (node : Ast.node)
    (start end_ : nat) : list ascii :=
  match get_source_segment code node with
  | Some (Some seg) => seg
  | Some None => []
  | None => join [newline] (drop (start - 1) (take end_ (splitlines code)))
  end.

Definition parse_python_functions `{PythonAst} (code : list ascii)
    : gmap string PyFunction.t :=
  match ast_parse code with
  | None => ∅
  | Some tree =>
    let funcs :=
      foldl (λ funcs node,
        match node with
        | Ast.FunctionDef _ name start end_ _ =>
          <[name := {| PyFunction.name := name;
                       PyFunction.start := start;
                       PyFunction.end_ := end_;
                       PyFunction.src := segment_of code node start end_;
                       PyFunction.calls := ∅ |}]> funcs
        | _ => funcs
        end) ∅ (Ast.walk tree) in
    foldl (λ funcs node,
      match node with
      | Ast.FunctionDef _ cur _ _ _ =>
        alter (λ f, {| PyFunction.name := PyFunction.name f;
                       PyFunction.start := PyFunction.start f;
                       PyFunction.end_ := PyFunction.end_ f;
                       PyFunction.src := PyFunction.src f;
                       PyFunction.calls := PyFunction.calls f ∪ visit node |})
          cur funcs
      | _ => funcs
      end) funcs (Ast.walk tree)
  end.

(** ** Effects: exceptions and iteration order *)

(** The result of a piece of Python that may raise [KeyError].  [OutOfFuel]
    is the model's own: it stands for a [while] loop cut short, and
    [build_groups_terminates] shows that it never comes out. *)
Inductive outcome (A : Type) :=
  | Done (a : A)
  | KeyError (k : string)
  | OutOfFuel.
Arguments Done {A} a.
Arguments KeyError {A} k.
Arguments OutOfFuel {A}.

#[global] Instance outcome_ret : MRet outcome := λ A a, Done a.
#[global] Instance outcome_bind : MBind outcome := λ A B f m,
  match m with
  | Done a => f a
  | KeyError k => KeyError k
  | OutOfFuel => OutOfFuel
  end.

(** A [for] loop whose body may raise. *)
Fixpoint foldlM {A B} (f : A → B → outcome A) (a : A) (l : list B)
    : outcome A :=
  match l with
  | [] => Done a
  | x :: l' => a' ← f a x; foldlM f a' l'
  end.

(** The order in which a run of the program iterates over a set of names
    and over the items of a dictionary.  Nothing is known about it beyond
    that every element comes exactly once. *)
Class IterOrder := {
  set_iter : gset string → list string;
  set_iter_perm s : set_iter s ≡ₚ elements s;
  dict_iter {A} : gmap string A → list (string * A);
  dict_iter_perm {A} (m : gmap string A) : dict_iter m ≡ₚ map_to_list m }.

(** One such order, for running the model. *)
Definition canonical_order : IterOrder :=
  {| set_iter := elements;
     set_iter_perm s := reflexivity _;
     dict_iter A := map_to_list;
     dict_iter_perm A m := reflexivity _ |}.

(** Another one, the reverse. *)
Definition reverse_order : IterOrder :=
  {| set_iter s := reverse (elements s);
     set_iter_perm s := reverse_Permutation _;
     dict_iter A m := reverse (map_to_list m);
     dict_iter_perm A m := reverse_Permutation _ |}.

(** ** Sorting *)

Fixpoint insert_by {A} (le : A → A → bool) (x : A) (l : list A) : list A :=
  match l with
  | [] => [x]
  | y :: l' => if le x y then x :: l else y :: insert_by le x l'
  end.

(** A stable sort, as [sorted] and [list.sort] are: of two elements that
    compare equal, the one that came first stays first. *)
Definition sort_by {A} (le : A → A → bool) (l : list A) : list A :=
  foldr (insert_by le) [] l.

(** [sorted(l)] for a list of names. *)
Definition sort_names (l : list string) : list string := sort_by String.leb l.

(** [sorted(s)] for a set of names. *)
Definition sorted `{IterOrder} (s : gset string) : list string :=
  sort_names (set_iter s).

(** ** The grouping engine *)

(** [{n: set() for n in names}] *)
Definition empty_sets (names : list string) : gmap string (gset string) :=
  list_to_map ((λ n, (n, ∅)) <$> names).

(** [d[k].add(v)] *)
Definition set_add (d : gmap string (gset string)) (k v : string)
    : outcome (gmap string (gset string)) :=
  match d !! k with
  | Some s => Done (<[k := s ∪ {[v]}]> d)
  | None => KeyError k
  end.

(** The body of the loops that fill [graph]. *)
Definition link (a : string) (graph : gmap string (gset string)) (b : string)
    : outcome (gmap string (gset string)) :=
  if bool_decide (is_Some (graph !! b)) && bool_decide (b ≠ a)
  then graph' ← set_add graph a b; set_add graph' b a
  else Done graph.

Definition build_graph `{IterOrder} (names : list string)
    (edges : gmap string (gset string)) : outcome (gmap string (gset string)) :=
  foldlM (λ graph a_neigh, foldlM (link a_neigh.1) graph (set_iter a_neigh.2))
    (empty_sets names) (dict_iter edges).

(** The [while stack:] loop.  The Python list [stack] is kept with its
    last element first, so [stack.pop()] takes the head and
    [stack.extend(l)] puts the reverse of [l] in front.  One unit of
    [fuel] is spent per iteration. *)
Fixpoint component `{IterOrder} (fuel : nat) (graph : gmap string (gset string))
    (stack : list string) (seen comp : gset string)
    : outcome (gset string * gset string) :=
  match stack with
  | [] => Done (seen, comp)
  | cur :: stack' =>
    match fuel with
    | 0%nat => OutOfFuel
    | S fuel' =>
      if bool_decide (cur ∈ seen) then component fuel' graph stack' seen comp
      else
        match graph !! cur with
        | None => KeyError cur
        | Some nb =>
          let seen' := seen ∪ {[cur]} in
          component fuel' graph (reverse (sorted (nb ∖ seen')) ++ stack')
            seen' (comp ∪ {[cur]})
        end
    end
  end.

(** Each iteration pops one name, and a name pushes its neighbours at most
    once: the loop runs at most once more than there are neighbours. *)
Definition degree_sum (graph : gmap string (gset string)) (s : gset string)
    : nat :=
  sum_list_with (λ x, size (default ∅ (graph !! x))) (elements s).

Definition component_fuel (graph : gmap string (gset string)) : nat :=
  S (degree_sum graph (dom graph)).

(** The key of [groups.sort]: [(-len(g), sorted(g)[0] if g else the empty
    string)]. *)
Definition group_key `{IterOrder} (g : gset string) : Z * string :=
  (- Z.of_nat (size g),
   match sorted g with x :: _ => x | [] => EmptyString end).

(** The order of Python on such pairs. *)
Definition key_le (k1 k2 : Z * string) : bool :=
  (k1.1 <? k2.1) || (k1.1 =? k2.1) && String.leb k1.2 k2.2.

(** The body of the [for n in names] loop of [build_groups]: a name not
    seen yet starts a traversal, and the names it reaches form a group. *)
Definition next_group `{IterOrder} (graph : gmap string (gset string))
    (seen_groups : gset string * list (gset string)) (n : string)
    : outcome (gset string * list (gset string)) :=
  let '(seen, groups) := seen_groups in
  if bool_decide (n ∈ seen) then Done (seen, groups)
  else
    seen_comp ← component (component_fuel graph) graph [n] seen ∅;
    Done (seen_comp.1, groups ++ [seen_comp.2]).

Definition build_groups `{IterOrder} (names : list string)
    (edges : gmap string (gset string)) : outcome (list (gset string)) :=
  graph ← build_graph names edges;
  seen_groups ← foldlM (next_group graph) (∅, []) names;
  Done (sort_by (λ g1 g2, key_le (group_key g1) (group_key g2)) seen_groups.2).

(** ** The analysis of one file *)

(** The loops of [analyze_file] that resolve the raw callees: an edge for
    every callee that is a known name. *)
Definition call_edges `{IterOrder} {A} (calls_of : A → gset string)
    (funcs : gmap string A) (names : list string)
    : outcome (gmap string (gset string)) :=
  foldlM (λ edges n_f,
    foldlM (λ edges c,
      if bool_decide (is_Some (funcs !! c)) then set_add edges n_f.1 c
      else Done edges) edges (set_iter (calls_of n_f.2)))
    (empty_sets names) (dict_iter funcs).

(** The reverse map. *)
Definition callers_of `{IterOrder} (names : list string)
    (edges : gmap string (gset string)) : outcome (gmap string (gset string)) :=
  foldlM (λ callers a_nbrs,
    foldlM (λ callers b, set_add callers b a_nbrs.1) callers
      (set_iter a_nbrs.2))
    (empty_sets names) (dict_iter edges).

Module Analysis.
Record t := {
  names : list string;
  edges : gmap string (gset string);
  groups : list (gset string);
  callers : gmap string (gset string) }.
End Analysis.

(** The two branches of [analyze_file] run the same steps on the mapping
    their extractor returns; a file without functions yields nothing. *)
Definition analyze_funcs `{IterOrder} {A} (calls_of : A → gset string)
    (funcs : gmap string A) : outcome Analysis.t :=
  let names := sort_names (dict_iter funcs).*1 in
  match names with
  | [] => Done {| Analysis.names := []; Analysis.edges := ∅;
                  Analysis.groups := []; Analysis.callers := ∅ |}
  | _ =>
    edges ← call_edges calls_of funcs names;
    groups ← build_groups names edges;
    callers ← callers_of names edges;
    Done {| Analysis.names := names; Analysis.edges := edges;
            Analysis.groups := groups; Analysis.callers := callers |}
  end.

Inductive language := python | javascript.

Definition analyze_file `{IterOrder} `{PythonAst} (lang : language)
    (code : list ascii) : outcome Analysis.t :=
  match lang with
  | python => analyze_funcs PyFunction.calls (parse_python_functions code)
  | javascript => analyze_funcs JsFunction.calls (parse_js_functions code)
  end.

(** ** Vocabulary of the properties *)

(** [v in d[k]] *)
Definition rel_of (d : gmap string (gset string)) (k v : string) : Prop :=
  ∃ s, d !! k = Some s ∧ v ∈ s.

(** The groups found so far: distinct, pairwise disjoint, none empty,
    covering [seen], each one connected through the links of [G], and
    each one closed under them. *)
Definition groups_inv (G : gmap string (gset string)) (seen : gset string)
    (gs : list (gset string)) : Prop :=
  NoDup gs ∧
  (∀ g1 g2, g1 ∈ gs → g2 ∈ gs → g1 ≠ g2 → g1 ## g2) ∧
  (∀ g, g ∈ gs → g ≠ ∅) ∧
  ⋃ gs = seen ∧
  (∀ g, g ∈ gs → ∃ n, n ∈ g ∧ ∀ y, y ∈ g → rtc (rel_of G) n y) ∧
  (∀ g x y, g ∈ gs → x ∈ g → rel_of G x y → y ∈ g).

(** Two distinct names are linked when an edge goes from one to the
    other, in either direction. *)
Definition linked (E : gmap string (gset string)) (x y : string) : Prop :=
  x ≠ y ∧ (rel_of E x y ∨ rel_of E y x).

(** [key_le] as a relation. *)
Definition key_rel (k1 k2 : Z * string) : Prop := Is_true (key_le k1 k2).

(** What [analyze_file] computes from the raw callees [raw] of the
    extracted functions. *)
Definition analysis_ok `{IterOrder} (raw : gmap string (gset string))
    (a : Analysis.t) : Prop :=
  list_to_set (Analysis.names a) = dom raw ∧
  StronglySorted String.le (Analysis.names a) ∧
  dom (Analysis.edges a) = dom raw ∧
  (∀ n c, rel_of (Analysis.edges a) n c ↔ rel_of raw n c ∧ c ∈ dom raw) ∧
  (∀ b x, rel_of (Analysis.callers a) b x ↔ rel_of (Analysis.edges a) x b) ∧
  StronglySorted (λ g1 g2, key_rel (group_key g1) (group_key g2))
    (Analysis.groups a) ∧
  ∃ G : gmap string (gset string),
    (∀ x y, rel_of G x y ↔
       x ≠ y ∧ (rel_of (Analysis.edges a) x y ∨ rel_of (Analysis.edges a) y x)) ∧
    groups_inv G (dom raw) (Analysis.groups a).

(** [jf] is the first of the candidates of its name with the longest
    span: those before it are strictly shorter, those after it no longer. *)
Definition wins (l : list JsFunction.t) (jf : JsFunction.t) : Prop :=
  ∃ l1 l2, l = l1 ++ jf :: l2 ∧
    (∀ c, c ∈ l1 → JsFunction.name c = JsFunction.name jf →
       span_len c < span_len jf) ∧
    (∀ c, c ∈ l2 → JsFunction.name c = JsFunction.name jf →
       span_len c ≤ span_len jf).

(** The raw callees of the functions extracted from a file. *)
Definition raw_callees `{PythonAst} (lang : language) (code : list ascii)
    : gmap string (gset string) :=
  match lang with
  | python => PyFunction.calls <$> parse_python_functions code
  | javascript => JsFunction.calls <$> parse_js_functions code
  end.

(** The names of the extracted functions. *)
Definition extracted_names `{PythonAst} (lang : language) (code : list ascii)
    : gset string :=
  dom (raw_callees lang code).

(** [gs] is a partition of [s]: no group is empty, groups at different
    places are disjoint, their union is [s], and every element of [s] is
    in exactly one group. *)
Definition is_partition (gs : list (gset string)) (s : gset string) : Prop :=
  (∀ g, g ∈ gs → g ≠ ∅) ∧
  (∀ i j g1 g2, i ≠ j → gs !! i = Some g1 → gs !! j = Some g2 → g1 ## g2) ∧
  ⋃ gs = s ∧
  (∀ n, n ∈ s → ∃ i g, gs !! i = Some g ∧ n ∈ g ∧
     ∀ j g', gs !! j = Some g' → n ∈ g' → j = i).

(** [m] is the smallest name of [g]. *)
Definition is_least (m : string) (g : gset string) : Prop :=
  m ∈ g ∧ ∀ x, x ∈ g → String.le m x.

(** Larger groups first; of two groups of the same size, the one whose
    smallest name is smaller first. *)
Definition groups_ordered (gs : list (gset string)) : Prop :=
  ∀ i j g1 g2, (i < j)%nat → gs !! i = Some g1 → gs !! j = Some g2 →
    (size g2 < size g1)%nat ∨
    (size g1 = size g2 ∧
     ∃ m1 m2, is_least m1 g1 ∧ is_least m2 g2 ∧ String.le m1 m2 ∧ m1 ≠ m2).

(** A stand-in for Python's library in closed examples: it parses the
    empty text, a module without statements, and rejects any other. *)
Definition tiny_python : PythonAst :=
  {| ast_parse code :=
       match code with [] => Some (Ast.Other []) | _ => None end;
     get_source_segment _ _ := None;
     splitlines _ := [] |}.

(** A stand-in that parses every text as the tree [t]. *)
Definition parsed_as (t : Ast.node) : PythonAst :=
  {| ast_parse _ := Some t;
     get_source_segment _ _ := Some None;
     splitlines _ := [] |}.

(** The tree of a module with three functions [a], [b] and [c], where [a]
    calls [b] and a method [c], and [c] holds a nested function [a] that
    calls [c]. *)
Definition nested_defs_tree : Ast.node :=
  Ast.Other
    [Ast.FunctionDef false "a" 1 3
       [Ast.Other [Ast.Call (Ast.Name "b") []];
        Ast.Other [Ast.Call (Ast.Attribute (Ast.Name "x") "c") []]];
     Ast.FunctionDef true "b" 4 5 [Ast.Other []];
     Ast.FunctionDef false "c" 6 8
       [Ast.FunctionDef false "a" 7 8
          [Ast.Other [Ast.Call (Ast.Name "c") [Ast.Name "y"]]]]]%string.

(** Control-flow keywords of JavaScript: [if], [for], [while], [switch] and
    [catch]. *)
Definition control_flow_keywords : gset string :=
  {[ "if"; "for"; "while"; "switch"; "catch" ]}%string.

(** No edge of the call graph, in the callees or in the callers map, has
    one of [kws] as its callee. *)
Definition no_callee_among (kws : gset string) (a : Analysis.t) : Prop :=
  ∀ kw, kw ∈ kws →
    (∀ n, ¬ rel_of (Analysis.edges a) n kw) ∧
    (∀ n, ¬ rel_of (Analysis.callers a) kw n).

(** A function that calls itself and nothing else. *)
Definition countdown_js : list ascii :=
  txt "function f(n) { return f(n - 1); }".

(** The same function, called by another one. *)
Definition called_recursion_js : list ascii :=
  txt "function main() { f(1); } function f(n) { return f(n - 1); }".

(** A TypeScript text with three functions: [main] calls [g], and [f]
    calls itself and is called by no other function.  With the return
    types written out, only the declaration pattern matches. *)
Definition lone_recursion_js : list ascii :=
  txt "function main(): void { g(1); } "
  ++ txt "function f(n: number): number { return f(n - 1); } "
  ++ txt "function g(x: number): number { return x; }".

(** A text where the declaration pattern and the method pattern both
    match the name [foo]. *)
Definition two_spans_js : list ascii :=
  txt "function foo (a) { return bar(a); } const f = (x) => { g(x); };".

(** A function with a [try] statement. *)
Definition try_catch_js : list ascii :=
  txt "function f() { try { g(); } catch (e) { h({}); } }".

(** A conditional whose block holds an object literal. *)
Definition if_block_js : list ascii := txt "if (x) { a = {}; }".

(** A method whose body holds two string literals, each with one brace. *)
Definition quoted_braces_js : list ascii := txt "f() { g('{'); h('}'); }".

(** ** More vocabulary: names and lines *)

(** A name made of the characters of the class [[A-Za-z0-9_]], at least
    one of them. *)
Definition is_word_name (s : string) : Prop :=
  s ≠ EmptyString ∧ Forall (λ c, Is_true (ident_char c)) (list_ascii_of_string s).

(** An identifier: a letter or an underscore, then letters, digits and
    underscores. *)
Definition is_identifier (s : string) : Prop :=
  ∃ c rest, list_ascii_of_string s = c :: rest ∧
    Is_true (ident_start c) ∧ Forall (λ c, Is_true (ident_char c)) rest.

(** The number of newline characters of a text. *)
Definition newlines (l : list ascii) : nat :=
  length (filter (λ c, c = newline) l).

(** A pattern without the parentheses of a group. *)
Definition no_marks (p : list atom) : Prop :=
  Forall (λ a, a ≠ GroupOpen ∧ a ≠ GroupClose) p.

(** ** More vocabulary: syntax trees *)

(** [m] is [n] or lies below it in the tree. *)
Inductive descendant : Ast.node → Ast.node → Prop :=
  | descendant_here n : descendant n n
  | descendant_below n c m :
      c ∈ Ast.iter_child_nodes n → descendant c m → descendant n m.

(** [n] is a definition, plain or asynchronous, of the function [name]. *)
Definition is_def (name : string) (n : Ast.node) : Prop :=
  ∃ is_async lineno end_lineno children,
    n = Ast.FunctionDef is_async name lineno end_lineno children.

(** The name that [visit_Call] records for the called expression: the
    name itself, or the attribute of an attribute access. *)
Definition callee_of (func : Ast.node) : option string :=
  match func with
  | Ast.Name id => Some id
  | Ast.Attribute _ attr => Some attr
  | _ => None
  end.

(** The name of the function that a node defines, if it defines one. *)
Definition def_name (n : Ast.node) : option string :=
  match n with
  | Ast.FunctionDef _ name _ _ _ => Some name
  | _ => None
  end.

(** The body of the first loop of [parse_python_functions]. *)
Definition record_def `{PythonAst} (code : list ascii)
    (funcs : gmap string PyFunction.t) (node : Ast.node)
    : gmap string PyFunction.t :=
  match node with
  | Ast.FunctionDef _ name start end_ _ =>
    <[name := {| PyFunction.name := name;
                 PyFunction.start := start;
                 PyFunction.end_ := end_;
                 PyFunction.src := segment_of code node start end_;
                 PyFunction.calls := ∅ |}]> funcs
  | _ => funcs
  end.

(** [funcs[cur].calls |= calls] *)
Definition with_calls (calls : gset string) (f : PyFunction.t) : PyFunction.t :=
  {| PyFunction.name := PyFunction.name f;
     PyFunction.start := PyFunction.start f;
     PyFunction.end_ := PyFunction.end_ f;
     PyFunction.src := PyFunction.src f;
     PyFunction.calls := PyFunction.calls f ∪ calls |}.

(** The body of the second loop of [parse_python_functions]. *)
Definition add_calls (funcs : gmap string PyFunction.t) (node : Ast.node)
    : gmap string PyFunction.t :=
  match node with
  | Ast.FunctionDef _ cur _ _ _ => alter (with_calls (visit node)) cur funcs
  | _ => funcs
  end.

(** The calls that the second loop adds to the record of [name]. *)
Definition def_visits (name : string) (l : list Ast.node) : gset string :=
  ⋃ ((λ n, if bool_decide (def_name n = Some name) then visit n else ∅) <$> l).

(** ** More vocabulary: edges *)

(** An edge of [E] leaves a key that is no name and reaches a name: the
    input on which [build_groups] looks up a missing key. *)
Definition stray_edge (names : list string) (E : gmap string (gset string))
    : Prop :=
  ∃ a nb b, E !! a = Some nb ∧ (a ∉ names) ∧ b ∈ nb ∧ b ∈ names.

(** ** The report of one group *)

(** [[(n, funcs[n].src) for n in sorted(g)]] *)
Definition group_funcs `{IterOrder} {A} (src_of : A → list ascii)
    (funcs : gmap string A) (g : gset string)
    : outcome (list (string * list ascii)) :=
  foldlM (λ acc n,
    match funcs !! n with
    | Some f => Done (acc ++ [(n, src_of f)])
    | None => KeyError n
    end) [] (sorted g).

(** [{n: set(sorted(m.get(n, set()) & g)) for n in g}], the comprehension
    behind [sub_edges] and [sub_callers]. *)
Definition sub_map `{IterOrder} (m : gmap string (gset string))
    (g : gset string) : gmap string (gset string) :=
  foldl (λ d n, <[n := list_to_set (sorted (default ∅ (m !! n) ∩ g))]> d)
    ∅ (set_iter g).

Definition sub_edges `{IterOrder} (a : Analysis.t) (g : gset string)
    : gmap string (gset string) :=
  sub_map (Analysis.edges a) g.

Definition sub_callers `{IterOrder} (a : Analysis.t) (g : gset string)
    : gmap string (gset string) :=
  sub_map (Analysis.callers a) g.

(** [len(src)] of a pair [(name, src)]. *)
Definition src_len (x : string * list ascii) : Z := Z.of_nat (length x.2).

(** [sum(len(src) for _, src in l)] *)
Definition total_chars (l : list (string * list ascii)) : Z :=
  foldr (λ x acc, src_len x + acc) 0 l.

(** [sorted(l, key=lambda x: (-len(x[1]), x[0]))]: the longest source
    first, sources of the same length by name. *)
Definition by_size (l : list (string * list ascii))
    : list (string * list ascii) :=
  sort_by (λ x y, key_le (- src_len x, x.1) (- src_len y, y.1)) l.

(** The loop that both [analyze_file] and [make_group_prompt] run over
    the sorted pairs: a pair that would take the total over [limit] is
    skipped, and the loop goes on with the next one. *)
Definition fit_step (limit : Z)
    (st : list (string * list ascii) * Z) (x : string * list ascii)
    : list (string * list ascii) * Z :=
  if bool_decide (st.2 + src_len x > limit) then st
  else (st.1 ++ [x], st.2 + src_len x).

Definition fit (limit : Z) (l : list (string * list ascii))
    : list (string * list ascii) * Z :=
  foldl (fit_step limit) ([], 0) l.

(** [trimmed] of the JavaScript branch of [analyze_file]. *)
Definition trimmed (max_snippet_chars : Z) (group_funcs : list (string * list ascii))
    : list (string * list ascii) :=
  (fit max_snippet_chars (by_size group_funcs)).1.

(** [snippets] of [make_group_prompt]. *)
Definition snippets (group_funcs : list (string * list ascii))
    : list (string * list ascii) :=
  (fit 14000 (by_size group_funcs)).1.

(** The data of the lines of [rel_lines]: for every pair of [group_funcs]
    its name, its sorted callees and its sorted callers. *)
Definition rel_lines `{IterOrder} (group_funcs : list (string * list ascii))
    (callers callees : gmap string (gset string))
    : list (string * list string * list string) :=
  (λ x, (x.1, sorted (default ∅ (callees !! x.1)),
              sorted (default ∅ (callers !! x.1)))) <$> group_funcs.

(** What the prompt of group [g] is made of: the pairs whose sources are
    embedded, and the relation lines.  The Python branch hands all of
    [group_funcs] to [make_group_prompt], the JavaScript branch hands
    [trimmed]. *)
Definition prompt_parts `{IterOrder} `{PythonAst} (lang : language)
    (max_snippet_chars : Z) (code : list ascii) (a : Analysis.t)
    (g : gset string)
    : outcome (list (string * list ascii) *
               list (string * list string * list string)) :=
  match lang with
  | python =>
      gf ← group_funcs PyFunction.src (parse_python_functions code) g;
      Done (snippets gf, rel_lines gf (sub_callers a g) (sub_edges a g))
  | javascript =>
      gf ← group_funcs JsFunction.src (parse_js_functions code) g;
      let tr := trimmed max_snippet_chars gf in
      Done (snippets tr, rel_lines tr (sub_callers a g) (sub_edges a g))
  end.

(** ** The retry loop of [call_openai] *)

(** What one pass through the [try] block does: the call of
    [client.chat.completions.create] and the reading of the content of
    its reply give a content, or one of them raises. *)
Inductive attempt := Reply (content : string) | Failure (err : string).

(** How [call_openai] ends: with the content of a reply, with the error
    of an attempt, or with the [TypeError] of [raise None]. *)
Inductive call_end :=
  | Returned (content : string)
  | Raised (err : string)
  | RaisedTypeError.

Module Call.
Record t := {
  ending : call_end;
  (** the number of calls made to the client *)
  calls : nat;
  (** the arguments of [time.sleep], in milliseconds, the first one first *)
  sleeps : list Z }.
End Call.

(** The [for i in range(retries)] loop from iteration [i] on, with [n]
    iterations left; [client k] is what pass number [k] through the
    [try] block does.  [time.sleep(1.5 * (i+1))] is written in milliseconds. *)
Fixpoint call_openai_from (client : nat → attempt) (i n : nat)
    (last_err : option string) (sleeps : list Z) : Call.t :=
  match n with
  | O =>
      {| Call.ending := match last_err with
                        | Some e => Raised e
                        | None => RaisedTypeError
                        end;
         Call.calls := i; Call.sleeps := sleeps |}
  | S n' =>
      match client i with
      | Reply content =>
          {| Call.ending := Returned content; Call.calls := S i;
             Call.sleeps := sleeps |}
      | Failure e =>
          call_openai_from client (S i) n' (Some e)
            (sleeps ++ [1500 * (Z.of_nat i + 1)])
      end
  end.

(** [range(retries)] is empty when [retries] is not positive. *)
Definition call_openai (client : nat → attempt) (retries : Z) : Call.t :=
  call_openai_from client 0 (Z.to_nat retries) None [].

(** ** More vocabulary: names and sources *)

(** [x] comes before [y] and is not [y]. *)
Definition name_lt (x y : string) : Prop := String.le x y ∧ x ≠ y.

(** The source text of the record of [n]. *)
Definition source_of `{PythonAst} (lang : language) (code : list ascii)
    (n : string) : option (list ascii) :=
  match lang with
  | python => PyFunction.src <$> parse_python_functions code !! n
  | javascript => JsFunction.src <$> parse_js_functions code !! n
  end.

(** The argument of the [time.sleep] that follows the failure of call
    number [i], in milliseconds. *)
Definition backoff (i : nat) : Z := 1500 * (Z.of_nat i + 1).

(** Every call from number [i] up to, but not including, number [k]
    raises. *)
Definition all_fail (client : nat → attempt) (i k : nat) : Prop :=
  ∀ j, (i ≤ j < k)%nat → ∃ e, client j = Failure e.

(** A client whose first two calls time out and whose third call
    answers, and one that never answers. *)
Definition third_time_lucky (k : nat) : attempt :=
  match k with
  | 2%nat => Reply "ok"
  | _ => Failure "timeout"
  end.

Definition never_answers (k : nat) : attempt :=
  match k with
  | 2%nat => Failure "quota"
  | _ => Failure "timeout"
  end.

(** * Properties *)

(** ** The span locator finds the matching brace *)

Section brace_span_facts.

Lemma is_quote_not_backslash q : is_quote q = true → q ≠ backslash.
Proof. by intros Hq ->. Qed.

Lemma is_quote_not_brace q : is_quote q = true → q ≠ lbrace ∧ q ≠ rbrace.
Proof. by split; intros ->. Qed.

(** Inside a string the scanner runs to the closing quote and resumes. *)
Lemma scan_str_body q sb :
  str_body q sb → q ≠ backslash → ∀ rest i depth,
  scan (sb ++ q :: rest) i depth (Some q) false
  = scan rest (i + length sb + 1) depth None false.
Proof.
  intros Hsb Hq. induction Hsb as [|c l _ IH|c l Hc1 Hc2 _ IH]; intros rest i depth; simpl.
  - rewrite bool_decide_false by done. rewrite bool_decide_true by done.
    f_equal. lia.
  - rewrite IH. f_equal. lia.
  - rewrite !bool_decide_false by done. rewrite IH. f_equal. lia.
Qed.

(** Over a balanced text the scanner keeps its depth and returns nothing. *)
Lemma scan_balanced b :
  balanced b → ∀ rest i depth, 1 ≤ depth →
  scan (b ++ rest) i depth None false = scan rest (i + length b) depth None false.
Proof.
  induction 1 as [|c l Hq Hl Hr _ IH|q sb l Hq Hsb _ IH|b l _ IHb _ IHl];
    intros rest i depth Hd.
  - simpl. f_equal. lia.
  - simpl. rewrite Hq. rewrite !bool_decide_false by done. rewrite IH by done.
    f_equal. lia.
  - simpl. rewrite Hq. rewrite <- app_assoc. simpl.
    rewrite scan_str_body by auto using is_quote_not_backslash.
    rewrite IH by done. f_equal. rewrite length_app. simpl. lia.
  - simpl. rewrite <- app_assoc. rewrite IHb by lia. simpl.
    rewrite bool_decide_false by lia.
    replace (depth + 1 - 1) with depth by lia. rewrite IHl by done.
    f_equal. rewrite length_app. simpl. lia.
Qed.

Lemma scan_matching body post i :
  balanced body →
  scan (lbrace :: body ++ rbrace :: post) i 0 None false
  = Z.of_nat (i + 1 + length body).
Proof.
  intros Hb. simpl. rewrite scan_balanced by (done || lia).
  simpl. f_equal. lia.
Qed.

(** The converse: a scan that returns an index has crossed a string body
    up to its closing quote. *)
Lemma scan_str_inv q depth r l :
  (∀ i, scan l i depth (Some q) false = Z.of_nat r →
     ∃ sb rest, l = sb ++ q :: rest ∧ str_body q sb ∧
       scan rest (i + length sb + 1) depth None false = Z.of_nat r) ∧
  (∀ i, scan l i depth (Some q) true = Z.of_nat r →
     ∃ c sb rest, l = c :: sb ++ q :: rest ∧ str_body q sb ∧
       scan rest (i + length sb + 2) depth None false = Z.of_nat r).
Proof.
  induction l as [|ch l [IHf IHt]]; [by split; intros i; simpl; lia|].
  split; intros i; simpl.
  - case_bool_decide as Hb; [|case_bool_decide as Hq].
    + intros (c & sb & rest & -> & Hsb & Hr)%IHt. subst ch.
      exists (backslash :: c :: sb), rest. split_and!; [done|by constructor|].
      rewrite <- Hr. f_equal. simpl. lia.
    + intros Hr. subst ch. exists [], l. split_and!; [done|constructor|].
      rewrite <- Hr. f_equal. simpl. lia.
    + intros (sb & rest & -> & Hsb & Hr)%IHf.
      exists (ch :: sb), rest. split_and!; [done|by constructor|].
      rewrite <- Hr. f_equal. simpl. lia.
  - intros (sb & rest & -> & Hsb & Hr)%IHf.
    exists ch, sb, rest. split_and!; [done..|].
    rewrite <- Hr. f_equal. lia.
Qed.

Lemma closes_chr d c l k :
  is_quote c = false → c ≠ lbrace → c ≠ rbrace →
  closes d l k → closes d (c :: l) (S k).
Proof.
  intros ??? Hc. destruct Hc as [b rest Hb|d b l k Hb Hc].
  - apply (closes_last (c :: b)). by constructor.
  - apply (closes_next d (c :: b)); [by constructor|done].
Qed.

Lemma closes_str d q sb l k :
  is_quote q = true → str_body q sb →
  closes d l k → closes d (q :: sb ++ q :: l) (length sb + 2 + k).
Proof.
  intros ?? Hc. destruct Hc as [b rest Hb|d b l k Hb Hc].
  - replace (q :: sb ++ q :: b ++ rbrace :: rest)
      with ((q :: sb ++ q :: b) ++ rbrace :: rest)
      by (simpl; by rewrite <- app_assoc).
    replace (length sb + 2 + length b)%nat with (length (q :: sb ++ q :: b))
      by (simpl; rewrite length_app; simpl; lia).
    apply closes_last. by constructor.
  - replace (q :: sb ++ q :: b ++ rbrace :: l)
      with ((q :: sb ++ q :: b) ++ rbrace :: l)
      by (simpl; by rewrite <- app_assoc).
    replace (length sb + 2 + (length b + 1 + k))%nat
      with (length (q :: sb ++ q :: b) + 1 + k)%nat
      by (simpl; rewrite length_app; simpl; lia).
    apply closes_next; [by constructor|done].
Qed.

Lemma closes_block d l k :
  closes (S (S d)) l k → closes (S d) (lbrace :: l) (S k).
Proof.
  inversion 1 as [|d' b l' k' Hb Hc]; subst.
  destruct d as [|d].
  - inversion Hc as [b2 rest Hb2|]; subst.
    replace (lbrace :: b ++ rbrace :: b2 ++ rbrace :: rest)
      with ((lbrace :: b ++ rbrace :: b2) ++ rbrace :: rest)
      by (simpl; by rewrite <- app_assoc).
    replace (S (length b + 1 + length b2))
      with (length (lbrace :: b ++ rbrace :: b2))
      by (simpl; rewrite length_app; simpl; lia).
    apply closes_last. by constructor.
  - inversion Hc as [|d' b2 l2 k2 Hb2 Hc2]; subst.
    replace (lbrace :: b ++ rbrace :: b2 ++ rbrace :: l2)
      with ((lbrace :: b ++ rbrace :: b2) ++ rbrace :: l2)
      by (simpl; by rewrite <- app_assoc).
    replace (S (length b + 1 + (length b2 + 1 + k2)))
      with (length (lbrace :: b ++ rbrace :: b2) + 1 + k2)%nat
      by (simpl; rewrite length_app; simpl; lia).
    apply closes_next; [by constructor|done].
Qed.

(** A scan started outside a string at depth [d + 1] that returns an index
    has crossed [d + 1] closing braces with balanced text between them. *)
Lemma scan_closes n : ∀ l, (length l ≤ n)%nat → ∀ i d r,
  scan l i (Z.of_nat (S d)) None false = Z.of_nat r →
  ∃ k, r = (i + k)%nat ∧ closes (S d) l k.
Proof.
  induction n as [|n IH]; intros [|ch l] Hlen i d r; simpl in *;
    try lia.
  destruct (is_quote ch) eqn:Hq.
  { intros Hr. apply scan_str_inv in Hr as (sb & rest & -> & Hsb & Hr).
    rewrite length_app in Hlen. simpl in Hlen.
    apply IH in Hr as (k & -> & Hc); [|lia].
    exists (length sb + 2 + k)%nat. split; [lia|]. by apply closes_str. }
  case_bool_decide as Hl.
  { subst ch. replace (Z.of_nat (S d) + 1) with (Z.of_nat (S (S d))) by lia.
    intros (k & -> & Hc)%IH; [|lia].
    exists (S k). split; [lia|]. by apply closes_block. }
  case_bool_decide as Hr.
  { subst ch. case_bool_decide as Hd.
    - intros Hi. assert (d = 0%nat) as -> by lia. exists 0%nat.
      split; [lia|]. apply (closes_last []). constructor.
    - destruct d as [|d]; [lia|].
      replace (Z.of_nat (S (S d)) - 1) with (Z.of_nat (S d)) by lia.
      intros (k & -> & Hc)%IH; [|lia].
      exists (0 + 1 + k)%nat. split; [lia|].
      apply (closes_next d []); [constructor|done]. }
  intros (k & -> & Hc)%IH; [|lia].
  exists (S k). split; [lia|]. by apply closes_chr.
Qed.

(** The scanner answers with the sentinel or with an index. *)
Lemma scan_range l : ∀ i depth in_str esc,
  scan l i depth in_str esc = -1 ∨
  ∃ j : nat, scan l i depth in_str esc = Z.of_nat j.
Proof.
  induction l as [|ch l IH]; intros i depth in_str esc; simpl; [by left|].
  destruct in_str as [q|].
  - destruct esc; [apply IH|]. repeat case_bool_decide; apply IH.
  - destruct (is_quote ch); [apply IH|].
    repeat case_bool_decide; try apply IH. right. by eexists.
Qed.

Lemma brace_span_sound code i j :
  code !! i = Some lbrace →
  _brace_span code i = Z.of_nat j → matching_brace code i j.
Proof.
  intros Hi. unfold _brace_span.
  rewrite <- (take_drop_middle code i lbrace Hi) at 1.
  assert (length (take i code) = i) as Hlen.
  { apply length_take_le. apply lookup_lt_Some in Hi. lia. }
  rewrite drop_app_length' by done. simpl.
  intros Hs. apply (scan_closes _ _ (Nat.le_refl _) _ 0%nat) in Hs as (k & -> & Hc).
  inversion Hc as [b rest Hb Hd Heq|]; subst k.
  exists (take i code), b, rest. split_and!; [|done..|lia].
  rewrite Heq. by rewrite take_drop_middle.
Qed.

Lemma brace_span_complete code i j :
  matching_brace code i j → _brace_span code i = Z.of_nat j.
Proof.
  intros (pre & body & post & -> & Hlen & Hb & ->). unfold _brace_span.
  rewrite drop_app_length' by done. by apply scan_matching.
Qed.

End brace_span_facts.

(** ** Sorting *)

Section sort_facts.
Context {A : Type} (le : A → A → bool).

Let R : relation A := λ x y, Is_true (le x y).

Lemma insert_by_perm x l : insert_by le x l ≡ₚ x :: l.
Proof.
  induction l as [|y l IH]; simpl; [done|].
  destruct (le x y); [done|]. rewrite IH. apply Permutation_swap.
Qed.

Lemma sort_by_perm l : sort_by le l ≡ₚ l.
Proof.
  induction l as [|x l IH]; simpl; [done|].
  rewrite insert_by_perm. by f_equiv.
Qed.

Lemma insert_by_sorted `{!Total R} x l :
  Sorted R l → Sorted R (insert_by le x l).
Proof.
  induction 1 as [|y l Hs IH Hhd]; simpl; [by repeat constructor|].
  destruct (le x y) eqn:Hxy.
  - constructor; [by constructor|]. constructor. unfold R. by rewrite Hxy.
  - constructor; [done|].
    assert (R y x) as Hyx.
    { destruct (total R x y) as [H|H]; [|done]. unfold R in H. by rewrite Hxy in H. }
    destruct Hhd as [|z l Hyz]; simpl; [by constructor|].
    destruct (le x z); by constructor.
Qed.

Lemma sort_by_sorted `{!Total R} l : Sorted R (sort_by le l).
Proof.
  induction l as [|x l IH]; simpl; [constructor|]. by apply insert_by_sorted.
Qed.

(** The result does not depend on the order of the input when no two
    distinct elements compare equal. *)
Lemma sort_by_perm_irrel `{!Total R, !Transitive R, !AntiSymm (=) R} l1 l2 :
  l1 ≡ₚ l2 → sort_by le l1 = sort_by le l2.
Proof.
  intros Hp. apply (Sorted_unique R); [apply sort_by_sorted..|].
  by rewrite !sort_by_perm.
Qed.

End sort_facts.

Lemma sort_names_perm l : sort_names l ≡ₚ l.
Proof. apply sort_by_perm. Qed.

Lemma sort_names_sorted l : StronglySorted String.le (sort_names l).
Proof.
  apply Sorted_StronglySorted; [apply _|].
  apply (sort_by_sorted String.leb).
Qed.

Lemma sort_names_perm_irrel l1 l2 :
  l1 ≡ₚ l2 → sort_names l1 = sort_names l2.
Proof. apply (sort_by_perm_irrel String.leb). Qed.

Lemma elem_of_sort_names x l : x ∈ sort_names l ↔ x ∈ l.
Proof. by rewrite sort_names_perm. Qed.

(** [sorted] is the same list under every iteration order. *)
Lemma sorted_order_irrel (o1 o2 : IterOrder) s :
  @sorted o1 s = @sorted o2 s.
Proof.
  unfold sorted. apply sort_names_perm_irrel.
  by rewrite (@set_iter_perm o1), (@set_iter_perm o2).
Qed.

Section sorted_facts.
Context `{IterOrder}.

Lemma elem_of_set_iter x s : x ∈ set_iter s ↔ x ∈ s.
Proof. by rewrite set_iter_perm, elem_of_elements. Qed.

Lemma elem_of_sorted x s : x ∈ sorted s ↔ x ∈ s.
Proof. unfold sorted. by rewrite elem_of_sort_names, elem_of_set_iter. Qed.

Lemma length_sorted s : length (sorted s) = size s.
Proof.
  unfold sorted. by rewrite sort_names_perm, set_iter_perm.
Qed.

Lemma elem_of_dict_iter {A} (m : gmap string A) k v :
  (k, v) ∈ dict_iter m ↔ m !! k = Some v.
Proof. by rewrite dict_iter_perm, elem_of_map_to_list. Qed.

Lemma dict_iter_keys {A} (m : gmap string A) k :
  k ∈ (dict_iter m).*1 ↔ is_Some (m !! k).
Proof.
  rewrite list_elem_of_fmap. split.
  - intros ([k' v] & -> & Hkv). apply elem_of_dict_iter in Hkv. by eexists.
  - intros [v Hv]. exists (k, v). split; [done|]. by apply elem_of_dict_iter.
Qed.

End sorted_facts.

(** ** Dictionaries of sets as relations *)

Lemma rel_of_ext (d1 d2 : gmap string (gset string)) :
  dom d1 = dom d2 → (∀ k v, rel_of d1 k v ↔ rel_of d2 k v) → d1 = d2.
Proof.
  intros Hdom Hrel. apply map_eq. intros k.
  destruct (d1 !! k) as [s1|] eqn:H1, (d2 !! k) as [s2|] eqn:H2.
  - f_equal. apply set_eq. intros v. split; intros Hv.
    + destruct (proj1 (Hrel k v)) as (s & Hs & ?); [by exists s1|]. congruence.
    + destruct (proj2 (Hrel k v)) as (s & Hs & ?); [by exists s2|]. congruence.
  - apply elem_of_dom_2 in H1. rewrite Hdom in H1.
    apply elem_of_dom in H1 as [? ?]. congruence.
  - apply elem_of_dom_2 in H2. rewrite <- Hdom in H2.
    apply elem_of_dom in H2 as [? ?]. congruence.
  - done.
Qed.

Lemma dom_empty_sets names : dom (empty_sets names) = list_to_set names.
Proof.
  unfold empty_sets. rewrite dom_list_to_map_L.
  rewrite <- list_fmap_compose. f_equal.
  induction names; simpl; by f_equal.
Qed.

Lemma lookup_empty_sets names k s :
  empty_sets names !! k = Some s → s = ∅.
Proof.
  unfold empty_sets. intros Hk%elem_of_list_to_map_2.
  apply list_elem_of_fmap in Hk as (n & [= -> ->] & _). done.
Qed.

Lemma rel_of_empty_sets names k v : ¬ rel_of (empty_sets names) k v.
Proof. intros (s & ->%lookup_empty_sets & Hv). set_solver. Qed.

Lemma set_add_spec d k v :
  k ∈ dom d →
  ∃ d', set_add d k v = Done d' ∧ dom d' = dom d ∧
    ∀ k' v', rel_of d' k' v' ↔ rel_of d k' v' ∨ (k' = k ∧ v' = v).
Proof.
  intros [s Hs]%elem_of_dom. unfold set_add. rewrite Hs.
  eexists. split; [done|]. split.
  { rewrite dom_insert_L. apply elem_of_dom_2 in Hs. set_solver. }
  intros k' v'. unfold rel_of. destruct (decide (k' = k)) as [->|Hne].
  - rewrite lookup_insert_eq. split.
    + intros (s' & [= <-] & Hv). apply elem_of_union in Hv as [?|?%elem_of_singleton].
      * left. by exists s.
      * by right.
    + intros [(s' & Hs' & Hv)|[_ ->]].
      * exists (s ∪ {[v]}). split; [done|]. rewrite Hs in Hs'. set_solver.
      * exists (s ∪ {[v]}). split; [done|]. set_solver.
  - rewrite lookup_insert_ne by done. naive_solver.
Qed.

(** A loop that only adds to the sets of a dictionary: when each step
    adds the pairs [R x], the loop adds the pairs of all its elements. *)
Lemma foldlM_rel {B} (f : gmap string (gset string) → B → outcome (gmap string (gset string)))
    (R : B → string → string → Prop) (N : gset string) l : ∀ d0,
  (∀ d x, dom d = N → x ∈ l →
     ∃ d', f d x = Done d' ∧ dom d' = N ∧
       ∀ k v, rel_of d' k v ↔ rel_of d k v ∨ R x k v) →
  dom d0 = N →
  ∃ d', foldlM f d0 l = Done d' ∧ dom d' = N ∧
    ∀ k v, rel_of d' k v ↔ rel_of d0 k v ∨ ∃ x, x ∈ l ∧ R x k v.
Proof.
  induction l as [|x l IH]; intros d0 Hstep Hdom; simpl.
  - exists d0. split_and!; [done..|]. intros k v. split; [by left|].
    intros [?|(x & Hx & _)]; [done|]. by apply elem_of_nil in Hx.
  - destruct (Hstep d0 x Hdom) as (d1 & -> & Hdom1 & Hrel1); [by left|].
    simpl. destruct (IH d1) as (d' & -> & Hdom' & Hrel'); [|done|].
    { intros d y ? ?. apply Hstep; [done|by right]. }
    exists d'. split_and!; [done..|]. intros k v.
    rewrite Hrel', Hrel1. split.
    + intros [[?|?]|(y & ? & ?)]; [by left|right; exists x|right; exists y];
        (split; [|done]); by constructor.
    + intros [?|(y & [->|?]%elem_of_cons & ?)]; [by left; left|by left; right|].
      right. by exists y.
Qed.

(** ** The edge and caller maps *)

Section call_graph_facts.
Context `{IterOrder}.

Lemma call_edges_spec {A} (calls_of : A → gset string) (funcs : gmap string A)
    names :
  list_to_set names = dom funcs →
  ∃ E, call_edges calls_of funcs names = Done E ∧ dom E = dom funcs ∧
    ∀ n c, rel_of E n c ↔
      ∃ f, funcs !! n = Some f ∧ c ∈ calls_of f ∧ is_Some (funcs !! c).
Proof.
  intros Hnames. unfold call_edges.
  destruct (foldlM_rel
    (λ edges n_f, foldlM (λ edges c,
       if bool_decide (is_Some (funcs !! c)) then set_add edges n_f.1 c
       else Done edges) edges (set_iter (calls_of n_f.2)))
    (λ n_f k v, k = n_f.1 ∧ v ∈ calls_of n_f.2 ∧ is_Some (funcs !! v))
    (dom funcs) (dict_iter funcs) (empty_sets names)) as (E & HE & Hdom & Hrel).
  - intros d [n f] Hd Hin. simpl. apply elem_of_dict_iter in Hin.
    destruct (foldlM_rel
      (λ edges c, if bool_decide (is_Some (funcs !! c)) then set_add edges n c
                  else Done edges)
      (λ c k v, k = n ∧ v = c ∧ is_Some (funcs !! c))
      (dom funcs) (set_iter (calls_of f)) d) as (d' & Hd' & Hdom' & Hrel'); [|done|].
    + intros d1 c Hd1 Hc. case_bool_decide as Hk.
      * destruct (set_add_spec d1 n c) as (d2 & -> & Hdom2 & Hrel2).
        { rewrite Hd1. by apply elem_of_dom_2 in Hin. }
        exists d2. split_and!; [done|congruence|]. intros k v. rewrite Hrel2.
        naive_solver.
      * exists d1. split_and!; [done..|]. naive_solver.
    + exists d'. split_and!; [done..|]. intros k v. rewrite Hrel'.
      setoid_rewrite elem_of_set_iter. naive_solver.
  - by rewrite dom_empty_sets.
  - exists E. split_and!; [done..|]. intros n c. rewrite Hrel. split.
    + intros [[]%rel_of_empty_sets|([n' f] & Hin%elem_of_dict_iter & -> & ? & ?)].
      by exists f.
    + intros (f & Hf & ? & ?). right. exists (n, f).
      split; [by apply elem_of_dict_iter|done].
Qed.

Lemma callers_of_spec names (E : gmap string (gset string)) :
  dom E = list_to_set names →
  (∀ a b, rel_of E a b → b ∈ dom E) →
  ∃ C, callers_of names E = Done C ∧ dom C = dom E ∧
    ∀ b a, rel_of C b a ↔ rel_of E a b.
Proof.
  intros Hnames Hclosed. unfold callers_of.
  destruct (foldlM_rel
    (λ callers a_nbrs, foldlM (λ callers b, set_add callers b a_nbrs.1)
       callers (set_iter a_nbrs.2))
    (λ a_nbrs k v, v = a_nbrs.1 ∧ k ∈ a_nbrs.2)
    (dom E) (dict_iter E) (empty_sets names)) as (C & HC & Hdom & Hrel).
  - intros d [a nbrs] Hd Hin. simpl. apply elem_of_dict_iter in Hin.
    destruct (foldlM_rel (λ callers b, set_add callers b a)
      (λ b k v, k = b ∧ v = a)
      (dom E) (set_iter nbrs) d) as (d' & Hd' & Hdom' & Hrel'); [|done|].
    + intros d1 b Hd1 Hb%elem_of_set_iter.
      destruct (set_add_spec d1 b a) as (d2 & -> & Hdom2 & Hrel2).
      { rewrite Hd1. apply (Hclosed a). by exists nbrs. }
      exists d2. split_and!; [done|congruence|done].
    + exists d'. split_and!; [done..|]. intros k v. rewrite Hrel'.
      setoid_rewrite elem_of_set_iter. naive_solver.
  - by rewrite dom_empty_sets.
  - exists C. split_and!; [done..|]. intros b a. rewrite Hrel. split.
    + intros [[]%rel_of_empty_sets|([a' nbrs] & Hin%elem_of_dict_iter & -> & ?)].
      by exists nbrs.
    + intros (nbrs & Hn & ?). right. exists (a, nbrs).
      split; [by apply elem_of_dict_iter|done].
Qed.

(** The undirected graph of [build_groups]: the names as nodes, a link
    between two distinct names when an edge goes one way or the other. *)
Lemma build_graph_spec names (E : gmap string (gset string)) :
  dom E ⊆ list_to_set names →
  ∃ G, build_graph names E = Done G ∧ dom G = list_to_set names ∧
    ∀ x y, rel_of G x y ↔
      x ≠ y ∧ x ∈ names ∧ y ∈ names ∧ (rel_of E x y ∨ rel_of E y x).
Proof.
  intros Hkeys. unfold build_graph. set (N := list_to_set names : gset string).
  destruct (foldlM_rel
    (λ graph a_neigh, foldlM (link a_neigh.1) graph (set_iter a_neigh.2))
    (λ a_neigh k v, ∃ b, b ∈ a_neigh.2 ∧ b ∈ N ∧ b ≠ a_neigh.1 ∧
       (k = a_neigh.1 ∧ v = b ∨ k = b ∧ v = a_neigh.1))
    N (dict_iter E) (empty_sets names)) as (G & HG & Hdom & Hrel).
  - intros d [a neigh] Hd Hin. simpl. apply elem_of_dict_iter in Hin.
    assert (a ∈ N) as Ha by (apply Hkeys; by apply elem_of_dom_2 in Hin).
    destruct (foldlM_rel (link a)
      (λ b k v, b ∈ N ∧ b ≠ a ∧ (k = a ∧ v = b ∨ k = b ∧ v = a))
      N (set_iter neigh) d) as (d' & Hd' & Hdom' & Hrel'); [|done|].
    + intros d1 b Hd1 Hb. unfold link.
      destruct (decide (b ∈ N ∧ b ≠ a)) as [[HbN Hba]|Hno].
      * rewrite bool_decide_true by (by rewrite <- elem_of_dom, Hd1).
        rewrite bool_decide_true by done. simpl.
        destruct (set_add_spec d1 a b) as (d2 & -> & Hdom2 & Hrel2);
          [by rewrite Hd1|]. simpl.
        destruct (set_add_spec d2 b a) as (d3 & -> & Hdom3 & Hrel3);
          [by rewrite Hdom2, Hd1|].
        exists d3. split_and!; [done|congruence|]. intros k v.
        rewrite Hrel3, Hrel2. naive_solver.
      * assert (bool_decide (is_Some (d1 !! b)) && bool_decide (b ≠ a) = false)
          as ->.
        { apply andb_false_iff. rewrite !bool_decide_eq_false.
          rewrite <- elem_of_dom, Hd1.
          destruct (decide (b ∈ N)); [right|left]; naive_solver. }
        exists d1. split_and!; [done..|]. naive_solver.
    + exists d'. split_and!; [done..|]. intros k v. rewrite Hrel'.
      setoid_rewrite elem_of_set_iter. naive_solver.
  - by rewrite dom_empty_sets.
  - exists G. split_and!; [done..|]. intros x y. rewrite Hrel.
    unfold N. setoid_rewrite elem_of_list_to_set. split.
    + intros [[]%rel_of_empty_sets
             |([a neigh] & Hin%elem_of_dict_iter & b & Hb & HbN & Hba & Hkv)].
      simpl in *.
      assert (a ∈ names).
      { apply (elem_of_list_to_set (C := gset string)), Hkeys.
        by apply elem_of_dom_2 in Hin. }
      assert (rel_of E a b) by (by exists neigh).
      destruct Hkv as [[-> ->]|[-> ->]]; naive_solver.
    + intros (Hxy & Hx & Hy & [(s & Hs & ?)|(s & Hs & ?)]); right.
      * exists (x, s). split; [by apply elem_of_dict_iter|]. exists y. naive_solver.
      * exists (y, s). split; [by apply elem_of_dict_iter|]. exists x. naive_solver.
Qed.

End call_graph_facts.

(** ** The traversal *)

Lemma degree_sum_remove (G : gmap string (gset string)) (s : gset string) x nb :
  x ∈ s → G !! x = Some nb →
  degree_sum G s = (size nb + degree_sum G (s ∖ {[x]}))%nat.
Proof.
  intros Hx HG. unfold degree_sum.
  assert (elements s ≡ₚ x :: elements (s ∖ {[x]})) as ->.
  { rewrite <- elements_union_singleton by set_solver.
    by rewrite <- union_difference_singleton_L. }
  simpl. by rewrite HG.
Qed.

Lemma degree_sum_mono (G : gmap string (gset string)) (s1 s2 : gset string) :
  s1 ⊆ s2 → (degree_sum G s1 ≤ degree_sum G s2)%nat.
Proof.
  intros Hsub. unfold degree_sum.
  rewrite (union_difference_L s1 s2) by done.
  rewrite elements_disj_union by set_solver.
  rewrite sum_list_with_app. lia.
Qed.

Section component_facts.
Context `{IterOrder}.

(** The loop ends before its fuel does. *)
Lemma component_fuel_enough (G : gmap string (gset string)) fuel :
  ∀ stack seen comp,
  (length stack + degree_sum G (dom G ∖ seen) ≤ fuel)%nat →
  component fuel G stack seen comp ≠ OutOfFuel.
Proof.
  induction fuel as [|fuel IH]; intros [|cur stack] seen comp Hfuel;
    simpl in *; try done; try lia.
  case_bool_decide as Hseen; [apply IH; lia|].
  destruct (G !! cur) as [nb|] eqn:Hcur; [|done].
  apply IH. rewrite length_app, length_reverse, length_sorted.
  rewrite (degree_sum_remove G (dom G ∖ seen) cur nb) in Hfuel;
    [|apply elem_of_difference; split; [by apply elem_of_dom_2 in Hcur|done]|done].
  replace (dom G ∖ (seen ∪ {[cur]})) with (dom G ∖ seen ∖ {[cur]}) by set_solver.
  assert (size (nb ∖ (seen ∪ {[cur]})) ≤ size nb)%nat
    by (apply subseteq_size; set_solver).
  lia.
Qed.

(** What one run of the loop does: it adds to [seen] and to [comp] the same
    set [D] of new names, every name of the stack ends up seen, every
    new name is reached from a name of the stack along links, and the
    neighbours of a new name end up seen. *)
Lemma component_spec (G : gmap string (gset string)) fuel :
  (∀ x y, rel_of G x y → y ∈ dom G) →
  ∀ stack seen comp,
  (∀ x, x ∈ stack → x ∈ dom G) →
  (length stack + degree_sum G (dom G ∖ seen) ≤ fuel)%nat →
  ∃ D : gset string,
    component fuel G stack seen comp = Done (seen ∪ D, comp ∪ D) ∧
    D ## seen ∧ D ⊆ dom G ∧
    (∀ x, x ∈ stack → x ∈ seen ∪ D) ∧
    (∀ y, y ∈ D → ∃ x, x ∈ stack ∧ rtc (rel_of G) x y) ∧
    (∀ x y, x ∈ D → rel_of G x y → y ∈ seen ∪ D).
Proof.
  intros Hclosed.
  induction fuel as [|fuel IH]; intros [|cur stack] seen comp Hstack Hfuel;
    simpl in *; try lia.
  1,2: exists ∅; rewrite !union_empty_r_L; split_and!;
    [done|set_solver..].
  case_bool_decide as Hseen.
  { destruct (IH stack seen comp) as (D & HD & ? & ? & Hst & Hreach & Hnb);
      [set_solver|lia|].
    exists D. split_and!; [done..| | |done].
    - intros x [->|?]%elem_of_cons; [set_solver|by apply Hst].
    - intros y (x & ? & ?)%Hreach. exists x. split; [by right|done]. }
  destruct (G !! cur) as [nb|] eqn:Hcur.
  2: { apply not_elem_of_dom in Hcur. destruct Hcur. apply Hstack. by left. }
  destruct (IH (reverse (sorted (nb ∖ (seen ∪ {[cur]}))) ++ stack)
              (seen ∪ {[cur]}) (comp ∪ {[cur]}))
    as (D & HD & Hdisj & Hsub & Hst & Hreach & Hnb).
  { intros x [Hx|Hx]%elem_of_app; [|apply Hstack; by right].
    apply elem_of_reverse, elem_of_sorted in Hx.
    apply (Hclosed cur). exists nb. split; [done|set_solver]. }
  { rewrite length_app, length_reverse, length_sorted.
    rewrite (degree_sum_remove G (dom G ∖ seen) cur nb) in Hfuel;
      [|apply elem_of_difference; split; [by apply elem_of_dom_2 in Hcur|done]|done].
    replace (dom G ∖ (seen ∪ {[cur]})) with (dom G ∖ seen ∖ {[cur]}) by set_solver.
    assert (size (nb ∖ (seen ∪ {[cur]})) ≤ size nb)%nat
      by (apply subseteq_size; set_solver).
    lia. }
  exists ({[cur]} ∪ D). split_and!.
  - rewrite HD. by rewrite !(assoc_L (∪)).
  - set_solver.
  - apply elem_of_dom_2 in Hcur. set_solver.
  - intros x [->|Hx]%elem_of_cons; [set_solver|].
    specialize (Hst x). rewrite elem_of_app in Hst. set_solver.
  - intros y [->%elem_of_singleton|Hy]%elem_of_union.
    { exists cur. split; [by left|done]. }
    destruct (Hreach y Hy) as (x & [Hx|Hx]%elem_of_app & Hxy).
    + apply elem_of_reverse, elem_of_sorted in Hx.
      exists cur. split; [by left|]. eapply rtc_l; [|done].
      exists nb. split; [done|set_solver].
    + exists x. split; [by right|done].
  - intros x y [->%elem_of_singleton|Hx]%elem_of_union Hxy.
    + destruct Hxy as (nb' & Hnb' & Hy). assert (nb' = nb) as -> by congruence.
      destruct (decide (y ∈ seen ∪ {[cur]})) as [|Hnew]; [set_solver|].
      assert (y ∈ seen ∪ {[cur]} ∪ D) as Hin; [|set_solver].
      apply Hst, elem_of_app. left.
      apply elem_of_reverse, elem_of_sorted. set_solver.
    + specialize (Hnb x y Hx Hxy). set_solver.
Qed.

End component_facts.

(** ** The groups *)

Lemma groups_inv_nil G : groups_inv G ∅ [].
Proof.
  split_and!; [constructor|by intros ?? ?%elem_of_nil|by intros ? ?%elem_of_nil|
    done|by intros ? ?%elem_of_nil|by intros ??? ?%elem_of_nil].
Qed.

Lemma groups_inv_snoc G seen gs (D : gset string) n :
  (∀ x y, rel_of G x y → rel_of G y x) →
  groups_inv G seen gs → D ## seen → n ∈ D →
  (∀ y, y ∈ D → rtc (rel_of G) n y) →
  (∀ x y, x ∈ D → rel_of G x y → y ∈ seen ∪ D) →
  groups_inv G (seen ∪ D) (gs ++ [D]).
Proof.
  intros Hsym (Hnd & Hdisj & Hne & Hun & Hconn & Hcl) HD Hn Hreach Hnb.
  assert (∀ g, g ∈ gs → g ⊆ seen) as Hsub.
  { intros g Hg x Hx. rewrite <- Hun. apply elem_of_union_list. by exists g. }
  assert (∀ g, g ∈ gs → g ## D) as HgD.
  { intros g Hg. specialize (Hsub g Hg). set_solver. }
  assert (D ∉ gs) as HDgs.
  { intros HDin. specialize (HgD D HDin). set_solver. }
  split_and!.
  - apply NoDup_app. split_and!; [done| |apply NoDup_singleton].
    intros g Hg ->%list_elem_of_singleton. done.
  - intros g1 g2 [H1| ->%list_elem_of_singleton]%elem_of_app
      [H2| ->%list_elem_of_singleton]%elem_of_app Hneq.
    + by apply Hdisj.
    + by apply HgD.
    + symmetry. by apply HgD.
    + done.
  - intros g [Hg| ->%list_elem_of_singleton]%elem_of_app; [by apply Hne|].
    set_solver.
  - rewrite union_list_app_L, Hun. simpl. by rewrite union_empty_r_L.
  - intros g [Hg| ->%list_elem_of_singleton]%elem_of_app; [by apply Hconn|].
    by exists n.
  - intros g x y [Hg| ->%list_elem_of_singleton]%elem_of_app Hx Hxy.
    { by apply (Hcl g x y). }
    apply Hnb in Hxy as Hy; [|done].
    apply elem_of_union in Hy as [Hy|Hy]; [|done].
    rewrite <- Hun in Hy. apply elem_of_union_list in Hy as (g & Hg & Hyg).
    assert (x ∈ g) by (apply (Hcl g y x); auto).
    specialize (Hsub g Hg). set_solver.
Qed.

Lemma groups_inv_perm G seen gs gs' :
  gs ≡ₚ gs' → groups_inv G seen gs → groups_inv G seen gs'.
Proof.
  intros Hp (Hnd & Hdisj & Hne & Hun & Hconn & Hcl). split_and!.
  - by rewrite <- Hp.
  - intros g1 g2. rewrite <- !Hp. apply Hdisj.
  - intros g. rewrite <- Hp. apply Hne.
  - rewrite <- Hun. apply set_eq. intros x. rewrite !elem_of_union_list.
    by setoid_rewrite Hp.
  - intros g. rewrite <- Hp. apply Hconn.
  - intros g x y. rewrite <- Hp. apply Hcl.
Qed.

#[local] Arguments component : simpl never.
#[local] Arguments component_fuel : simpl never.

Section build_groups_facts.
Context `{IterOrder}.

Lemma groups_loop_spec (G : gmap string (gset string)) names :
  (∀ x y, rel_of G x y → y ∈ dom G) →
  (∀ x y, rel_of G x y → rel_of G y x) →
  ∀ seen gs,
  (∀ n, n ∈ names → n ∈ dom G) →
  groups_inv G seen gs → seen ⊆ dom G →
  ∃ seen' gs',
    foldlM (next_group G) (seen, gs) names = Done (seen', gs') ∧
    groups_inv G seen' gs' ∧ seen ⊆ seen' ∧ seen' ⊆ dom G ∧
    ∀ n, n ∈ names → n ∈ seen'.
Proof.
  intros Hclosed Hsym.
  induction names as [|n names IH]; intros seen gs Hnames Hinv Hseen.
  { exists seen, gs. split_and!; [done..|]. by intros ? ?%elem_of_nil. }
  simpl. case_bool_decide as Hn.
  - simpl. destruct (IH seen gs) as (seen' & gs' & -> & ? & ? & ? & Hall);
      [set_solver|done..|].
    exists seen', gs'. split_and!; [done..|].
    intros m [->|?]%elem_of_cons; [set_solver|by apply Hall].
  - destruct (component_spec G (component_fuel G) Hclosed [n] seen ∅)
      as (D & -> & HD & HDsub & Hst & Hreach & Hnb).
    { intros x ->%list_elem_of_singleton. apply Hnames. by left. }
    { unfold component_fuel. simpl.
      assert (dom G ∖ seen ⊆ dom G) as Hsub by set_solver.
      apply (degree_sum_mono G) in Hsub. lia. }
    simpl. rewrite union_empty_l_L.
    assert (n ∈ D) as HnD.
    { specialize (Hst n). rewrite list_elem_of_singleton in Hst. set_solver. }
    destruct (IH (seen ∪ D) (gs ++ [D])) as (seen' & gs' & -> & ? & ? & ? & Hall).
    + set_solver.
    + apply (groups_inv_snoc G seen gs D n); [done..| |done].
      intros y (x & ->%list_elem_of_singleton & ?)%Hreach. done.
    + set_solver.
    + exists seen', gs'. split_and!; [done|done|set_solver|done|].
      intros m [->|?]%elem_of_cons; [set_solver|by apply Hall].
Qed.

End build_groups_facts.

(** ** The order of the groups *)

Lemma key_rel_iff k1 k2 :
  key_rel k1 k2 ↔ k1.1 < k2.1 ∨ (k1.1 = k2.1 ∧ String.le k1.2 k2.2).
Proof.
  unfold key_rel, key_le, String.le.
  rewrite orb_True, andb_True, !Is_true_true, Z.ltb_lt, Z.eqb_eq.
  by rewrite <- !Is_true_true.
Qed.

#[local] Instance key_rel_total : Total key_rel.
Proof.
  intros [z1 s1] [z2 s2]. rewrite !key_rel_iff. simpl.
  destruct (total String.le s1 s2); destruct (Z.lt_total z1 z2) as [?|[?|?]];
    naive_solver.
Qed.

#[local] Instance key_rel_trans : Transitive key_rel.
Proof.
  intros [z1 s1] [z2 s2] [z3 s3]. rewrite !key_rel_iff. simpl.
  intros [?|[-> ?]] [?|[-> ?]]; [left; lia|by left|by left|right].
  split; [done|]. by etrans.
Qed.

Lemma foldlM_ext {A B} (f g : A → B → outcome A) a l :
  (∀ a x, f a x = g a x) → foldlM f a l = foldlM g a l.
Proof.
  intros Hfg. revert a. induction l as [|x l IH]; intros a; simpl; [done|].
  rewrite Hfg. destruct (g a x); simpl; auto.
Qed.

Lemma sort_by_ext {A} (le1 le2 : A → A → bool) l :
  (∀ x y, le1 x y = le2 x y) → sort_by le1 l = sort_by le2 l.
Proof.
  intros Hle. induction l as [|x l IH]; simpl; [done|]. rewrite IH.
  generalize (sort_by le2 l). intros k.
  induction k as [|y k IHk]; simpl; [done|]. by rewrite Hle, IHk.
Qed.

Lemma component_order_irrel (o1 o2 : IterOrder) G fuel :
  ∀ stack seen comp,
  @component o1 fuel G stack seen comp = @component o2 fuel G stack seen comp.
Proof.
  induction fuel as [|fuel IH]; intros [|cur stack] seen comp; try done.
  unfold component; fold (@component o1); fold (@component o2).
  case_bool_decide; [apply IH|]. destruct (G !! cur); [|done].
  rewrite (sorted_order_irrel o1 o2). apply IH.
Qed.

Lemma group_key_order_irrel (o1 o2 : IterOrder) g :
  @group_key o1 g = @group_key o2 g.
Proof. unfold group_key. by rewrite (sorted_order_irrel o1 o2). Qed.

Section build_groups_spec.
Context `{IterOrder}.

Lemma build_groups_spec names (E : gmap string (gset string)) :
  dom E ⊆ list_to_set names →
  ∃ G gs, build_graph names E = Done G ∧ build_groups names E = Done gs ∧
    groups_inv G (list_to_set names) gs ∧
    StronglySorted (λ g1 g2, key_rel (group_key g1) (group_key g2)) gs.
Proof.
  intros Hkeys.
  destruct (build_graph_spec names E Hkeys) as (G & HG & Hdom & Hrel).
  assert (∀ x y, rel_of G x y → y ∈ dom G) as Hclosed.
  { intros x y (_ & _ & Hy & _)%Hrel. rewrite Hdom. by apply elem_of_list_to_set. }
  assert (∀ x y, rel_of G x y → rel_of G y x) as Hsym.
  { intros x y. rewrite !Hrel. naive_solver. }
  destruct (groups_loop_spec G names Hclosed Hsym ∅ [])
    as (seen' & gs' & Hloop & Hinv & _ & Hsub & Hall).
  { intros n Hn. rewrite Hdom. by apply elem_of_list_to_set. }
  { apply groups_inv_nil. }
  { set_solver. }
  assert (seen' = list_to_set names) as ->.
  { apply set_eq. intros x. split; [rewrite <- Hdom; apply Hsub|].
    intros Hx%elem_of_list_to_set. by apply Hall. }
  exists G, (sort_by (λ g1 g2, key_le (group_key g1) (group_key g2)) gs').
  split_and!; [done| | |].
  - unfold build_groups. rewrite HG. simpl. by rewrite Hloop.
  - eapply groups_inv_perm; [|done]. symmetry. apply sort_by_perm.
  - apply Sorted_StronglySorted.
    { intros g1 g2 g3. apply key_rel_trans. }
    apply (@sort_by_sorted _ (λ g1 g2, key_le (group_key g1) (group_key g2))).
    intros g1 g2. apply key_rel_total.
Qed.

End build_groups_spec.

(** Two runs that iterate in different orders build the same groups. *)
Lemma build_groups_order_irrel (o1 o2 : IterOrder) names
    (E : gmap string (gset string)) :
  dom E ⊆ list_to_set names →
  @build_groups o1 names E = @build_groups o2 names E.
Proof.
  intros Hkeys. unfold build_groups.
  destruct (@build_graph_spec o1 names E Hkeys) as (G1 & -> & Hdom1 & Hrel1).
  destruct (@build_graph_spec o2 names E Hkeys) as (G2 & -> & Hdom2 & Hrel2).
  assert (G1 = G2) as ->.
  { apply rel_of_ext; [congruence|]. intros k v. by rewrite Hrel1, Hrel2. }
  simpl.
  rewrite (foldlM_ext (@next_group o1 G2) (@next_group o2 G2)).
  2: { intros [seen gs] n. unfold next_group.
       by rewrite (component_order_irrel o1 o2). }
  destruct (foldlM _ _ _) as [[seen gs]| |]; simpl; [|done..].
  f_equal. apply sort_by_ext. intros g1 g2.
  by rewrite !(group_key_order_irrel o1 o2).
Qed.

(** ** The analysis of a file *)

Lemma rel_of_fmap {A} (calls_of : A → gset string) (funcs : gmap string A) n c :
  rel_of (calls_of <$> funcs) n c ↔ ∃ f, funcs !! n = Some f ∧ c ∈ calls_of f.
Proof.
  unfold rel_of. rewrite lookup_fmap. split.
  - intros (s & Hs & ?). destruct (funcs !! n) as [f|]; [|done].
    exists f. by simplify_eq/=.
  - intros (f & -> & ?). by eexists.
Qed.

Section analyze_facts.
Context `{IterOrder}.

Lemma names_of_keys {A} (funcs : gmap string A) :
  list_to_set (sort_names (dict_iter funcs).*1) = dom funcs.
Proof.
  apply set_eq. intros x.
  by rewrite elem_of_list_to_set, elem_of_sort_names, dict_iter_keys, elem_of_dom.
Qed.

Lemma analyze_funcs_spec {A} (calls_of : A → gset string) (funcs : gmap string A) :
  ∃ a, analyze_funcs calls_of funcs = Done a ∧
       analysis_ok (calls_of <$> funcs) a.
Proof.
  unfold analyze_funcs.
  pose proof (names_of_keys funcs) as Hnames.
  pose proof (sort_names_sorted (dict_iter funcs).*1) as Hsorted.
  destruct (sort_names (dict_iter funcs).*1) as [|n0 names0] eqn:Heq.
  { eexists. split; [done|]. simpl in Hnames.
    unfold analysis_ok. simpl. rewrite dom_fmap_L, <- Hnames.
    split_and!; [done|constructor|set_solver| | |constructor|].
    - intros n c. split; [by intros (s & ? & ?)|set_solver].
    - intros b x. split; by intros (s & ? & ?).
    - exists ∅. split; [|apply groups_inv_nil].
      intros x y. split; [by intros (s & ? & ?)|].
      by intros (_ & [(s & ? & ?)|(s & ? & ?)]). }
  rewrite <- Heq in *. clear Heq n0 names0.
  set (names := sort_names (dict_iter funcs).*1) in *.
  destruct (call_edges_spec calls_of funcs names Hnames)
    as (E & -> & HdomE & HrelE). simpl.
  destruct (build_groups_spec names E) as (G & gs & HG & -> & Hinv & Hgs).
  { by rewrite HdomE, Hnames. } simpl.
  destruct (callers_of_spec names E) as (C & -> & HdomC & HrelC).
  { by rewrite HdomE, Hnames. }
  { intros a b (f & _ & _ & Hb)%HrelE. rewrite HdomE. by apply elem_of_dom. }
  simpl. eexists. split; [done|]. unfold analysis_ok. simpl.
  rewrite dom_fmap_L. split_and!; [done..| | |done|].
  - intros n c. rewrite HrelE, rel_of_fmap, elem_of_dom. naive_solver.
  - done.
  - exists G. split; [|by rewrite <- Hnames].
    destruct (build_graph_spec names E) as (G' & HG' & _ & HrelG).
    { by rewrite HdomE, Hnames. }
    rewrite HG in HG'. injection HG' as <-.
    intros x y. rewrite HrelG. split; [naive_solver|].
    intros (Hxy & Hor). split; [done|].
    assert (∀ a b, rel_of E a b → a ∈ names ∧ b ∈ names) as Hin.
    { intros a b (f & Hf & _ & Hb)%HrelE.
      rewrite <- !(elem_of_list_to_set (C := gset string)), Hnames.
      rewrite !elem_of_dom. split; [by eexists|done]. }
    destruct Hor as [Hor|Hor]; destruct (Hin _ _ Hor); naive_solver.
Qed.

End analyze_facts.

(** The analysis does not depend on the iteration order of the run. *)
Lemma analyze_funcs_order_irrel (o1 o2 : IterOrder) {A}
    (calls_of : A → gset string) (funcs : gmap string A) :
  @analyze_funcs o1 A calls_of funcs = @analyze_funcs o2 A calls_of funcs.
Proof.
  unfold analyze_funcs.
  assert (sort_names (@dict_iter o1 A funcs).*1
          = sort_names (@dict_iter o2 A funcs).*1) as Hn.
  { apply sort_names_perm_irrel.
    by rewrite (@dict_iter_perm o1), (@dict_iter_perm o2). }
  rewrite <- Hn.
  pose proof (@names_of_keys o1 A funcs) as Hnames.
  destruct (sort_names (@dict_iter o1 A funcs).*1) as [|n0 names0] eqn:Heq;
    [done|].
  rewrite <- Heq in *. clear Heq n0 names0.
  set (names := sort_names (@dict_iter o1 A funcs).*1) in *.
  destruct (@call_edges_spec o1 A calls_of funcs names Hnames)
    as (E1 & -> & Hdom1 & Hrel1).
  destruct (@call_edges_spec o2 A calls_of funcs names Hnames)
    as (E2 & -> & Hdom2 & Hrel2).
  assert (E1 = E2) as ->.
  { apply rel_of_ext; [congruence|]. intros k v. by rewrite Hrel1, Hrel2. }
  simpl. rewrite (build_groups_order_irrel o1 o2) by (by rewrite Hdom2, Hnames).
  destruct (@build_groups o2 names E2) as [gs| |]; simpl; [|done..].
  assert (∀ a b, rel_of E2 a b → b ∈ dom E2) as Hclosed.
  { intros a b (f & _ & _ & Hb)%Hrel2. rewrite Hdom2. by apply elem_of_dom. }
  destruct (@callers_of_spec o1 names E2) as (C1 & -> & HdomC1 & HrelC1);
    [by rewrite Hdom2, Hnames|done|].
  destruct (@callers_of_spec o2 names E2) as (C2 & -> & HdomC2 & HrelC2);
    [by rewrite Hdom2, Hnames|done|].
  assert (C1 = C2) as ->; [|done].
  apply rel_of_ext; [congruence|]. intros k v. by rewrite HrelC1, HrelC2.
Qed.

(** ** The heuristic extractor: candidates and the collision policy *)

Lemma foldl_pointwise {A B} (f g : A → B → A) l : ∀ a,
  (∀ a x, f a x = g a x) → foldl f a l = foldl g a l.
Proof.
  induction l as [|x l IH]; intros a Hfg; simpl; [done|].
  rewrite Hfg. by apply IH.
Qed.

Lemma foldl_omap {A B C} (f : B → option C) (g : A → C → A) l : ∀ a,
  foldl (λ a x, match f x with Some y => g a y | None => a end) a l
  = foldl g a (omap f l).
Proof.
  induction l as [|x l IH]; intros a; simpl; [done|].
  destruct (f x); simpl; apply IH.
Qed.

Lemma foldl_bind {A B C} (h : B → list C) (g : A → C → A) l : ∀ a,
  foldl (λ a x, foldl g a (h x)) a l = foldl g a (x ← l; h x).
Proof.
  induction l as [|x l IH]; intros a; simpl; [done|].
  by rewrite foldl_app, IH.
Qed.

(** The two loops of [parse_js_functions] amount to one pass of the
    collision policy over the candidates. *)
Lemma parse_js_functions_candidates code :
  parse_js_functions code = foldl keep ∅ (js_candidates code).
Proof.
  unfold parse_js_functions, js_candidates.
  rewrite <- (foldl_bind (λ rx_kind, omap (candidate code) (finditer rx_kind.1 code))).
  apply foldl_pointwise. intros seen rx_kind. apply foldl_omap.
Qed.

Lemma wins_le l jf c :
  wins l jf → c ∈ l → JsFunction.name c = JsFunction.name jf →
  span_len c ≤ span_len jf.
Proof.
  intros (l1 & l2 & -> & H1 & H2) [Hc|[->|Hc]%elem_of_cons]%elem_of_app Hn.
  - specialize (H1 c Hc Hn). lia.
  - lia.
  - by apply H2.
Qed.

Lemma keep_all_spec l :
  (∀ name jf, foldl keep ∅ l !! name = Some jf →
     JsFunction.name jf = name ∧ wins l jf) ∧
  (∀ c, c ∈ l → is_Some (foldl keep ∅ l !! JsFunction.name c)).
Proof.
  induction l as [|x l [IH1 IH2]] using rev_ind.
  { split; [|by intros ? ?%elem_of_nil]. simpl. intros name jf.
    by rewrite lookup_empty. }
  rewrite foldl_app. simpl. set (seen := foldl keep ∅ l) in *.
  assert (∀ jf, wins l jf → JsFunction.name jf ≠ JsFunction.name x ∨
            span_len x ≤ span_len jf → wins (l ++ [x]) jf) as Hext.
  { intros jf (l1 & l2 & -> & H1 & H2) Hx. exists l1, (l2 ++ [x]).
    split_and!; [by rewrite <- app_assoc|done|].
    intros c [Hc| ->%list_elem_of_singleton]%elem_of_app Hn; [by apply H2|].
    destruct Hx; [congruence|done]. }
  assert (∀ old, seen !! JsFunction.name x = Some old → span_len old < span_len x →
            wins (l ++ [x]) x) as Hnew.
  { intros old Hold Hlt. exists l, []. split_and!; [done| |by intros ? ?%elem_of_nil].
    intros c Hc Hn. destruct (IH1 _ _ Hold) as [Hname Hw].
    pose proof (wins_le l old c Hw Hc). rewrite Hname in *.
    specialize (H Hn). lia. }
  unfold keep. split.
  - intros name jf. destruct (seen !! JsFunction.name x) as [old|] eqn:Hold.
    + case_bool_decide as Hlt.
      * destruct (decide (name = JsFunction.name x)) as [->|Hne].
        { rewrite lookup_insert_eq. intros [= <-]. split; [done|]. by eapply Hnew. }
        rewrite lookup_insert_ne by done. intros [Hn Hw]%IH1.
        split; [done|]. apply Hext; [done|]. left. congruence.
      * intros Hjf. destruct (IH1 _ _ Hjf) as [Hn Hw]. split; [done|].
        apply Hext; [done|].
        destruct (decide (name = JsFunction.name x)) as [->|Hne];
          [|left; congruence].
        right. assert (jf = old) as -> by congruence. lia.
    + destruct (decide (name = JsFunction.name x)) as [->|Hne].
      * rewrite lookup_insert_eq. intros [= <-]. split; [done|].
        exists l, []. split_and!; [done| |by intros ? ?%elem_of_nil].
        intros c Hc Hn. destruct (IH2 c Hc) as [? Hsome]. congruence.
      * rewrite lookup_insert_ne by done. intros [Hn Hw]%IH1.
        split; [done|]. apply Hext; [done|]. left. congruence.
  - intros c [Hc| ->%list_elem_of_singleton]%elem_of_app.
    + specialize (IH2 c Hc). destruct (seen !! JsFunction.name x) as [old|] eqn:Hold.
      * case_bool_decide; [|done]. rewrite lookup_insert_is_Some. 
        destruct (decide (JsFunction.name x = JsFunction.name c)); auto.
      * rewrite lookup_insert_is_Some.
        destruct (decide (JsFunction.name x = JsFunction.name c)); auto.
    + destruct (seen !! JsFunction.name x) as [old|] eqn:Hold.
      * case_bool_decide; [by rewrite lookup_insert_eq|by rewrite Hold].
      * by rewrite lookup_insert_eq.
Qed.

(** The call harvest leaves out the tokens of [call_skip]. *)
Lemma harvest_calls_skip body kw :
  kw ∈ call_skip → kw ∉ harvest_calls body.
Proof.
  intros Hkw. unfold harvest_calls.
  generalize (finditer JS_CALL_RE body). intros l.
  assert (kw ∉ (∅ : gset string)) as Hinit by set_solver.
  revert Hinit. generalize (∅ : gset string).
  induction l as [|cm l IH]; intros calls Hcalls; simpl; [done|].
  apply IH. case_bool_decide as Hin; [done|].
  apply not_elem_of_union. split; [done|]. 
  intros ->%elem_of_singleton. done.
Qed.

Lemma candidate_calls code m jf :
  candidate code m = Some jf →
  ∃ body, JsFunction.calls jf = harvest_calls body.
Proof.
  unfold candidate. repeat case_bool_decide; try done.
  intros [= <-]. simpl. by eexists.
Qed.

Lemma elem_of_js_candidates code jf :
  jf ∈ js_candidates code →
  ∃ rx_kind m, rx_kind ∈ JS_FUNC_PATTERNS ∧ m ∈ finditer rx_kind.1 code ∧
    candidate code m = Some jf.
Proof.
  unfold js_candidates. intros (rx_kind & Hjf & Hrx)%list_elem_of_bind.
  apply list_elem_of_omap in Hjf as (m & Hm & Hc). by exists rx_kind, m.
Qed.

Lemma parse_js_functions_calls code name jf kw :
  parse_js_functions code !! name = Some jf →
  kw ∈ call_skip → kw ∉ JsFunction.calls jf.
Proof.
  rewrite parse_js_functions_candidates.
  intros [_ (l1 & l2 & Hl & _)]%keep_all_spec Hkw.
  assert (jf ∈ js_candidates code) as Hin by (rewrite Hl; set_solver).
  apply elem_of_js_candidates in Hin as (rx_kind & m & _ & _ & Hc).
  apply candidate_calls in Hc as (body & ->). by apply harvest_calls_skip.
Qed.

(** ** Spans are stretches of the text *)

Lemma give_back_Some {A} (f : nat → option A) lo k r :
  Re.give_back f lo k = Some r → ∃ k', f k' = Some r.
Proof.
  induction k as [|k IH]; simpl; case_bool_decide; try done;
    destruct (f _) eqn:Hf; try done; intros; simplify_eq; eauto.
Qed.

Lemma first_of_Some {A B} (f : A → option B) l r :
  Re.first_of f l = Some r → ∃ x, f x = Some r.
Proof.
  induction l as [|x l IH]; simpl; [done|].
  destruct (f x) eqn:Hf; intros; simplify_eq; eauto.
Qed.

(** A match ends at or after the position where it starts. *)
Lemma match_at_ge p : ∀ prev s pos g e g',
  match_at p prev s pos g = Some (e, g') → (pos ≤ e)%nat.
Proof.
  induction p as [|a p IH]; intros prev s pos g e g'; simpl.
  { intros [= -> _]. lia. }
  destruct a as [w|ws|cls|cls lo| | |].
  - destruct (Re.starts_with w s); [|done]. intros ?%IH. lia.
  - intros [w Hw]%first_of_Some.
    destruct (Re.starts_with w s); [|done]. apply IH in Hw. lia.
  - destruct s as [|c s]; [done|]. destruct (cls c); [|done].
    intros ?%IH. lia.
  - intros [k Hk]%give_back_Some. apply IH in Hk. lia.
  - destruct (xorb _ _); [|done]. apply IH.
  - apply IH.
  - apply IH.
Qed.

Lemma finditer_from_start_le_end p : ∀ s prev pos skip m,
  m ∈ Re.finditer_from p prev s pos skip → (m_start m ≤ m_end m)%nat.
Proof.
  induction s as [|c s IH]; intros prev pos skip m; simpl.
  - destruct skip; [|by intros ?%elem_of_nil].
    destruct (match_at p prev [] pos (0, 0)%nat) as [[e g]|] eqn:Hm;
      [|by intros ?%elem_of_nil].
    intros ->%list_elem_of_singleton. simpl. by eapply match_at_ge.
  - destruct skip; [|apply IH].
    destruct (match_at p prev (c :: s) pos (0, 0)%nat) as [[e g]|] eqn:Hm;
      [|apply IH].
    intros [->|?]%elem_of_cons; [|by eapply IH].
    simpl. by eapply match_at_ge.
Qed.

Lemma find_char_range ch s : ∀ i j,
  find_char ch s i = Z.of_nat j → (i ≤ j < i + length s)%nat.
Proof.
  induction s as [|c s IH]; intros i j; simpl; [lia|].
  case_bool_decide; [lia|]. intros ?%IH. lia.
Qed.

Lemma str_find_range code ch start j :
  str_find code ch start = Z.of_nat j → (start ≤ j < length code)%nat.
Proof.
  unfold str_find. intros Hf%find_char_range.
  rewrite length_drop in Hf. lia.
Qed.

Lemma find_char_cases ch s i :
  find_char ch s i = -1 ∨ ∃ j : nat, find_char ch s i = Z.of_nat j.
Proof.
  revert i. induction s as [|c s IH]; intros i; simpl; [by left|].
  case_bool_decide; [right; by eexists|apply IH].
Qed.

Lemma scan_index_range s : ∀ i depth in_str esc j,
  scan s i depth in_str esc = Z.of_nat j → (i ≤ j < i + length s)%nat.
Proof.
  induction s as [|ch s IH]; intros i depth in_str esc j; simpl; [lia|].
  destruct in_str as [q|].
  - destruct esc; [intros ?%IH; lia|].
    repeat case_bool_decide; intros ?%IH; lia.
  - destruct (is_quote ch); [intros ?%IH; lia|].
    repeat case_bool_decide; try (intros ?%IH; lia). lia.
Qed.

Lemma brace_span_range code i j :
  _brace_span code i = Z.of_nat j → (i ≤ j < length code)%nat.
Proof.
  unfold _brace_span. intros Hs%scan_index_range.
  rewrite length_drop in Hs. lia.
Qed.

(** The span of a candidate, [end_idx - start_idx], is the number of
    characters of its source text. *)
Lemma candidate_span code rx m jf :
  m ∈ finditer rx code → candidate code m = Some jf →
  span_len jf = Z.of_nat (length (JsFunction.src jf)) ∧
  JsFunction.src jf
  = slice code (Z.to_nat (JsFunction.start_idx jf)) (Z.to_nat (JsFunction.end_idx jf)).
Proof.
  intros Hm%finditer_from_start_le_end. unfold candidate.
  case_bool_decide; [done|].
  destruct (find_char_cases lbrace (drop (m_end m) code) (m_end m))
    as [Hf|[b Hf]]; fold (str_find code lbrace (m_end m)) in Hf; rewrite Hf.
  { by rewrite bool_decide_true. }
  rewrite bool_decide_false by lia. rewrite Nat2Z.id.
  apply str_find_range in Hf.
  destruct (scan_range (drop b code) b 0 None false) as [Hs|[j Hs]];
    fold (_brace_span code b) in Hs; rewrite Hs.
  { by rewrite bool_decide_true. }
  rewrite bool_decide_false by lia. apply brace_span_range in Hs.
  intros [= <-]. unfold span_len, slice. simpl.
  rewrite length_drop, length_take. rewrite !Nat2Z.id.
  replace (Z.to_nat (Z.of_nat j + 1)) with (S j) by lia.
  split; [lia|done].
Qed.

(** ** The groups of a file *)

Lemma groups_inv_partition G s gs : groups_inv G s gs → is_partition gs s.
Proof.
  intros (Hnd & Hdisj & Hne & Hun & _ & _).
  assert (∀ i j g1 g2, i ≠ j → gs !! i = Some g1 → gs !! j = Some g2 → g1 ## g2)
    as Hidx.
  { intros i j g1 g2 Hij H1 H2. apply Hdisj; [by eapply list_elem_of_lookup_2..|].
    intros ->. by destruct Hij; eapply NoDup_lookup. }
  split_and!; [done..|].
  intros n Hn. rewrite <- Hun in Hn.
  apply elem_of_union_list in Hn as (g & [i Hi]%list_elem_of_lookup_1 & Hng).
  exists i, g. split_and!; [done..|]. intros j g' Hj Hng'.
  destruct (decide (j = i)) as [|Hji]; [done|].
  specialize (Hidx j i g' g Hji Hj Hi). set_solver.
Qed.

Lemma StronglySorted_lookup_lt {A} (R : relation A) l i j x y :
  StronglySorted R l → (i < j)%nat → l !! i = Some x → l !! j = Some y → R x y.
Proof.
  intros Hs. revert i j. induction Hs as [|z l Hs IH Hall]; intros i j Hij Hi Hj.
  { by rewrite lookup_nil in Hi. }
  destruct j as [|j]; [lia|]. simpl in Hj. destruct i as [|i]; simpl in Hi.
  - simplify_eq. rewrite Forall_forall in Hall. apply Hall.
    by eapply list_elem_of_lookup_2.
  - apply (IH i j); [lia|done..].
Qed.

Section group_order_facts.
Context `{IterOrder}.

Lemma group_key_least (g : gset string) :
  g ≠ ∅ → ∃ m, group_key g = (- Z.of_nat (size g), m) ∧ is_least m g.
Proof.
  intros Hg. unfold group_key.
  pose proof (sort_names_sorted (set_iter g)) as Hs. fold (sorted g) in Hs.
  pose proof (elem_of_sorted) as Hel.
  destruct (sorted g) as [|m l] eqn:Heq.
  { destruct Hg. apply set_eq. intros x. rewrite <- (Hel x g), Heq. set_solver. }
  exists m. split; [done|]. split.
  - apply Hel. rewrite Heq. by left.
  - intros x Hx%Hel. rewrite Heq in Hx. apply elem_of_cons in Hx as [->|Hx]; [done|].
    apply StronglySorted_inv in Hs as [_ Hall]. rewrite Forall_forall in Hall.
    by apply Hall.
Qed.

Lemma groups_ordered_of_sorted G s gs :
  groups_inv G s gs →
  StronglySorted (λ g1 g2, key_rel (group_key g1) (group_key g2)) gs →
  groups_ordered gs.
Proof.
  intros Hinv Hs i j g1 g2 Hij H1 H2.
  pose proof (StronglySorted_lookup_lt _ gs i j g1 g2 Hs Hij H1 H2) as Hk.
  destruct (groups_inv_partition G s gs Hinv) as (Hne & Hdisj & _).
  destruct (group_key_least g1) as (m1 & Hk1 & Hm1);
    [by eapply Hne, list_elem_of_lookup_2|].
  destruct (group_key_least g2) as (m2 & Hk2 & Hm2);
    [by eapply Hne, list_elem_of_lookup_2|].
  cbv beta in Hk. rewrite Hk1, Hk2 in Hk. apply key_rel_iff in Hk. simpl in Hk.
  destruct Hk as [?|[? ?]]; [left; lia|right]. split; [lia|].
  exists m1, m2. split_and!; [done..|].
  assert (g1 ## g2) as Hd by (apply (Hdisj i j); [lia|done..]).
  intros ->. destruct Hm1, Hm2. set_solver.
Qed.

End group_order_facts.

Lemma analyze_file_spec `{IterOrder} `{PythonAst} lang code :
  ∃ a, analyze_file lang code = Done a ∧ analysis_ok (raw_callees lang code) a.
Proof. destruct lang; apply analyze_funcs_spec. Qed.

Lemma analyze_file_order_irrel (o1 o2 : IterOrder) `{PythonAst} lang code :
  @analyze_file o1 _ lang code = @analyze_file o2 _ lang code.
Proof. destruct lang; apply analyze_funcs_order_irrel. Qed.

(** C1. The groups returned for a file are a partition of the names of the
    functions extracted from it: every name is in exactly one group, the
    groups are pairwise disjoint and not empty, and their union is the set
    of extracted names. *)
Theorem groups_partition_extracted_names `{IterOrder} `{PythonAst} lang code :
  ∃ a, analyze_file lang code = Done a ∧
       is_partition (Analysis.groups a) (extracted_names lang code).
Proof.
  destruct (analyze_file_spec lang code)
    as (a & Ha & _ & _ & _ & _ & _ & _ & G & _ & Hinv).
  exists a. split; [done|]. by eapply groups_inv_partition.
Qed.

(** C4. The groups come by descending size, groups of equal size by their
    smallest name, and a second run, whatever order it iterates in,
    returns the same list. *)
Theorem groups_sorted_by_size_then_name (o o' : IterOrder) `{PythonAst}
    lang code :
  ∃ a, @analyze_file o _ lang code = Done a ∧
       groups_ordered (Analysis.groups a) ∧
       ∃ a', @analyze_file o' _ lang code = Done a' ∧
             Analysis.groups a' = Analysis.groups a.
Proof.
  destruct (@analyze_file_spec o _ lang code)
    as (a & Ha & _ & _ & _ & _ & _ & Hs & G & _ & Hinv).
  exists a. split_and!; [done| |].
  - exact (@groups_ordered_of_sorted o G _ _ Hinv Hs).
  - exists a. split; [|done]. by rewrite <- (analyze_file_order_irrel o o').
Qed.

(** C9. Two runs on the same text give the same result: the extractors do
    not depend on the iteration order at all, and the names, the resolved
    edges, the callers and the ordered list of groups computed from their
    records are the same under any two iteration orders. *)
Theorem analysis_is_deterministic (o1 o2 : IterOrder) `{PythonAst} lang code :
  ∃ a, @analyze_file o1 _ lang code = Done a ∧
       @analyze_file o2 _ lang code = Done a.
Proof.
  destruct (@analyze_file_spec o1 _ lang code) as (a & Ha & _).
  exists a. split; [done|]. by rewrite <- (analyze_file_order_irrel o1 o2).
Qed.

(** C8. There is an edge from [n] to [c] exactly when [c] is a raw callee
    of [n] and the name of an extracted function, and the callers map is
    the inverse of the edges: [b] is a caller of [x] exactly when [x] is a
    callee of [b]. *)
Theorem edges_resolve_known_names `{IterOrder} `{PythonAst} lang code :
  ∃ a, analyze_file lang code = Done a ∧
    (∀ n c, rel_of (Analysis.edges a) n c ↔
       rel_of (raw_callees lang code) n c ∧ c ∈ extracted_names lang code) ∧
    (∀ x b, rel_of (Analysis.callers a) x b ↔ rel_of (Analysis.edges a) b x).
Proof.
  destruct (analyze_file_spec lang code) as (a & Ha & _ & _ & _ & He & Hc & _).
  by exists a.
Qed.

(** A name without links to other names is a group of its own. *)
Lemma isolated_group G s gs f :
  groups_inv G s gs → f ∈ s →
  (∀ y, ¬ rel_of G f y) → (∀ x, ¬ rel_of G x f) →
  {[f]} ∈ gs ∧ ∀ g, g ∈ gs → f ∈ g → g = {[f]}.
Proof.
  intros (_ & _ & _ & Hun & Hconn & _) Hf Hout Hin.
  assert (∀ g, g ∈ gs → f ∈ g → g = {[f]}) as Huniq.
  { intros g Hg Hfg. destruct (Hconn g Hg) as (n & Hn & Hreach).
    assert (n = f) as ->.
    { pose proof (Hreach f Hfg) as Hnf.
      apply rtc_inv_r in Hnf as [?|(z & _ & Hz)]; [done|].
      by apply Hin in Hz. }
    apply set_eq. intros y. rewrite elem_of_singleton. split; [|by intros ->].
    intros Hy. pose proof (Hreach y Hy) as Hfy.
    apply rtc_inv in Hfy as [?|(z & Hz & _)]; [done|].
    by apply Hout in Hz. }
  split; [|done]. rewrite <- Hun in Hf.
  apply elem_of_union_list in Hf as (g & Hg & Hfg).
  by rewrite <- (Huniq g Hg Hfg).
Qed.

(** C10, as stated, fails: in [called_recursion_js] the only call edge of
    [f] is the one to itself, but [main] calls [f], and the graph without
    direction links the two: the only group is the one of [f] and [main],
    and [f] has no group of its own. *)
Lemma called_recursion_joins_its_caller :
  ∃ a, @analyze_file canonical_order tiny_python javascript called_recursion_js
       = Done a ∧
    Analysis.edges a !! "f"%string = Some {[ "f"%string ]} ∧
    Analysis.edges a !! "main"%string = Some {[ "f"%string ]} ∧
    Analysis.groups a = [ {[ "f"; "main" ]}%string ] ∧
    {[ "f"%string ]} ∉ Analysis.groups a.
Proof.
  eexists. split; [vm_compute; reflexivity|].
  split_and!; [vm_compute; reflexivity..|].
  apply (bool_decide_unpack _). vm_compute. exact I.
Qed.

(** C10, amended. A function whose only resolved edge, outgoing or
    incoming, is the one to itself is a group of its own: the edge from a
    name to itself links nothing in the undirected graph, where the name
    has no neighbour. *)
Theorem self_call_forms_singleton `{IterOrder} `{PythonAst} lang code a f :
  analyze_file lang code = Done a →
  rel_of (Analysis.edges a) f f →
  (∀ c, rel_of (Analysis.edges a) f c → c = f) →
  (∀ n, rel_of (Analysis.edges a) n f → n = f) →
  {[f]} ∈ Analysis.groups a ∧
  (∀ g, g ∈ Analysis.groups a → f ∈ g → g = {[f]}) ∧
  ∃ G, build_graph (Analysis.names a) (Analysis.edges a) = Done G ∧
       G !! f = Some ∅.
Proof.
  intros Ha Hself Hout Hin.
  destruct (analyze_file_spec lang code)
    as (a' & Ha' & Hnames & _ & Hdom & He & _ & _ & G & HG & Hinv).
  rewrite Ha in Ha'. injection Ha' as <-.
  assert (f ∈ dom (raw_callees lang code)) as Hf by (by apply He in Hself as [_ ?]).
  assert (∀ G' : gmap string (gset string),
            (∀ x y, rel_of G' x y →
               x ≠ y ∧ (rel_of (Analysis.edges a) x y ∨ rel_of (Analysis.edges a) y x)) →
            (∀ y, ¬ rel_of G' f y) ∧ (∀ x, ¬ rel_of G' x f)) as Hiso.
  { intros G' HG'. split.
    - intros y (Hne & [?%Hout|?%Hin])%HG'; congruence.
    - intros x (Hne & [?%Hin|?%Hout])%HG'; congruence. }
  destruct (Hiso G) as [Hno_out Hno_in]; [intros x y; apply HG|].
  destruct (isolated_group G _ _ f Hinv Hf Hno_out Hno_in) as [? ?].
  split_and!; [done..|].
  destruct (build_graph_spec (Analysis.names a) (Analysis.edges a))
    as (G' & HG' & Hdom' & Hrel'); [by rewrite Hdom, Hnames|].
  exists G'. split; [done|].
  destruct (Hiso G') as [Hno_out' _]; [intros x y; rewrite Hrel'; tauto|].
  assert (is_Some (G' !! f)) as [s Hs].
  { apply elem_of_dom. by rewrite Hdom', Hnames. }
  rewrite Hs. f_equal. apply set_eq. intros y. split; [|set_solver].
  intros Hy. destruct (Hno_out' y). by exists s.
Qed.

Lemma self_call_forms_singleton_witness :
  ∃ a, @analyze_file canonical_order tiny_python javascript lone_recursion_js
       = Done a ∧
    Analysis.edges a
    = {[ "f" := {[ "f" ]}; "g" := ∅; "main" := {[ "g" ]} ]}%string ∧
    rel_of (Analysis.edges a) "f" "f" ∧
    (∀ c, rel_of (Analysis.edges a) "f" c → c = "f"%string) ∧
    (∀ n, rel_of (Analysis.edges a) n "f" → n = "f"%string) ∧
    {[ "f"%string ]} ∈ Analysis.groups a.
Proof.
  pose (a := {| Analysis.names := ["f"; "g"; "main"]%string;
                Analysis.edges :=
                  {[ "f" := {[ "f" ]}; "g" := ∅; "main" := {[ "g" ]} ]}%string;
                Analysis.groups := [ {[ "g"; "main" ]}; {[ "f" ]} ]%string;
                Analysis.callers :=
                  {[ "f" := {[ "f" ]}; "g" := {[ "main" ]};
                     "main" := ∅ ]}%string |}).
  assert (@analyze_file canonical_order tiny_python javascript lone_recursion_js
          = Done a) as Ha by (vm_compute; reflexivity).
  assert (Analysis.edges a !! "f"%string = Some {[ "f"%string ]}) as Hf
    by (vm_compute; reflexivity).
  assert (map_Forall (λ n s, "f"%string ∈ s → n = "f"%string)
            (Analysis.edges a)) as Hcallers.
  { apply (bool_decide_unpack _). vm_compute. exact I. }
  assert (rel_of (Analysis.edges a) "f" "f") as Hself.
  { eexists. split; [exact Hf|]. exact (proj2 (elem_of_singleton _ _) eq_refl). }
  assert (∀ c, rel_of (Analysis.edges a) "f" c → c = "f"%string) as Hout.
  { intros c (s & Hs & Hc). rewrite Hf in Hs. injection Hs as <-.
    exact (proj1 (elem_of_singleton _ _) Hc). }
  assert (∀ n, rel_of (Analysis.edges a) n "f" → n = "f"%string) as Hin.
  { intros n (s & Hs & Hc). exact (Hcallers n s Hs Hc). }
  exists a. split; [exact Ha|]. split; [reflexivity|].
  split; [exact Hself|]. split; [exact Hout|]. split; [exact Hin|].
  exact (proj1 (@self_call_forms_singleton canonical_order tiny_python
                  javascript lone_recursion_js a "f" Ha Hself Hout Hin)).
Defined.

(** ** The extractors *)

Lemma dict_iter_empty `{IterOrder} {A} : dict_iter (∅ : gmap string A) = [].
Proof.
  apply Permutation_nil_r. rewrite dict_iter_perm. by rewrite map_to_list_empty.
Qed.

(** C7. On a text that Python cannot parse the grammar-aware extractor
    returns the empty mapping, and the analysis of the file ends without
    an exception, with no function and no group. *)
Theorem unparsable_python_yields_nothing `{IterOrder} `{PythonAst} code :
  ast_parse code = None →
  parse_python_functions code = ∅ ∧
  analyze_file python code
  = Done {| Analysis.names := []; Analysis.edges := ∅;
            Analysis.groups := []; Analysis.callers := ∅ |}.
Proof.
  intros Hparse.
  assert (parse_python_functions code = ∅) as Hempty.
  { unfold parse_python_functions. by rewrite Hparse. }
  split; [done|]. unfold analyze_file, analyze_funcs.
  by rewrite Hempty, dict_iter_empty.
Qed.

Lemma unparsable_python_yields_nothing_witness :
  @ast_parse tiny_python (txt "def (") = None ∧
  @parse_python_functions tiny_python (txt "def (") = ∅ ∧
  @analyze_file canonical_order tiny_python python (txt "def (")
  = Done {| Analysis.names := []; Analysis.edges := ∅;
            Analysis.groups := []; Analysis.callers := ∅ |}.
Proof.
  split; [reflexivity|].
  apply (@unparsable_python_yields_nothing canonical_order tiny_python).
  reflexivity.
Defined.

Lemma wins_unique l jf1 jf2 :
  wins l jf1 → wins l jf2 → JsFunction.name jf1 = JsFunction.name jf2 →
  jf1 = jf2.
Proof.
  intros (a1 & b1 & -> & Hlt1 & Hle1) (a2 & b2 & Heq & Hlt2 & Hle2) Hn.
  assert (∀ (u1 v1 u2 v2 : list JsFunction.t) x y,
            u1 ++ x :: v1 = u2 ++ y :: v2 →
            (length u1 < length u2)%nat → x ∈ u2 ∧ y ∈ v1) as Hpos.
  { intros u1 v1 u2 v2 x y Hl Hlen. split.
    - apply (list_elem_of_lookup_2 _ (length u1)).
      rewrite <- (lookup_app_l u2 (y :: v2)) by done.
      rewrite <- Hl. by rewrite list_lookup_middle.
    - assert ((u1 ++ x :: v1) !! length u2 = Some y) as Hy
        by (rewrite Hl; by rewrite list_lookup_middle).
      rewrite lookup_app_r in Hy by lia.
      destruct (length u2 - length u1)%nat as [|k] eqn:Hk; [lia|].
      simpl in Hy. by eapply list_elem_of_lookup_2. }
  destruct (Nat.lt_total (length a1) (length a2)) as [Hlen|[Hlen|Hlen]].
  - destruct (Hpos _ _ _ _ _ _ Heq Hlen) as [H1 H2].
    specialize (Hlt2 jf1 H1 Hn). specialize (Hle1 jf2 H2 (eq_sym Hn)). lia.
  - assert ((a1 ++ jf1 :: b1) !! length a1 = Some jf1) as H1
      by (by rewrite list_lookup_middle).
    rewrite Heq, Hlen, list_lookup_middle in H1 by done. congruence.
  - destruct (Hpos _ _ _ _ _ _ (eq_sym Heq) Hlen) as [H1 H2].
    specialize (Hlt1 jf2 H1 (eq_sym Hn)). specialize (Hle2 jf1 H2 Hn). lia.
Qed.

(** C6. When a name is matched more than once, the mapping keeps the
    candidate whose span covers the most text (the first of them when
    several do), the span being the number of characters of the source
    text of the candidate; the candidates of the text determine which one
    that is. *)
Theorem longest_span_is_kept code name jf :
  parse_js_functions code !! name = Some jf →
  JsFunction.name jf = name ∧
  wins (js_candidates code) jf ∧
  span_len jf = Z.of_nat (length (JsFunction.src jf)) ∧
  (∀ c, c ∈ js_candidates code → JsFunction.name c = name →
     span_len c ≤ span_len jf) ∧
  (∀ jf', wins (js_candidates code) jf' → JsFunction.name jf' = name →
     jf' = jf).
Proof.
  rewrite parse_js_functions_candidates.
  intros [Hname Hw]%keep_all_spec. split_and!; [done..| | |].
  - destruct Hw as (l1 & l2 & Hl & _).
    assert (jf ∈ js_candidates code) as Hin by (rewrite Hl; set_solver).
    apply elem_of_js_candidates in Hin as ([rx kind] & m & _ & Hm & Hc).
    by destruct (candidate_span code rx m jf Hm Hc).
  - intros c Hc Hn. apply (wins_le _ _ _ Hw Hc). congruence.
  - intros jf' Hw' Hn. apply (wins_unique _ _ _ Hw' Hw). congruence.
Qed.

(** Every matched name is kept with one of its candidates. *)
Lemma matched_name_is_kept code c :
  c ∈ js_candidates code →
  is_Some (parse_js_functions code !! JsFunction.name c).
Proof. rewrite parse_js_functions_candidates. apply keep_all_spec. Qed.

Lemma longest_span_is_kept_witness :
  ∃ jf, parse_js_functions two_spans_js !! "foo"%string = Some jf ∧
        length (filter (λ c, JsFunction.name c = "foo"%string)
                  (js_candidates two_spans_js)) = 2%nat ∧
        span_len jf = 53 ∧
        ∀ c, c ∈ js_candidates two_spans_js →
             JsFunction.name c = "foo"%string → span_len c ≤ span_len jf.
Proof.
  destruct (parse_js_functions two_spans_js !! "foo"%string) as [jf|] eqn:Hjf;
    [|by vm_compute in Hjf].
  exists jf. split_and!; [done|by vm_compute| |].
  - vm_compute in Hjf. by injection Hjf as <-.
  - apply (longest_span_is_kept two_spans_js "foo" jf Hjf).
Defined.

(** C3, as stated, fails.  The call harvest leaves out six fixed tokens,
    and the control-flow keyword [catch] is not one of them: in
    [try_catch_js] the harvest keeps it as a raw callee of [f].  On this
    text it is the callee of an edge as well, because the method pattern
    takes [catch (e) {] for a function, the defect shown under C2. *)
Lemma catch_becomes_a_callee :
  "catch"%string ∈ control_flow_keywords ∧
  JsFunction.calls <$> parse_js_functions try_catch_js !! "f"%string
  = Some {[ "g"; "catch"; "h" ]}%string ∧
  ∃ a, @analyze_file canonical_order tiny_python javascript try_catch_js = Done a ∧
       rel_of (Analysis.edges a) "f" "catch" ∧
       rel_of (Analysis.callers a) "catch" "f" ∧
       ¬ no_callee_among control_flow_keywords a.
Proof.
  split; [by vm_compute|]. split; [by vm_compute|].
  destruct (@analyze_file_spec canonical_order tiny_python javascript try_catch_js)
    as (a & Ha & _).
  assert (Analysis.edges a !! "f"%string = Some {[ "catch"%string ]}) as He.
  { revert Ha. vm_compute. by intros [= <-]. }
  assert (Analysis.callers a !! "catch"%string = Some {[ "f"%string ]}) as Hc.
  { revert Ha. vm_compute. by intros [= <-]. }
  assert (rel_of (Analysis.edges a) "f" "catch") as Hedge.
  { eexists. split; [done|]. by apply elem_of_singleton. }
  exists a. split_and!; [done..| |].
  - eexists. split; [done|]. by apply elem_of_singleton.
  - intros Hno. destruct (Hno "catch"%string) as [Hno_edge _]; [by vm_compute|].
    by apply (Hno_edge "f"%string).
Qed.

(** C3, amended. The call harvest leaves out six fixed tokens, [if],
    [for], [while], [switch], [return] and [function], and no edge has
    one of them as its callee; this holds in the callees and in the
    callers map. *)
Theorem skipped_tokens_are_never_callees `{IterOrder} `{PythonAst} code :
  ∃ a, analyze_file javascript code = Done a ∧ no_callee_among call_skip a.
Proof.
  destruct (analyze_file_spec javascript code)
    as (a & Ha & _ & _ & _ & He & Hc & _).
  exists a. split; [done|]. intros kw Hkw.
  assert (∀ n, ¬ rel_of (Analysis.edges a) n kw) as Hno.
  { intros n [Hraw _]%He. unfold raw_callees in Hraw.
    apply (rel_of_fmap JsFunction.calls) in Hraw as (jf & Hjf & Hin).
    by apply (parse_js_functions_calls code n jf kw Hjf Hkw). }
  split; [done|]. intros n Hn%Hc. by apply (Hno n).
Qed.

(** C2. The code does not do what the claim says: the names of the matches
    are not checked against any list, and on [if_block_js] the method
    pattern makes [if] the name of a function. *)
Theorem keyword_is_extracted_as_function :
  "if"%string ∈ control_flow_keywords ∧
  JsFunction.src <$> parse_js_functions if_block_js !! "if"%string
  = Some (txt "if (x) { a = {}").
Proof. split; by vm_compute. Qed.

(** C5. The span locator does find the matching brace (the brace opened at
    index 4 is closed at index 22), but the extractor does not start it at
    the brace of the match: for a pattern that ends with the brace it
    looks for the next one, finds the brace inside the first string, and
    the span of [f] ends at index 17, the brace inside the second
    string. *)
Theorem span_ends_at_brace_inside_string :
  quoted_braces_js !! 4%nat = Some lbrace ∧
  matching_brace quoted_braces_js 4 22 ∧
  _brace_span quoted_braces_js 4 = 22 ∧
  quoted_braces_js !! 17%nat = Some rbrace ∧
  JsFunction.end_idx <$> parse_js_functions quoted_braces_js !! "f"%string
  = Some 18 ∧
  JsFunction.src <$> parse_js_functions quoted_braces_js !! "f"%string
  = Some (txt "f() { g('{'); h('}").
Proof.
  split_and!; [done| |by vm_compute..].
  by apply brace_span_sound.
Qed.

(** The contract of the span locator: started at an opening brace, it
    returns the index of the matching closing brace, where the braces
    inside quoted strings do not count and a backslash escapes the next
    character of a string, and the sentinel exactly when the brace has no
    match. *)
Lemma brace_span_contract code i :
  code !! i = Some lbrace →
  (∀ j : nat, _brace_span code i = Z.of_nat j ↔ matching_brace code i j) ∧
  (_brace_span code i = -1 ↔ ¬ ∃ j, matching_brace code i j) ∧
  (_brace_span code i = -1 ∨ ∃ j : nat, _brace_span code i = Z.of_nat j).
Proof.
  intros Hi.
  assert (∀ j : nat, _brace_span code i = Z.of_nat j ↔ matching_brace code i j)
    as Hiff.
  { intros j. split; [by apply brace_span_sound|apply brace_span_complete]. }
  pose proof (scan_range (drop i code) i 0 None false) as Hcases.
  fold (_brace_span code i) in Hcases.
  split_and!; [done| |done]. split.
  - intros Hm [j Hj%Hiff]. lia.
  - intros Hno. destruct Hcases as [?|[j Hj]]; [done|].
    destruct Hno. exists j. by apply Hiff.
Qed.

(** The brace of a string does not close the block, an escaped quote does
    not close the string. *)
Example brace_span_contract_example :
  let code := txt "{ a = '\'}'; { } }" in
  code !! 0%nat = Some lbrace ∧ matching_brace code 0 17 ∧
  _brace_span (txt "{ a = '}") 0 = -1.
Proof.
  simpl. split; [done|]. split; [|by vm_compute].
  by apply (brace_span_contract _ 0%nat).
Defined.

(** ** Further facts about the grouping engine *)

Lemma foldlM_no_fuel {A B} (f : A → B → outcome A) l : ∀ a,
  (∀ a x, f a x ≠ OutOfFuel) → foldlM f a l ≠ OutOfFuel.
Proof.
  induction l as [|x l IH]; intros a Hf; simpl; [done|].
  pose proof (Hf a x) as Hx. destruct (f a x); simpl; [by apply IH|done..].
Qed.

Lemma set_add_no_fuel d k v : set_add d k v ≠ OutOfFuel.
Proof. unfold set_add. by destruct (d !! k). Qed.

(** The grouping engine returns or raises on every input: the fuel of the
    model never runs out. *)
Lemma build_groups_terminates `{IterOrder} names
    (E : gmap string (gset string)) :
  build_groups names E ≠ OutOfFuel.
Proof.
  assert (∀ G seen_groups n, next_group G seen_groups n ≠ OutOfFuel) as Hnext.
  { intros G [seen gs] n. unfold next_group. case_bool_decide; [done|].
    pose proof (component_fuel_enough G (component_fuel G) [n] seen ∅) as Hc.
    destruct (component (component_fuel G) G [n] seen ∅); simpl; [done..|].
    exfalso. apply Hc; [|done]. unfold component_fuel. simpl.
    assert (dom G ∖ seen ⊆ dom G) as Hsub by set_solver.
    apply (degree_sum_mono G) in Hsub. lia. }
  assert (∀ a d b, link a d b ≠ OutOfFuel) as Hlink.
  { intros a d b. unfold link. destruct (_ && _); [|done].
    pose proof (set_add_no_fuel d a b) as Ha.
    destruct (set_add d a b); simpl; [apply set_add_no_fuel|done..]. }
  unfold build_groups.
  pose proof (foldlM_no_fuel
    (λ graph a_neigh, foldlM (link a_neigh.1) graph (set_iter a_neigh.2))
    (dict_iter E) (empty_sets names)) as HG.
  fold (build_graph names E) in HG.
  destruct (build_graph names E) as [G| |]; simpl; [|done|].
  - pose proof (foldlM_no_fuel (next_group G) names (∅, []) (Hnext G)) as Hloop.
    by destruct (foldlM (next_group G) (∅, []) names) as [[seen gs]| |].
  - exfalso. apply HG; [|done]. intros d a_neigh. by apply foldlM_no_fuel.
Qed.

(** When every key of [edges] is one of [names], as in [analyze_file], the
    engine returns a partition of the names into connected groups. *)
Lemma build_groups_partition `{IterOrder} names
    (E : gmap string (gset string)) :
  dom E ⊆ list_to_set names →
  ∃ gs, build_groups names E = Done gs ∧
        is_partition gs (list_to_set names) ∧ groups_ordered gs.
Proof.
  intros Hkeys.
  destruct (build_groups_spec names E Hkeys) as (G & gs & _ & Hgs & Hinv & Hs).
  exists gs. split_and!; [done| |].
  - by eapply groups_inv_partition.
  - by eapply groups_ordered_of_sorted.
Qed.

(** A chain [a], [b], [c] is one group, whatever the direction of the
    calls; a key of [edges] that is no name makes the engine raise. *)
Example build_groups_chain :
  @build_groups canonical_order ["a"; "b"; "c"; "d"]%string
    {[ "a" := {[ "b" ]}; "c" := {[ "b" ]}; "d" := {[ "d"; "zz" ]} ]}%string
  = Done [ {[ "a"; "b"; "c" ]}; {[ "d" ]} ]%string
  ∧ @build_groups canonical_order ["a"]%string {[ "b" := {[ "a" ]} ]}%string
    = KeyError "b".
Proof. split; by vm_compute. Qed.

(** A run that iterates in the reverse order builds the same groups. *)
Example build_groups_reverse_order :
  @build_groups reverse_order ["a"; "b"; "c"; "d"]%string
    {[ "a" := {[ "b" ]}; "c" := {[ "b" ]}; "d" := {[ "d"; "zz" ]} ]}%string
  = Done [ {[ "a"; "b"; "c" ]}; {[ "d" ]} ]%string.
Proof. by vm_compute. Qed.

(** The grammar-aware extractor on [nested_defs_tree]: the later
    definition of [a] gives the record its lines, the calls of both
    definitions of [a] are united, and the calls of a nested function
    count for the function around it. *)
Example parse_python_functions_nested :
  let funcs := @parse_python_functions (parsed_as nested_defs_tree) [] in
  let view (f : PyFunction.t) :=
    (PyFunction.start f, PyFunction.end_ f, PyFunction.calls f) in
  dom funcs = {[ "a"; "b"; "c" ]}%string ∧
  view <$> funcs !! "a"%string = Some (7, 8, {[ "b"; "c" ]})%string%nat ∧
  view <$> funcs !! "b"%string = Some (4, 5, ∅)%nat ∧
  view <$> funcs !! "c"%string = Some (6, 8, {[ "c" ]})%string%nat.
Proof. by vm_compute. Qed.

Lemma rtc_symmetric_of {A} (R : relation A) :
  (∀ x y, R x y → R y x) → ∀ x y, rtc R x y → rtc R y x.
Proof.
  intros Hsym x y Hxy. induction Hxy as [|x z y Hxz _ IH]; [done|].
  etrans; [exact IH|]. apply rtc_once. by apply Hsym.
Qed.

(** The groups are the connected components: the group of a name holds
    exactly the names that a chain of links reaches from it. *)
Lemma group_iff_connected G s gs g x y :
  (∀ x y, rel_of G x y → rel_of G y x) →
  groups_inv G s gs → g ∈ gs → x ∈ g →
  y ∈ g ↔ rtc (rel_of G) x y.
Proof.
  intros Hsym (_ & _ & _ & _ & Hconn & Hcl) Hg Hx. split.
  - intros Hy. destruct (Hconn g Hg) as (n & _ & Hreach).
    assert (rtc (rel_of G) x n) as Hxn
      by (apply (rtc_symmetric_of _ Hsym); auto).
    etrans; [done|auto].
  - intros Hxy. induction Hxy as [|x z y Hxz _ IH]; [done|].
    apply IH. by apply (Hcl g x z).
Qed.

(** The groups of a file are the connected components of its call graph
    taken without direction: two functions are in the same group exactly
    when a chain of calls, followed in either direction, leads from one
    to the other. *)
Lemma groups_are_components `{IterOrder} `{PythonAst} lang code :
  ∃ a, analyze_file lang code = Done a ∧
    ∀ g x y, g ∈ Analysis.groups a → x ∈ g →
      y ∈ g ↔ rtc (linked (Analysis.edges a)) x y.
Proof.
  destruct (analyze_file_spec lang code)
    as (a & Ha & _ & _ & _ & _ & _ & _ & G & HG & Hinv).
  exists a. split; [done|]. intros g x y Hg Hx.
  assert (∀ u v, rel_of G u v → rel_of G v u) as Hsym.
  { intros u v. rewrite !HG. naive_solver. }
  rewrite (group_iff_connected G _ _ g x y Hsym Hinv Hg Hx).
  split; apply rtc_subrel; intros u v; apply HG.
Qed.

(** * Further properties *)

(** * More properties of the program *)

(** ** Searching a text *)

Lemma find_char_spec ch s : ∀ i j,
  find_char ch s i = Z.of_nat j →
  (i ≤ j)%nat ∧ s !! (j - i)%nat = Some ch ∧
  ∀ k, (k < j - i)%nat → s !! k ≠ Some ch.
Proof.
  induction s as [|c s IH]; intros i j; simpl; [lia|].
  case_bool_decide as Hc.
  - intros Hj. assert (j = i) as -> by lia. rewrite Nat.sub_diag.
    split_and!; [lia|by subst|lia].
  - intros (Hle & Hj & Hmin)%IH.
    replace (j - i)%nat with (S (j - S i)) by lia. split_and!; [lia|done|].
    intros [|k] Hk; simpl; [congruence|]. apply Hmin. lia.
Qed.

Lemma find_char_none ch s i : find_char ch s i = -1 ↔ ch ∉ s.
Proof.
  revert i. induction s as [|c s IH]; intros i; simpl.
  { split; [by intros _ ?%elem_of_nil|done]. }
  case_bool_decide as Hc.
  - split; [lia|]. intros []. subst. by left.
  - rewrite IH, not_elem_of_cons. naive_solver.
Qed.

(** [code.find(ch, start)] returns the first index at or after [start]
    that holds [ch]. *)
Lemma str_find_spec code ch start b :
  str_find code ch start = Z.of_nat b →
  (start ≤ b < length code)%nat ∧ code !! b = Some ch ∧
  ∀ k, (start ≤ k < b)%nat → code !! k ≠ Some ch.
Proof.
  intros Hf. pose proof (str_find_range _ _ _ _ Hf) as Hr.
  unfold str_find in Hf. apply find_char_spec in Hf as (Hle & Hb & Hmin).
  rewrite lookup_drop in Hb. replace (start + (b - start))%nat with b in Hb by lia.
  split_and!; [lia..|done|]. intros k Hk.
  specialize (Hmin (k - start)%nat). rewrite lookup_drop in Hmin.
  replace (start + (k - start))%nat with k in Hmin by lia. apply Hmin. lia.
Qed.

(** The index that the scanner returns holds a closing brace. *)
Lemma scan_hits_rbrace s : ∀ i depth in_str esc j,
  scan s i depth in_str esc = Z.of_nat j → s !! (j - i)%nat = Some rbrace.
Proof.
  induction s as [|ch s IH]; intros i depth in_str esc j; simpl; [lia|].
  assert (∀ d st e, scan s (S i) d st e = Z.of_nat j →
            (ch :: s) !! (j - i)%nat = Some rbrace) as Hstep.
  { intros d st e Hs. pose proof (scan_index_range _ _ _ _ _ _ Hs).
    apply IH in Hs. by replace (j - i)%nat with (S (j - S i)) by lia. }
  destruct in_str as [q|].
  - destruct esc; [apply Hstep|]. repeat case_bool_decide; apply Hstep.
  - destruct (is_quote ch); [apply Hstep|].
    repeat case_bool_decide; try apply Hstep.
    intros Hj. assert (j = i) as -> by lia. rewrite Nat.sub_diag. by subst.
Qed.

Lemma brace_span_hits_rbrace code i j :
  _brace_span code i = Z.of_nat j → code !! j = Some rbrace.
Proof.
  intros Hs. pose proof (brace_span_range _ _ _ Hs).
  unfold _brace_span in Hs. apply scan_hits_rbrace in Hs.
  rewrite lookup_drop in Hs. by replace (i + (j - i))%nat with j in Hs by lia.
Qed.

(** ** Lines *)

Lemma newlines_app l1 l2 : newlines (l1 ++ l2) = (newlines l1 + newlines l2)%nat.
Proof. unfold newlines. by rewrite filter_app, length_app. Qed.

Lemma line_no_slice code a b :
  (a ≤ b)%nat →
  _line_no code b = _line_no code a + Z.of_nat (newlines (slice code a b)).
Proof.
  intros Hab. unfold _line_no, slice. fold (newlines (take b code)).
  fold (newlines (take a code)).
  rewrite <- (take_drop a (take b code)) at 1.
  rewrite newlines_app, take_take. replace (a `min` b)%nat with a by lia. lia.
Qed.

(** ** Matches of a pattern *)

(** Every match of [finditer] is a match of the pattern at its start. *)
Lemma finditer_from_match p : ∀ s prev pos skip m,
  m ∈ Re.finditer_from p prev s pos skip →
  ∃ prev' k, m_start m = (pos + k)%nat ∧
    match_at p prev' (drop k s) (pos + k) (0, 0)%nat
    = Some (m_end m, (g_start m, g_end m)).
Proof.
  induction s as [|c s IH]; intros prev pos skip m; simpl.
  - destruct skip; [|by intros ?%elem_of_nil].
    destruct (match_at p prev [] pos (0, 0)%nat) as [[e g]|] eqn:Hm;
      [|by intros ?%elem_of_nil].
    intros ->%list_elem_of_singleton. exists prev, 0%nat. simpl.
    rewrite Nat.add_0_r. split; [done|]. rewrite Hm. by destruct g.
  - assert (∀ prev1 skip1, m ∈ Re.finditer_from p prev1 s (S pos) skip1 →
       ∃ prev' k, m_start m = (pos + k)%nat ∧
         match_at p prev' (drop k (c :: s)) (pos + k) (0, 0)%nat
         = Some (m_end m, (g_start m, g_end m))) as Hnext.
    { intros prev1 skip1 (prev' & k & Hs & Hm)%IH. exists prev', (S k). simpl.
      replace (pos + S k)%nat with (S pos + k)%nat by lia. done. }
    destruct skip; [|apply Hnext].
    destruct (match_at p prev (c :: s) pos (0, 0)%nat) as [[e g]|] eqn:Hm;
      [|apply Hnext].
    intros [->|?]%elem_of_cons; [|by eapply Hnext].
    exists prev, 0%nat. simpl. rewrite Nat.add_0_r. split; [done|].
    rewrite Hm. by destruct g.
Qed.

Lemma finditer_match p code m :
  m ∈ finditer p code →
  ∃ prev, match_at p prev (drop (m_start m) code) (m_start m) (0, 0)%nat
          = Some (m_end m, (g_start m, g_end m)).
Proof.
  intros (prev & k & Hs & Hm)%finditer_from_match. simpl in *. subst.
  by exists prev.
Qed.

Lemma give_back_bounds {A} (f : nat → option A) lo k r :
  Re.give_back f lo k = Some r → ∃ k', (lo ≤ k' ≤ k)%nat ∧ f k' = Some r.
Proof.
  induction k as [|k IH]; simpl; case_bool_decide as Hlo; try done.
  - destruct (f 0%nat) eqn:Hf; [|done]. intros [= ->]. exists 0%nat.
    split; [lia|done].
  - destruct (f (S k)) eqn:Hf.
    + intros [= ->]. exists (S k). split; [lia|done].
    + intros (k' & ? & ?)%IH. exists k'. split; [lia|done].
Qed.

Lemma run_take cls s k :
  (k ≤ Re.run cls s)%nat →
  length (take k s) = k ∧ Forall (λ c, Is_true (cls c)) (take k s).
Proof.
  revert k. induction s as [|c s IH]; intros [|k] Hk; simpl in *;
    try (split; [done|constructor]); try lia.
  destruct (cls c) eqn:Hc; [|lia].
  destruct (IH k) as [Hlen Hall]; [lia|]. split; [by rewrite Hlen|].
  constructor; [by rewrite Hc|done].
Qed.

(** A pattern without group parentheses leaves the span of the group as
    it was. *)
Lemma match_at_no_marks p : no_marks p → ∀ prev s pos g e g',
  match_at p prev s pos g = Some (e, g') → g' = g.
Proof.
  induction 1 as [|a p [Ho Hc] _ IH]; intros prev s pos g e g'; simpl.
  { by intros [= _ ->]. }
  destruct a as [w|ws|cls|cls lo| | |]; try done.
  - destruct (Re.starts_with w s); [apply IH|done].
  - intros [w Hw]%first_of_Some.
    destruct (Re.starts_with w s); [by apply IH in Hw|done].
  - destruct s as [|c s]; [done|]. destruct (cls c); [apply IH|done].
  - intros [k Hk]%give_back_Some. by apply IH in Hk.
  - destruct (xorb _ _); [apply IH|done].
Qed.

(** The rest of a pattern is matched somewhere further in the text. *)
Lemma match_at_split pre rest : no_marks pre → ∀ prev s pos g r,
  match_at (pre ++ rest) prev s pos g = Some r →
  ∃ prev' k, match_at rest prev' (drop k s) (pos + k) g = Some r.
Proof.
  induction 1 as [|a p [Ho Hc] _ IH]; intros prev s pos g r; simpl.
  { intros Hr. exists prev, 0%nat. by rewrite Nat.add_0_r. }
  assert (∀ prev1 n, match_at (p ++ rest) prev1 (drop n s) (pos + n) g = Some r →
    ∃ prev' k, match_at rest prev' (drop k s) (pos + k) g = Some r) as Hnext.
  { intros prev1 n (prev' & k & Hm)%IH. exists prev', (n + k)%nat.
    rewrite drop_drop in Hm. by rewrite Nat.add_assoc. }
  destruct a as [w|ws|cls|cls lo| | |]; try done.
  - destruct (Re.starts_with w s); [apply Hnext|done].
  - intros [w Hw]%first_of_Some.
    destruct (Re.starts_with w s); [by apply Hnext in Hw|done].
  - destruct s as [|c s]; [done|]. destruct (cls c); [|done].
    replace (S pos) with (pos + 1)%nat by lia. apply (Hnext _ 1%nat).
  - intros [k Hk]%give_back_Some. by apply Hnext in Hk.
  - destruct (xorb _ _); [|done]. intros Hm.
    apply (Hnext prev 0%nat). by rewrite Nat.add_0_r.
Qed.

(** The span of a group that is one greedy repetition of a class. *)
Lemma match_at_group_many pre cls lo post prev s pos g e gs ge :
  no_marks pre → no_marks post →
  match_at (pre ++ GroupOpen :: Many cls lo :: GroupClose :: post)
    prev s pos g = Some (e, (gs, ge)) →
  ∃ k n, gs = (pos + k)%nat ∧ ge = (gs + n)%nat ∧
         (lo ≤ n ≤ Re.run cls (drop k s))%nat.
Proof.
  intros Hpre Hpost (prev' & k & Hm)%match_at_split; [|done].
  simpl in Hm. apply give_back_bounds in Hm as (n & Hn & Hm).
  apply match_at_no_marks in Hm; [|done]. simpl in Hm.
  injection Hm as -> ->. by exists k, n.
Qed.

(** The span of a group that is one character of a class followed by a
    greedy repetition of another. *)
Lemma match_at_group_one_many pre c1 c2 lo post prev s pos g e gs ge :
  no_marks pre → no_marks post →
  match_at (pre ++ GroupOpen :: One c1 :: Many c2 lo :: GroupClose :: post)
    prev s pos g = Some (e, (gs, ge)) →
  ∃ k c s' n, gs = (pos + k)%nat ∧ drop k s = c :: s' ∧ Is_true (c1 c) ∧
              ge = (gs + 1 + n)%nat ∧ (n ≤ Re.run c2 s')%nat.
Proof.
  intros Hpre Hpost (prev' & k & Hm)%match_at_split; [|done].
  simpl in Hm. destruct (drop k s) as [|c s'] eqn:Hs; [done|].
  destruct (c1 c) eqn:Hc; [|done].
  apply give_back_bounds in Hm as (n & Hn & Hm).
  apply match_at_no_marks in Hm; [|done]. simpl in Hm.
  injection Hm as -> ->. exists k, c, s', n.
  split_and!; [done..|by rewrite Hc|lia|lia].
Qed.

Lemma slice_take_drop code a n : slice code a (a + n) = take n (drop a code).
Proof. unfold slice. by rewrite take_drop_commute. Qed.

Ltac solve_no_marks := repeat constructor; done.

(** The name of a match of one of the four function patterns is made of
    the characters of the class of its group. *)
Lemma function_pattern_group rx_kind code m :
  rx_kind ∈ JS_FUNC_PATTERNS → m ∈ finditer rx_kind.1 code →
  group1 code m ≠ [] ∧ Forall (λ c, Is_true (ident_char c)) (group1 code m).
Proof.
  intros Hrx [prev Hm]%finditer_match.
  assert (∃ pre post, no_marks pre ∧ no_marks post ∧
    rx_kind.1 = pre ++ GroupOpen :: Many ident_char 1 :: GroupClose :: post)
    as (pre & post & Hpre & Hpost & Heq).
  { unfold JS_FUNC_PATTERNS in Hrx.
    repeat (apply elem_of_cons in Hrx as [->|Hrx]);
      [..|by apply elem_of_nil in Hrx]; simpl.
    - exists [WordBoundary; Lit (txt "function"); Many space 1],
        [Many space 0; Lit (txt "(")].
      split_and!; [solve_no_marks..|done].
    - exists [WordBoundary; Alt [txt "const"; txt "let"; txt "var"]; Many space 1],
        [Many space 0; Lit (txt "="); Many space 0; Lit (txt "(");
         Many not_rparen 0; Lit (txt ")"); Many space 0; Lit (txt "=>");
         Many space 0; Lit (txt "{")].
      split_and!; [solve_no_marks..|done].
    - exists [WordBoundary; Alt [txt "const"; txt "let"; txt "var"]; Many space 1],
        [Many space 0; Lit (txt "="); Many space 0; Lit (txt "function");
         Many space 0; Lit (txt "(")].
      split_and!; [solve_no_marks..|done].
    - exists [WordBoundary],
        [Many space 0; Lit (txt "("); Many not_rparen 0; Lit (txt ")");
         Many space 0; Lit (txt "{")].
      split_and!; [solve_no_marks..|done]. }
  rewrite Heq in Hm.
  apply match_at_group_many in Hm as (k & n & Hgs & Hge & Hn); [|done..].
  unfold group1. rewrite Hge, slice_take_drop, Hgs, <- drop_drop.
  destruct (run_take ident_char (drop k (drop (m_start m) code)) n) as [Hlen Hall];
    [lia|].
  split; [|done]. intros Hnil. rewrite Hnil in Hlen. simpl in Hlen. lia.
Qed.

(** The name of a match of the call pattern is an identifier. *)
Lemma call_pattern_group body m :
  m ∈ finditer JS_CALL_RE body →
  ∃ c rest, group1 body m = c :: rest ∧ Is_true (ident_start c) ∧
            Forall (λ c, Is_true (ident_char c)) rest.
Proof.
  intros [prev Hm]%finditer_match.
  change JS_CALL_RE with
    ([WordBoundary] ++ GroupOpen :: One ident_start :: Many ident_char 0
       :: GroupClose :: [Many space 0; Lit (txt "(")]) in Hm.
  apply match_at_group_one_many in Hm as (k & c & s' & n & Hgs & Hs & Hc & Hge & Hn);
    [|solve_no_marks..].
  unfold group1.
  replace (g_end m) with (g_start m + S n)%nat by lia.
  rewrite slice_take_drop, Hgs, <- drop_drop, Hs. simpl.
  destruct (run_take ident_char s' n Hn) as [_ Hall]. by exists c, (take n s').
Qed.

(** ** The records of the heuristic extractor *)

(** What the loop body of [parse_js_functions] builds from a match: the
    first opening brace at or after the end of the match, the brace that
    the span locator returns for it, and the record cut out of the text. *)
Lemma candidate_facts rx code m jf :
  m ∈ finditer rx code → candidate code m = Some jf →
  ∃ b j : nat,
    str_find code lbrace (m_end m) = Z.of_nat b ∧
    _brace_span code b = Z.of_nat j ∧
    (m_start m ≤ m_end m ≤ b)%nat ∧ (b ≤ j < length code)%nat ∧
    jf = {| JsFunction.name := string_of_list_ascii (group1 code m);
            JsFunction.start_idx := Z.of_nat (m_start m);
            JsFunction.end_idx := Z.of_nat j + 1;
            JsFunction.start_line := _line_no code (m_start m);
            JsFunction.end_line := _line_no code (S j);
            JsFunction.src := slice code (m_start m) (S j);
            JsFunction.calls := harvest_calls (slice code b (S j)) |}.
Proof.
  intros Hm%finditer_from_start_le_end. unfold candidate.
  case_bool_decide; [done|].
  destruct (find_char_cases lbrace (drop (m_end m) code) (m_end m))
    as [Hf|[b Hf]]; fold (str_find code lbrace (m_end m)) in Hf; rewrite Hf.
  { by rewrite bool_decide_true. }
  rewrite bool_decide_false by lia. rewrite Nat2Z.id.
  destruct (scan_range (drop b code) b 0 None false) as [Hs|[j Hs]];
    fold (_brace_span code b) in Hs; rewrite Hs.
  { by rewrite bool_decide_true. }
  rewrite bool_decide_false by lia.
  replace (Z.to_nat (Z.of_nat j + 1)) with (S j) by lia.
  intros [= <-]. exists b, j.
  pose proof (str_find_range _ _ _ _ Hf). pose proof (brace_span_range _ _ _ Hs).
  split_and!; [done|done|lia..|done].
Qed.

Lemma kept_record_facts code name jf :
  parse_js_functions code !! name = Some jf →
  ∃ rx_kind m, rx_kind ∈ JS_FUNC_PATTERNS ∧ m ∈ finditer rx_kind.1 code ∧
    candidate code m = Some jf ∧ JsFunction.name jf = name.
Proof.
  rewrite parse_js_functions_candidates.
  intros [Hname (l1 & l2 & Hl & _)]%keep_all_spec.
  assert (jf ∈ js_candidates code) as Hin by (rewrite Hl; set_solver).
  apply elem_of_js_candidates in Hin as (rx_kind & m & ? & ? & ?).
  by exists rx_kind, m.
Qed.

Lemma last_slice code a j :
  (a ≤ j < length code)%nat → last (slice code a (S j)) = code !! j.
Proof.
  intros Hj. unfold slice. rewrite last_lookup, length_drop, length_take.
  rewrite lookup_drop, lookup_take_lt by lia. f_equal. lia.
Qed.

(** Every record of the mapping is a stretch of the text: its indices are
    in range and in order, its source text is the text between them and
    ends with a closing brace, its first line is one more than the
    newlines before it, and its last line lies as many lines further as
    its source text has newlines. *)
Theorem js_record_is_a_stretch_of_the_text code name jf :
  parse_js_functions code !! name = Some jf →
  0 ≤ JsFunction.start_idx jf < JsFunction.end_idx jf ∧
  JsFunction.end_idx jf ≤ Z.of_nat (length code) ∧
  JsFunction.src jf
  = slice code (Z.to_nat (JsFunction.start_idx jf))
      (Z.to_nat (JsFunction.end_idx jf)) ∧
  last (JsFunction.src jf) = Some rbrace ∧
  JsFunction.start_line jf
  = 1 + Z.of_nat (newlines (take (Z.to_nat (JsFunction.start_idx jf)) code)) ∧
  JsFunction.end_line jf
  = JsFunction.start_line jf + Z.of_nat (newlines (JsFunction.src jf)).
Proof.
  intros (rx_kind & m & _ & Hm & Hc & _)%kept_record_facts.
  destruct (candidate_facts _ _ _ _ Hm Hc) as (b & j & Hb & Hj & ? & ? & ->).
  simpl. rewrite Nat2Z.id.
  replace (Z.to_nat (Z.of_nat j + 1)) with (S j) by lia.
  split_and!; [lia..|done| | |].
  - rewrite last_slice by lia. by eapply brace_span_hits_rbrace.
  - unfold _line_no, newlines. lia.
  - apply line_no_slice. lia.
Qed.

Lemma js_record_is_a_stretch_of_the_text_witness :
  ∃ jf, parse_js_functions two_spans_js !! "foo"%string = Some jf ∧
        JsFunction.end_idx jf ≤ Z.of_nat (length two_spans_js) ∧
        last (JsFunction.src jf) = Some rbrace.
Proof.
  destruct (parse_js_functions two_spans_js !! "foo"%string) as [jf|] eqn:Hjf;
    [|by vm_compute in Hjf].
  exists jf. split; [reflexivity|].
  destruct (js_record_is_a_stretch_of_the_text two_spans_js "foo" jf Hjf)
    as (_ & Hend & _ & Hlast & _).
  exact (conj Hend Hlast).
Defined.

(** The span of every record starts where one of the four patterns
    matches, and ends at the brace that matches the first opening brace
    found at or after the end of that match; the raw callees are the
    ones harvested between these two braces. *)
Theorem js_record_ends_at_matching_brace code name jf :
  parse_js_functions code !! name = Some jf →
  ∃ rx_kind m b,
    rx_kind ∈ JS_FUNC_PATTERNS ∧ m ∈ finditer rx_kind.1 code ∧
    JsFunction.start_idx jf = Z.of_nat (m_start m) ∧
    name = string_of_list_ascii (group1 code m) ∧
    (m_end m ≤ b)%nat ∧ code !! b = Some lbrace ∧
    (∀ k, (m_end m ≤ k < b)%nat → code !! k ≠ Some lbrace) ∧
    matching_brace code b (Z.to_nat (JsFunction.end_idx jf - 1)) ∧
    JsFunction.calls jf
    = harvest_calls (slice code b (Z.to_nat (JsFunction.end_idx jf))).
Proof.
  intros (rx_kind & m & Hrx & Hm & Hc & Hname)%kept_record_facts.
  destruct (candidate_facts _ _ _ _ Hm Hc) as (b & j & Hb & Hj & ? & ? & ->).
  simpl in *. apply str_find_spec in Hb as (Hbr & Hbrace & Hfirst).
  exists rx_kind, m, b.
  replace (Z.to_nat (Z.of_nat j + 1 - 1)) with j by lia.
  replace (Z.to_nat (Z.of_nat j + 1)) with (S j) by lia.
  split_and!; [done..|lia|done|done| |done].
  by apply brace_span_sound.
Qed.

Lemma js_record_ends_at_matching_brace_witness :
  ∃ jf b, parse_js_functions quoted_braces_js !! "f"%string = Some jf ∧
          quoted_braces_js !! b = Some lbrace ∧
          matching_brace quoted_braces_js b
            (Z.to_nat (JsFunction.end_idx jf - 1)).
Proof.
  destruct (parse_js_functions quoted_braces_js !! "f"%string) as [jf|] eqn:Hjf;
    [|by vm_compute in Hjf].
  destruct (js_record_ends_at_matching_brace quoted_braces_js "f" jf Hjf)
    as (rx_kind & m & b & _ & _ & _ & _ & _ & Hb & _ & Hmatch & _).
  exists jf, b. split; [reflexivity|]. exact (conj Hb Hmatch).
Defined.

(** Every name of the mapping is a non-empty word of letters, digits and
    underscores. *)
Theorem js_names_are_words code name jf :
  parse_js_functions code !! name = Some jf → is_word_name name.
Proof.
  intros (rx_kind & m & Hrx & Hm & Hc & Hname)%kept_record_facts.
  destruct (candidate_facts _ _ _ _ Hm Hc) as (b & j & _ & _ & _ & _ & ->).
  simpl in Hname. subst name.
  destruct (function_pattern_group rx_kind code m Hrx Hm) as [Hne Hall].
  split.
  - intros Heq. apply Hne.
    by rewrite <- (list_ascii_of_string_of_list_ascii (group1 code m)), Heq.
  - by rewrite list_ascii_of_string_of_list_ascii.
Qed.

Lemma js_names_are_words_witness :
  ∃ jf, parse_js_functions two_spans_js !! "foo"%string = Some jf ∧
        is_word_name "foo".
Proof.
  destruct (parse_js_functions two_spans_js !! "foo"%string) as [jf|] eqn:Hjf;
    [|by vm_compute in Hjf].
  exists jf. split; [reflexivity|].
  exact (js_names_are_words two_spans_js "foo" jf Hjf).
Defined.

Lemma elem_of_harvest_calls body callee :
  callee ∈ harvest_calls body →
  (callee ∉ call_skip) ∧
  ∃ cm, cm ∈ finditer JS_CALL_RE body ∧
        callee = string_of_list_ascii (group1 body cm).
Proof.
  unfold harvest_calls. generalize (finditer JS_CALL_RE body). intros l.
  assert (∀ calls : gset string,
    callee ∈ foldl (λ calls cm,
      let callee := string_of_list_ascii (group1 body cm) in
      if bool_decide (callee ∈ call_skip) then calls else calls ∪ {[callee]})
      calls l →
    callee ∈ calls ∨
    ((callee ∉ call_skip) ∧
     ∃ cm, cm ∈ l ∧ callee = string_of_list_ascii (group1 body cm))) as Hgen.
  { induction l as [|cm l IH]; intros calls; simpl; [by left|].
    intros [Hin|(Hskip & cm' & Hcm' & Heq)]%IH.
    - case_bool_decide as Hk; [by left|].
      apply elem_of_union in Hin as [?|Heq%elem_of_singleton]; [by left|].
      right. split; [by rewrite Heq|]. exists cm. split; [by left|done].
    - right. split; [done|]. exists cm'. split; [by right|done]. }
  intros [Hin|?]%Hgen; [|done]. by apply not_elem_of_empty in Hin.
Qed.

(** Every raw callee of a record is an identifier, and none of the six
    tokens that the harvest leaves out. *)
Theorem js_callees_are_identifiers code name jf callee :
  parse_js_functions code !! name = Some jf →
  callee ∈ JsFunction.calls jf →
  is_identifier callee ∧ (callee ∉ call_skip).
Proof.
  intros (rx_kind & m & Hrx & Hm & Hc & Hname)%kept_record_facts.
  destruct (candidate_facts _ _ _ _ Hm Hc) as (b & j & _ & _ & _ & _ & ->).
  simpl. intros (Hskip & cm & Hcm & ->)%elem_of_harvest_calls.
  split; [|done].
  destruct (call_pattern_group _ cm Hcm) as (c & rest & Heq & Hc1 & Hrest).
  exists c, rest. by rewrite list_ascii_of_string_of_list_ascii.
Qed.

Lemma js_callees_are_identifiers_witness :
  ∃ jf, parse_js_functions countdown_js !! "f"%string = Some jf ∧
        ("f"%string ∈ JsFunction.calls jf) ∧ is_identifier "f".
Proof.
  destruct (parse_js_functions countdown_js !! "f"%string) as [jf|] eqn:Hjf;
    [|by vm_compute in Hjf].
  assert (("f"%string) ∈ JsFunction.calls jf) as Hin.
  { vm_compute in Hjf. injection Hjf as <-. by vm_compute. }
  exists jf. split; [reflexivity|]. split; [exact Hin|].
  exact (proj1 (js_callees_are_identifiers countdown_js "f" jf "f" Hjf Hin)).
Defined.

(** A text without an opening brace, or without a closing brace, has no
    function. *)
Theorem no_brace_no_function code :
  (lbrace ∉ code) ∨ (rbrace ∉ code) → parse_js_functions code = ∅.
Proof.
  intros Hno. rewrite parse_js_functions_candidates.
  destruct (js_candidates code) as [|jf l] eqn:Hl; [done|].
  assert (jf ∈ js_candidates code) as Hin by (rewrite Hl; by left).
  apply elem_of_js_candidates in Hin as (rx_kind & m & _ & Hm & Hc).
  destruct (candidate_facts _ _ _ _ Hm Hc) as (b & j & Hb & Hj & _).
  apply str_find_spec in Hb as (_ & Hb & _).
  apply brace_span_hits_rbrace in Hj.
  destruct Hno as [[]|[]]; by eapply list_elem_of_lookup_2.
Qed.

Lemma no_brace_no_function_witness :
  parse_js_functions (txt "const f = (x) => x + 1;") = ∅.
Proof.
  apply no_brace_no_function. left.
  apply (bool_decide_unpack (lbrace ∉ txt "const f = (x) => x + 1;")).
  by vm_compute.
Defined.

(** ** The traversal of a syntax tree *)

Lemma heights_ge l c :
  c ∈ l →
  (Ast.height c ≤
   (fix heights (l : list Ast.node) : nat :=
      match l with
      | [] => 0
      | c :: l' => Nat.max (Ast.height c) (heights l')
      end) l)%nat.
Proof.
  induction l as [|x l IH]; [by intros ?%elem_of_nil|].
  intros [->|Hc]%elem_of_cons; [lia|]. specialize (IH Hc). lia.
Qed.

Lemma height_child n c :
  c ∈ Ast.iter_child_nodes n → (Ast.height c < Ast.height n)%nat.
Proof.
  destruct n as [a nm s e ch|f args|id|v attr|ch]; simpl.
  - intros Hc%heights_ge. lia.
  - intros [->|Hc%heights_ge]%elem_of_cons; lia.
  - by intros ?%elem_of_nil.
  - intros ->%list_elem_of_singleton. lia.
  - intros Hc%heights_ge. lia.
Qed.

Lemma elem_of_level d : ∀ n m, m ∈ Ast.level d n → descendant n m.
Proof.
  induction d as [|d IH]; intros n m; simpl.
  - intros ->%list_elem_of_singleton. constructor.
  - intros (c & Hm & Hc)%list_elem_of_bind. econstructor; eauto.
Qed.

Lemma descendant_level n m :
  descendant n m → ∃ d, (d < Ast.height n)%nat ∧ m ∈ Ast.level d n.
Proof.
  induction 1 as [n|n c m Hc _ (d & Hd & Hm)].
  - exists 0%nat. split; [destruct n; simpl; lia|by left].
  - exists (S d). split; [apply height_child in Hc; lia|].
    simpl. apply list_elem_of_bind. by exists c.
Qed.

(** The traversal meets exactly the nodes of the tree. *)
Lemma elem_of_walk tree n : n ∈ Ast.walk tree ↔ descendant tree n.
Proof.
  unfold Ast.walk. rewrite list_elem_of_bind. split.
  - intros (d & Hn & _). by eapply elem_of_level.
  - intros (d & Hd & Hn)%descendant_level. exists d. split; [done|].
    apply elem_of_seq. lia.
Qed.

Lemma descendant_trans n m k : descendant n m → descendant m k → descendant n k.
Proof. induction 1; [done|]. intros. econstructor; eauto. Qed.

(** ** The calls below a node *)

Lemma visit_all_union l :
  (fix visit_all (l : list Ast.node) : gset string :=
     match l with
     | [] => ∅
     | c :: l' => visit c ∪ visit_all l'
     end) l = ⋃ (visit <$> l).
Proof. induction l as [|c l IH]; simpl; [done|]. by rewrite IH. Qed.

(** The visitor records the callee of the node itself, when it is a
    call, and what it records below the child nodes. *)
Lemma visit_unfold n :
  visit n
  = match n with
    | Ast.Call func _ =>
      match callee_of func with Some x => {[ x ]} | None => ∅ end
    | _ => ∅
    end ∪ ⋃ (visit <$> Ast.iter_child_nodes n).
Proof.
  destruct n as [a nm s e ch|f args|id|v attr|ch]; simpl;
    rewrite ?visit_all_union, ?union_empty_l_L, ?union_empty_r_L; try done.
  by destruct f.
Qed.

Lemma elem_of_visit n x :
  x ∈ visit n ↔
  ∃ func args, descendant n (Ast.Call func args) ∧ callee_of func = Some x.
Proof.
  split.
  - remember (Ast.height n) as h eqn:Hh. revert n Hh.
    induction h as [h IH] using lt_wf_ind. intros n ->.
    rewrite visit_unfold. intros [Hown|Hch]%elem_of_union.
    + destruct n as [| func args | | |]; try by apply not_elem_of_empty in Hown.
      destruct (callee_of func) as [y|] eqn:Hy;
        [|by apply not_elem_of_empty in Hown].
      apply elem_of_singleton in Hown as ->. exists func, args.
      split; [constructor|done].
    + apply elem_of_union_list in Hch as (s & Hs & Hx).
      apply list_elem_of_fmap in Hs as (c & -> & Hc).
      destruct (IH (Ast.height c) (height_child _ _ Hc) c eq_refl Hx)
        as (func & args & Hd & Hf).
      exists func, args. split; [by econstructor|done].
  - intros (func & args & Hd & Hf).
    remember (Ast.Call func args) as call eqn:Hcall.
    induction Hd as [n|n c m Hc _ IH].
    + subst n. rewrite visit_unfold, Hf. set_solver.
    + rewrite visit_unfold. apply elem_of_union_r, elem_of_union_list.
      exists (visit c). split; [|by apply IH].
      apply list_elem_of_fmap. by exists c.
Qed.

(** ** The records of the grammar-aware extractor *)

Lemma is_def_def_name name n : is_def name n ↔ def_name n = Some name.
Proof.
  split.
  - by intros (a & s & e & ch & ->).
  - destruct n as [a nm s e ch| | | |]; try done. intros [= ->].
    by exists a, s, e, ch.
Qed.

Lemma parse_python_functions_loops `{PythonAst} code :
  parse_python_functions code
  = match ast_parse code with
    | None => ∅
    | Some tree =>
      foldl add_calls (foldl (record_def code) ∅ (Ast.walk tree)) (Ast.walk tree)
    end.
Proof. reflexivity. Qed.

Section python_facts.
Context `{PythonAst}.

(** The first loop maps the names of the definitions it meets. *)
Lemma record_def_dom code l : ∀ funcs name,
  is_Some (foldl (record_def code) funcs l !! name) ↔
  is_Some (funcs !! name) ∨ ∃ n, n ∈ l ∧ is_def name n.
Proof.
  induction l as [|x l IH]; intros funcs name; simpl.
  { split; [by left|]. intros [?|(n & ?%elem_of_nil & _)]; done. }
  rewrite IH. setoid_rewrite elem_of_cons. split.
  - intros [Hx|(n & Hn & Hd)]; [|right; exists n; auto].
    destruct x as [a nm s e ch| | | |]; simpl in Hx; auto.
    apply lookup_insert_is_Some in Hx as [<-|[_ ?]]; [|by left].
    right. eexists. split; [by left|]. by exists a, s, e, ch.
  - intros [Hf|(n & [->|Hn] & Hd)].
    + left. destruct x; simpl; try done. rewrite lookup_insert_is_Some.
      destruct (decide (name0 = name)); auto.
    + left. destruct Hd as (a & s & e & ch & ->). simpl.
      by rewrite lookup_insert_eq.
    + right. by exists n.
Qed.

(** A definition met last gives the record its fields. *)
Lemma record_def_last code l2 : ∀ funcs name f,
  funcs !! name = Some f → (∀ n, n ∈ l2 → ¬ is_def name n) →
  foldl (record_def code) funcs l2 !! name = Some f.
Proof.
  induction l2 as [|x l IH]; intros funcs name f Hf Hno; simpl; [done|].
  apply IH; [|intros n Hn; apply Hno; by right].
  destruct x as [a nm s e ch| | | |]; simpl; try done.
  rewrite lookup_insert_ne; [done|]. intros ->.
  apply (Hno (Ast.FunctionDef a name s e ch)); [by left|by exists a, s, e, ch].
Qed.

Lemma add_calls_lookup l : ∀ funcs name,
  foldl add_calls funcs l !! name
  = with_calls (def_visits name l) <$> funcs !! name.
Proof.
  assert (∀ f, with_calls ∅ f = f) as Hid.
  { intros [n s e src c]. unfold with_calls. simpl. by rewrite union_empty_r_L. }
  assert (∀ a b f, with_calls b (with_calls a f) = with_calls (a ∪ b) f) as Hcomp.
  { intros a b [n s e src c]. unfold with_calls. simpl. by rewrite (assoc_L (∪)). }
  induction l as [|x l IH]; intros funcs name; simpl.
  { unfold def_visits. simpl. destruct (funcs !! name); simpl; by rewrite ?Hid. }
  rewrite IH. unfold def_visits. simpl. fold (def_visits name l).
  destruct x as [a nm s e ch| | | |]; simpl;
    try (by rewrite union_empty_l_L).
  case_bool_decide as Hn.
  - injection Hn as ->. rewrite lookup_alter_eq.
    destruct (funcs !! name); simpl; [|done]. by rewrite Hcomp.
  - rewrite lookup_alter_ne by congruence. by rewrite union_empty_l_L.
Qed.

Lemma elem_of_def_visits name l x :
  x ∈ def_visits name l ↔ ∃ n, n ∈ l ∧ is_def name n ∧ x ∈ visit n.
Proof.
  unfold def_visits. rewrite elem_of_union_list. split.
  - intros (s & Hs & Hx). apply list_elem_of_fmap in Hs as (n & -> & Hn).
    case_bool_decide as Hd; [|by apply not_elem_of_empty in Hx].
    exists n. by rewrite is_def_def_name.
  - intros (n & Hn & Hd%is_def_def_name & Hx). eexists. split.
    + apply list_elem_of_fmap. by exists n.
    + by rewrite bool_decide_true.
Qed.

End python_facts.

(** The mapping has a record for a name exactly when the tree holds a
    definition of that name, plain or asynchronous, at any depth. *)
Theorem python_functions_are_the_definitions `{PythonAst} code tree name :
  ast_parse code = Some tree →
  is_Some (parse_python_functions code !! name) ↔
  ∃ n, descendant tree n ∧ is_def name n.
Proof.
  intros Hparse. rewrite parse_python_functions_loops, Hparse.
  rewrite add_calls_lookup, fmap_is_Some, record_def_dom.
  setoid_rewrite elem_of_walk. rewrite lookup_empty. split.
  - intros [[? ?]|?]; done.
  - by right.
Qed.

Lemma python_functions_are_the_definitions_witness :
  is_Some (@parse_python_functions (parsed_as nested_defs_tree) [] !! "b"%string).
Proof.
  apply (@python_functions_are_the_definitions (parsed_as nested_defs_tree)
           [] nested_defs_tree "b" eq_refl).
  exists (Ast.FunctionDef true "b" 4 5 [Ast.Other []]). split.
  - eapply descendant_below; [|apply descendant_here].
    simpl. apply elem_of_cons. right. apply elem_of_cons. by left.
  - by exists true, 4%nat, 5%nat, [Ast.Other []].
Defined.

(** The raw callees of a record are the callees of all the calls below
    any definition of its name: a call of a name gives the name, a call
    of an attribute gives the attribute, and calls inside nested
    functions count for the function around them. *)
Theorem python_calls_are_the_calls_below `{PythonAst} code tree name f x :
  ast_parse code = Some tree →
  parse_python_functions code !! name = Some f →
  x ∈ PyFunction.calls f ↔
  ∃ d func args, descendant tree d ∧ is_def name d ∧
    descendant d (Ast.Call func args) ∧ callee_of func = Some x.
Proof.
  intros Hparse. rewrite parse_python_functions_loops, Hparse.
  rewrite add_calls_lookup. intros Hf.
  destruct (foldl (record_def code) ∅ (Ast.walk tree) !! name) as [f0|] eqn:Hf0;
    [|done].
  simpl in Hf. injection Hf as <-. simpl.
  assert (PyFunction.calls f0 = ∅) as ->.
  { clear -Hf0. revert Hf0. generalize (Ast.walk tree). intros l.
    assert (∀ funcs : gmap string PyFunction.t,
      (∀ n g, funcs !! n = Some g → PyFunction.calls g = ∅) →
      ∀ n g, foldl (record_def code) funcs l !! n = Some g →
             PyFunction.calls g = ∅) as Hgen.
    { induction l as [|y l IH]; intros funcs Hinit; simpl; [done|].
      apply IH. intros n g. destruct y as [a nm s e ch| | | |]; simpl;
        try apply Hinit.
      destruct (decide (nm = n)) as [->|Hne].
      - rewrite lookup_insert_eq. by intros [= <-].
      - rewrite lookup_insert_ne by done. apply Hinit. }
    apply Hgen. intros n g. by rewrite lookup_empty. }
  rewrite union_empty_l_L, elem_of_def_visits.
  setoid_rewrite elem_of_walk. setoid_rewrite elem_of_visit. naive_solver.
Qed.

Lemma python_calls_are_the_calls_below_witness :
  ∃ f, @parse_python_functions (parsed_as nested_defs_tree) [] !! "c"%string
       = Some f ∧ ("c"%string) ∈ PyFunction.calls f.
Proof.
  destruct (@parse_python_functions (parsed_as nested_defs_tree) [] !! "c"%string)
    as [f|] eqn:Hf; [|by vm_compute in Hf].
  exists f. split; [reflexivity|].
  apply (@python_calls_are_the_calls_below (parsed_as nested_defs_tree)
           [] nested_defs_tree "c" f "c" eq_refl Hf).
  exists (Ast.FunctionDef false "c" 6 8
            [Ast.FunctionDef false "a" 7 8
               [Ast.Other [Ast.Call (Ast.Name "c") [Ast.Name "y"]]]]),
    (Ast.Name "c"), [Ast.Name "y"].
  split_and!.
  - eapply descendant_below; [|apply descendant_here].
    simpl. do 2 (apply elem_of_cons; right). apply elem_of_cons. by left.
  - by exists false, 6%nat, 8%nat,
      [Ast.FunctionDef false "a" 7 8
         [Ast.Other [Ast.Call (Ast.Name "c") [Ast.Name "y"]]]].
  - eapply descendant_below; [simpl; apply elem_of_cons; by left|].
    eapply descendant_below; [simpl; apply elem_of_cons; by left|].
    eapply descendant_below; [simpl; apply elem_of_cons; by left|].
    apply descendant_here.
  - reflexivity.
Defined.

(** Of several definitions of one name, the one that the breadth-first
    traversal meets last gives the record its lines and its source
    text. *)
Theorem python_last_definition_wins `{PythonAst} code tree l1 l2
    is_async name lineno end_lineno children :
  ast_parse code = Some tree →
  Ast.walk tree
  = l1 ++ Ast.FunctionDef is_async name lineno end_lineno children :: l2 →
  (∀ n, n ∈ l2 → ¬ is_def name n) →
  ∃ f, parse_python_functions code !! name = Some f ∧
       PyFunction.name f = name ∧
       PyFunction.start f = lineno ∧ PyFunction.end_ f = end_lineno ∧
       PyFunction.src f
       = segment_of code
           (Ast.FunctionDef is_async name lineno end_lineno children)
           lineno end_lineno.
Proof.
  intros Hparse Hwalk Hlast. rewrite parse_python_functions_loops, Hparse.
  rewrite add_calls_lookup, Hwalk, foldl_app. simpl.
  erewrite record_def_last; [|apply lookup_insert_eq|done].
  simpl. eexists. split; [done|]. by simpl.
Qed.

Lemma python_last_definition_wins_witness :
  ∃ f, @parse_python_functions (parsed_as nested_defs_tree) [] !! "a"%string
       = Some f ∧ PyFunction.start f = 7%nat ∧ PyFunction.end_ f = 8%nat.
Proof.
  destruct (@python_last_definition_wins (parsed_as nested_defs_tree) []
    nested_defs_tree
    (firstn 7 (Ast.walk nested_defs_tree)) (skipn 8 (Ast.walk nested_defs_tree))
    false "a" 7 8 [Ast.Other [Ast.Call (Ast.Name "c") [Ast.Name "y"]]])
    as (f & Hf & _ & Hs & He & _).
  - reflexivity.
  - by vm_compute.
  - intros n Hn (a & s & e & ch & ->). revert Hn. vm_compute.
    intros Hn. repeat (apply elem_of_cons in Hn as [Hn|Hn]; [discriminate Hn|]).
    by apply elem_of_nil in Hn.
  - exists f. exact (conj Hf (conj Hs He)).
Defined.

(** ** The grouping engine on any input *)

Section build_groups_any_input.
Context `{IterOrder}.

(** One step of the loops that fill the graph either succeeds and keeps
    the keys, or raises. *)
Lemma link_cases a (d : gmap string (gset string)) b :
  (a ∈ dom d →
     ∃ d', link a d b = Done d' ∧ dom d' = dom d ∧
       ∀ k v, rel_of d' k v ↔
         rel_of d k v ∨ (b ∈ dom d ∧ b ≠ a ∧ (k = a ∧ v = b ∨ k = b ∧ v = a))) ∧
  (a ∉ dom d →
     if bool_decide (b ∈ dom d) then link a d b = KeyError a
     else link a d b = Done d).
Proof.
  unfold link. split.
  - intros Ha. destruct (decide (b ∈ dom d ∧ b ≠ a)) as [[Hb Hba]|Hno].
    + rewrite bool_decide_true by (by rewrite <- elem_of_dom).
      rewrite bool_decide_true by done. simpl.
      destruct (set_add_spec d a b Ha) as (d2 & -> & Hdom2 & Hrel2). simpl.
      destruct (set_add_spec d2 b a) as (d3 & -> & Hdom3 & Hrel3);
        [by rewrite Hdom2|].
      exists d3. split_and!; [done|congruence|]. intros k v.
      rewrite Hrel3, Hrel2. naive_solver.
    + assert (bool_decide (is_Some (d !! b)) && bool_decide (b ≠ a) = false)
        as ->.
      { apply andb_false_iff. rewrite !bool_decide_eq_false, <- elem_of_dom.
        destruct (decide (b ∈ dom d)); [right|left]; naive_solver. }
      exists d. split_and!; [done..|]. naive_solver.
  - intros Ha. case_bool_decide as Hb.
    + rewrite bool_decide_true by (by rewrite <- elem_of_dom).
      rewrite bool_decide_true by (intros ->; done). simpl.
      unfold set_add. by rewrite (not_elem_of_dom_1 d a Ha).
    + rewrite bool_decide_false; [done|]. by rewrite <- elem_of_dom.
Qed.

(** The inner loop for a key that is no name: it raises as soon as a
    neighbour is a name, and changes nothing otherwise. *)
Lemma link_unknown_key a (d : gmap string (gset string)) l :
  a ∉ dom d →
  (∃ b, b ∈ l ∧ b ∈ dom d) ∧ foldlM (link a) d l = KeyError a ∨
  (∀ b, b ∈ l → b ∉ dom d) ∧ foldlM (link a) d l = Done d.
Proof.
  intros Ha. induction l as [|b l IH]; simpl.
  { right. split; [by intros ? ?%elem_of_nil|done]. }
  pose proof (proj2 (link_cases a d b) Ha) as Hb. case_bool_decide as Hin.
  - rewrite Hb. simpl. left. split; [|done]. exists b. split; [by left|done].
  - rewrite Hb. simpl. destruct IH as [[(b' & ? & ?) ->]|[Hall ->]].
    + left. split; [|done]. exists b'. split; [by right|done].
    + right. split; [|done]. intros b' [->|?]%elem_of_cons; auto.
Qed.

Lemma link_known_key a (d : gmap string (gset string)) l :
  a ∈ dom d →
  ∃ d', foldlM (link a) d l = Done d' ∧ dom d' = dom d ∧
    ∀ k v, rel_of d' k v ↔
      rel_of d k v ∨
      ∃ b, b ∈ l ∧ b ∈ dom d ∧ b ≠ a ∧ (k = a ∧ v = b ∨ k = b ∧ v = a).
Proof.
  intros Ha.
  destruct (foldlM_rel (link a)
    (λ b k v, b ∈ dom d ∧ b ≠ a ∧ (k = a ∧ v = b ∨ k = b ∧ v = a))
    (dom d) l d) as (d' & Hd' & Hdom' & Hrel'); [|done|by exists d'].
  intros d1 b Hd1 Hb.
  destruct (proj1 (link_cases a d1 b)) as (d2 & ? & ? & Hrel2); [by rewrite Hd1|].
  exists d2. split_and!; [done|congruence|]. intros k v. rewrite Hrel2, Hd1.
  naive_solver.
Qed.

(** The graph on any input: a missing key is looked up exactly when an
    edge leaves a key that is no name and reaches a name, and that key is
    the one reported; otherwise the graph links the names that an edge
    joins, and edges from or to other keys are ignored. *)
Lemma build_graph_any names (E : gmap string (gset string)) :
  (∃ k nb b, E !! k = Some nb ∧ (k ∉ names) ∧ b ∈ nb ∧ b ∈ names ∧
     build_graph names E = KeyError k) ∨
  (¬ stray_edge names E ∧
   ∃ G, build_graph names E = Done G ∧ dom G = list_to_set names ∧
     ∀ x y, rel_of G x y ↔
       x ≠ y ∧ x ∈ names ∧ y ∈ names ∧ (rel_of E x y ∨ rel_of E y x)).
Proof.
  unfold build_graph. set (N := list_to_set names : gset string).
  assert (∀ x, x ∈ N ↔ x ∈ names) as HN by (intros x; apply elem_of_list_to_set).
  assert (∀ l (d : gmap string (gset string)), dom d = N →
    (∃ k nb b, (k, nb) ∈ l ∧ (k ∉ N) ∧ b ∈ nb ∧ b ∈ N ∧
       foldlM (λ graph a_neigh,
            foldlM (link a_neigh.1) graph (set_iter a_neigh.2)) d l
          = KeyError k) ∨
    ((∀ a nb b, (a, nb) ∈ l → b ∈ nb → b ∈ N → a ∈ N) ∧
     ∃ G, foldlM (λ graph a_neigh,
            foldlM (link a_neigh.1) graph (set_iter a_neigh.2)) d l
          = Done G ∧ dom G = N ∧
       ∀ x y, rel_of G x y ↔
         rel_of d x y ∨
         ∃ a nb b, (a, nb) ∈ l ∧ b ∈ nb ∧ a ∈ N ∧ b ∈ N ∧ b ≠ a ∧
                   (x = a ∧ y = b ∨ x = b ∧ y = a))) as Hloop.
  { induction l as [|[a nb] l IH]; intros d Hd; simpl.
    { right. split; [by intros ??? ?%elem_of_nil|]. exists d.
      split_and!; [done..|]. intros x y. split; [by left|].
      intros [?|(? & ? & ? & ?%elem_of_nil & _)]; done. }
    destruct (decide (a ∈ N)) as [Ha|Ha].
    - destruct (link_known_key a d (set_iter nb)) as (d1 & -> & Hd1 & Hrel1);
        [by rewrite Hd|]. simpl.
      destruct (IH d1) as [(k & nb' & b' & ? & ? & ? & ? & ->)
                          |[Hok (G & -> & HG & HrelG)]]; [congruence| |].
      + left. exists k, nb', b'. split; [by right|done].
      + right. split.
        { intros a' nb' b' [[= -> ->]|?]%elem_of_cons; [done|by eapply Hok]. }
        exists G. split_and!; [done..|]. intros x y. rewrite HrelG, Hrel1.
        setoid_rewrite elem_of_set_iter. rewrite Hd. split.
        * intros [[?|(b & ? & ? & ? & ?)]|(a' & nb' & b' & ? & ?)].
          -- by left.
          -- right. exists a, nb, b. split; [by left|done].
          -- right. exists a', nb', b'. split; [by right|done].
        * intros [?|(a' & nb' & b' & [[= -> ->]|?]%elem_of_cons & ? & ? & ? & ? & ?)].
          -- by left; left.
          -- left. right. by exists b'.
          -- right. by exists a', nb', b'.
    - destruct (link_unknown_key a d (set_iter nb)) as [[(b & Hb & HbN) ->]|[Hnone ->]];
        [by rewrite Hd|..]; simpl.
      + left. exists a, nb, b.
        split_and!; [by left|done|by apply elem_of_set_iter|by rewrite <- Hd|done].
      + destruct (IH d) as [(k & nb' & b' & ? & ? & ? & ? & ->)
                           |[Hok (G & -> & HG & HrelG)]]; [done| |].
        * left. exists k, nb', b'. split; [by right|done].
        * right. split.
          { intros a' nb' b' [[= -> ->]|?]%elem_of_cons Hb HbN; [|by eapply Hok].
            destruct (Hnone b'); [by apply elem_of_set_iter|by rewrite Hd]. }
          exists G. split_and!; [done..|]. intros x y. rewrite HrelG. split.
          -- intros [?|(a' & nb' & b' & ? & ?)]; [by left|].
             right. exists a', nb', b'. split; [by right|done].
          -- intros [?|(a' & nb' & b' & [[= -> ->]|?]%elem_of_cons & ? & ? & ?)];
               [by left|done|]. right. by exists a', nb', b'. }
  destruct (Hloop (dict_iter E) (empty_sets names)) as
    [(k & nb & b & Hin & Hk & Hb & HbN & Hres)
    |[Hok (G & HG & Hdom & Hrel)]].
  - by rewrite dom_empty_sets.
  - left. exists k, nb, b. rewrite <- !HN. by apply elem_of_dict_iter in Hin.
  - right. split.
    { intros (a & nb & b & Ha & HaN & Hb & HbN). apply HaN, HN.
      apply (Hok a nb b); [by apply elem_of_dict_iter|done|by apply HN]. }
    exists G. split_and!; [done..|]. intros x y. rewrite Hrel, <- !HN. split.
    + intros [[]%rel_of_empty_sets|(a & nb & b & Hin%elem_of_dict_iter & ? & ? & ? & ? & Hxy)].
      assert (rel_of E a b) by (by exists nb).
      destruct Hxy as [[-> ->]|[-> ->]]; naive_solver.
    + intros (Hxy & Hx & Hy & [(s & Hs & ?)|(s & Hs & ?)]); right.
      * exists x, s, y. split; [by apply elem_of_dict_iter|naive_solver].
      * exists y, s, x. split; [by apply elem_of_dict_iter|naive_solver].
Qed.

(** The groups on any input without a stray edge. *)
Lemma build_groups_any names (E : gmap string (gset string)) :
  ¬ stray_edge names E →
  ∃ G gs, build_graph names E = Done G ∧ build_groups names E = Done gs ∧
    (∀ x y, rel_of G x y ↔
       x ≠ y ∧ x ∈ names ∧ y ∈ names ∧ (rel_of E x y ∨ rel_of E y x)) ∧
    groups_inv G (list_to_set names) gs ∧
    StronglySorted (λ g1 g2, key_rel (group_key g1) (group_key g2)) gs.
Proof.
  intros Hno.
  destruct (build_graph_any names E)
    as [(k & nb & b & ? & ? & ? & ? & _)|[_ (G & HG & Hdom & Hrel)]].
  { destruct Hno. by exists k, nb, b. }
  assert (∀ x y, rel_of G x y → y ∈ dom G) as Hclosed.
  { intros x y (_ & _ & Hy & _)%Hrel. rewrite Hdom. by apply elem_of_list_to_set. }
  assert (∀ x y, rel_of G x y → rel_of G y x) as Hsym.
  { intros x y. rewrite !Hrel. naive_solver. }
  destruct (groups_loop_spec G names Hclosed Hsym ∅ [])
    as (seen' & gs' & Hloop & Hinv & _ & Hsub & Hall).
  { intros n Hn. rewrite Hdom. by apply elem_of_list_to_set. }
  { apply groups_inv_nil. }
  { set_solver. }
  assert (seen' = list_to_set names) as ->.
  { apply set_eq. intros x. split; [rewrite <- Hdom; apply Hsub|].
    intros Hx%elem_of_list_to_set. by apply Hall. }
  exists G, (sort_by (λ g1 g2, key_le (group_key g1) (group_key g2)) gs').
  split_and!; [done| |done| |].
  - unfold build_groups. rewrite HG. simpl. by rewrite Hloop.
  - eapply groups_inv_perm; [|done]. symmetry. apply sort_by_perm.
  - apply Sorted_StronglySorted.
    { intros g1 g2 g3. apply key_rel_trans. }
    apply (@sort_by_sorted _ (λ g1 g2, key_le (group_key g1) (group_key g2))).
    intros g1 g2. apply key_rel_total.
Qed.

End build_groups_any_input.

(** The grouping engine on any list of names and any mapping of edges.
    It raises [KeyError] exactly when an edge leaves a key that is not
    among the names and reaches one of the names, and the key it reports
    is such a key; on every other input it returns a partition of the
    set of the names, ordered by size and then by smallest name.  Edges
    to an unknown name and edges between unknown names are ignored. *)
Theorem build_groups_raises_exactly_on_a_stray_edge `{IterOrder} names
    (E : gmap string (gset string)) :
  (∀ k, build_groups names E = KeyError k →
     ∃ nb b, E !! k = Some nb ∧ (k ∉ names) ∧ b ∈ nb ∧ b ∈ names) ∧
  ((∃ k, build_groups names E = KeyError k) ↔ stray_edge names E) ∧
  ((∃ gs, build_groups names E = Done gs ∧
          is_partition gs (list_to_set names) ∧ groups_ordered gs) ↔
   ¬ stray_edge names E).
Proof.
  destruct (build_graph_any names E)
    as [(k & nb & b & Hk & HkN & Hb & HbN & Hres)|[Hno (G & HG & _)]].
  - assert (build_groups names E = KeyError k) as Hgs.
    { unfold build_groups. by rewrite Hres. }
    assert (stray_edge names E) as Hstray by (by exists k, nb, b).
    split_and!.
    + intros k'. rewrite Hgs. intros [= <-]. by exists nb, b.
    + split; [done|]. by exists k.
    + split; [|done]. intros (gs & Hd & _). congruence.
  - destruct (build_groups_any names E Hno) as (G' & gs & _ & Hgs & _ & Hinv & Hs).
    split_and!.
    + intros k. by rewrite Hgs.
    + split; [|done]. intros [k Hk]. congruence.
    + split; [done|]. intros _. exists gs. split_and!; [done| |].
      * by eapply groups_inv_partition.
      * by eapply groups_ordered_of_sorted.
Qed.

(** ** The groups are determined by the graph *)

Section groups_unique.
Context `{IterOrder}.

(** Two lists of groups of the same graph over the same names hold the
    same groups. *)
Lemma groups_inv_same_groups G s gs1 gs2 g :
  (∀ x y, rel_of G x y → rel_of G y x) →
  groups_inv G s gs1 → groups_inv G s gs2 → g ∈ gs1 → g ∈ gs2.
Proof.
  intros Hsym Hinv1 Hinv2 Hg.
  pose proof Hinv1 as (_ & _ & Hne1 & Hun1 & _ & _).
  pose proof Hinv2 as (_ & _ & _ & Hun2 & _ & _).
  destruct (set_choose_L g) as [x Hx]; [by apply Hne1|].
  assert (x ∈ ⋃ gs2) as Hx2.
  { rewrite Hun2, <- Hun1. apply elem_of_union_list. by exists g. }
  apply elem_of_union_list in Hx2 as (g' & Hg' & Hx').
  assert (g = g') as ->; [|done]. apply set_eq. intros y.
  rewrite (group_iff_connected G s gs1 g x y Hsym Hinv1 Hg Hx).
  by rewrite (group_iff_connected G s gs2 g' x y Hsym Hinv2 Hg' Hx').
Qed.

Lemma group_key_inj G s gs g1 g2 :
  groups_inv G s gs → g1 ∈ gs → g2 ∈ gs →
  key_rel (group_key g1) (group_key g2) →
  key_rel (group_key g2) (group_key g1) → g1 = g2.
Proof.
  intros (_ & Hdisj & Hne & _) H1 H2 Hk12 Hk21.
  destruct (group_key_least g1) as (m1 & Hk1 & Hm1 & _); [by apply Hne|].
  destruct (group_key_least g2) as (m2 & Hk2 & Hm2 & _); [by apply Hne|].
  rewrite Hk1, Hk2 in Hk12, Hk21.
  apply key_rel_iff in Hk12, Hk21. simpl in *.
  assert (m1 = m2) as ->.
  { destruct Hk12 as [?|[? ?]], Hk21 as [?|[? ?]]; try lia.
    by apply (anti_symm String.le). }
  destruct (decide (g1 = g2)) as [|Hneq]; [done|].
  specialize (Hdisj g1 g2 H1 H2 Hneq). set_solver.
Qed.

Lemma groups_inv_unique G s gs1 gs2 :
  (∀ x y, rel_of G x y → rel_of G y x) →
  groups_inv G s gs1 → groups_inv G s gs2 →
  StronglySorted (λ g1 g2, key_rel (group_key g1) (group_key g2)) gs1 →
  StronglySorted (λ g1 g2, key_rel (group_key g1) (group_key g2)) gs2 →
  gs1 = gs2.
Proof.
  intros Hsym Hinv1 Hinv2 Hs1 Hs2.
  apply (StronglySorted_unique_strong
           (λ g1 g2, key_rel (group_key g1) (group_key g2))); [|done..|].
  - intros g1 g2 Hg1 Hg2. apply (group_key_inj G s gs1); [done..|].
    by apply (groups_inv_same_groups G s gs2 gs1).
  - apply NoDup_Permutation; [apply Hinv1|apply Hinv2|]. intros g. split.
    + by apply (groups_inv_same_groups G s).
    + by apply (groups_inv_same_groups G s).
Qed.

Lemma empty_sets_set names1 names2 :
  (list_to_set names1 : gset string) = list_to_set names2 →
  empty_sets names1 = empty_sets names2.
Proof.
  intros Hset. apply map_eq. intros k.
  assert (∀ names, empty_sets names !! k
                   = if decide (k ∈ names) then Some ∅ else None) as Hl.
  { intros names. case_decide as Hk.
    - assert (k ∈ dom (empty_sets names)) as [s Hs]%elem_of_dom.
      { rewrite dom_empty_sets. by apply elem_of_list_to_set. }
      rewrite Hs. f_equal. by eapply lookup_empty_sets.
    - apply not_elem_of_dom. rewrite dom_empty_sets.
      by rewrite elem_of_list_to_set. }
  rewrite !Hl.
  assert (k ∈ names1 ↔ k ∈ names2) as Hiff.
  { by rewrite <- !(elem_of_list_to_set (C := gset string)), Hset. }
  repeat case_decide; naive_solver.
Qed.

End groups_unique.

(** The result of the grouping engine depends on the names only through
    their set: the order of the list, which decides where the traversals
    start, and repeated names make no difference, neither to the groups
    nor to the key of a [KeyError]. *)
Theorem build_groups_depends_on_the_set_of_names `{IterOrder} names1 names2
    (E : gmap string (gset string)) :
  (list_to_set names1 : gset string) = list_to_set names2 →
  build_groups names1 E = build_groups names2 E.
Proof.
  intros Hset.
  assert (build_graph names1 E = build_graph names2 E) as HG.
  { unfold build_graph. by rewrite (empty_sets_set names1 names2). }
  destruct (build_graph_any names1 E)
    as [(k & nb & b & _ & _ & _ & _ & Hres)|[Hno (G & HG1 & _)]].
  { unfold build_groups. by rewrite <- HG, Hres. }
  assert (¬ stray_edge names2 E) as Hno2.
  { intros (a & nb & b & Ha & HaN & Hb & HbN). apply Hno. exists a, nb, b.
    revert HaN HbN.
    rewrite <- !(elem_of_list_to_set (C := gset string)), Hset. naive_solver. }
  destruct (build_groups_any names1 E Hno) as (G1 & gs1 & HG1' & -> & Hrel1 & Hinv1 & Hs1).
  destruct (build_groups_any names2 E Hno2) as (G2 & gs2 & HG2' & -> & _ & Hinv2 & Hs2).
  assert (G2 = G1) as -> by congruence.
  f_equal. apply (groups_inv_unique G1 (list_to_set names1)); [|done| |done..].
  - intros x y. rewrite !Hrel1. naive_solver.
  - by rewrite Hset.
Qed.

Lemma build_groups_depends_on_the_set_of_names_witness :
  (list_to_set ["b"; "a"; "b"]%string : gset string)
    = list_to_set ["a"; "b"]%string ∧
  @build_groups canonical_order ["b"; "a"; "b"]%string {[ "a" := {[ "b" ]} ]}%string
  = @build_groups canonical_order ["a"; "b"]%string {[ "a" := {[ "b" ]} ]}%string.
Proof.
  assert ((list_to_set ["b"; "a"; "b"]%string : gset string)
          = list_to_set ["a"; "b"]%string) as Hset.
  { apply (bool_decide_unpack _). by vm_compute. }
  split; [exact Hset|].
  exact (@build_groups_depends_on_the_set_of_names canonical_order _ _ _ Hset).
Defined.

(** ** What the analysis returns besides the groups *)

Lemma analyze_funcs_shape `{IterOrder} {A} (calls_of : A → gset string)
    (funcs : gmap string A) :
  ∃ a, analyze_funcs calls_of funcs = Done a ∧
    analysis_ok (calls_of <$> funcs) a ∧
    Analysis.names a ≡ₚ (map_to_list funcs).*1 ∧
    dom (Analysis.callers a) = dom funcs.
Proof.
  destruct (analyze_funcs_spec calls_of funcs) as (a & Ha & Hok).
  exists a. split_and!; [done..| |]; unfold analyze_funcs in Ha.
  - assert (sort_names (dict_iter funcs).*1 ≡ₚ (map_to_list funcs).*1) as Hp.
    { by rewrite sort_names_perm, dict_iter_perm. }
    destruct (sort_names (dict_iter funcs).*1) as [|n0 l] eqn:Heq.
    { injection Ha as <-. done. }
    rewrite <- Heq in Ha.
    destruct (call_edges _ _ _); simpl in Ha; [|done..].
    destruct (build_groups _ _); simpl in Ha; [|done..].
    destruct (callers_of _ _); simpl in Ha; [|done..].
    injection Ha as <-. simpl. by rewrite Heq.
  - pose proof (names_of_keys funcs) as Hnames.
    destruct (sort_names (dict_iter funcs).*1) as [|n0 l] eqn:Heq.
    { injection Ha as <-. simpl. simpl in Hnames. set_solver. }
    rewrite <- Heq in *.
    destruct (call_edges_spec calls_of funcs _ Hnames) as (E & HE & HdomE & HrelE).
    rewrite HE in Ha. simpl in Ha.
    destruct (build_groups _ _); simpl in Ha; [|done..].
    destruct (callers_of_spec (sort_names (dict_iter funcs).*1) E)
      as (C & HC & HdomC & _).
    { by rewrite HdomE, Hnames. }
    { intros x y (f & _ & _ & Hb)%HrelE. rewrite HdomE. by apply elem_of_dom. }
    rewrite HC in Ha. simpl in Ha. injection Ha as <-. simpl. congruence.
Qed.

Lemma analyze_file_shape `{IterOrder} `{PythonAst} lang code :
  ∃ a, analyze_file lang code = Done a ∧
    analysis_ok (raw_callees lang code) a ∧
    NoDup (Analysis.names a) ∧
    dom (Analysis.callers a) = extracted_names lang code.
Proof.
  unfold extracted_names, raw_callees.
  destruct lang; simpl; rewrite dom_fmap_L.
  - destruct (analyze_funcs_shape PyFunction.calls (parse_python_functions code))
      as (a & ? & ? & Hp & ?).
    exists a. split_and!; [done..| |done]. rewrite Hp. apply NoDup_fst_map_to_list.
  - destruct (analyze_funcs_shape JsFunction.calls (parse_js_functions code))
      as (a & ? & ? & Hp & ?).
    exists a. split_and!; [done..| |done]. rewrite Hp. apply NoDup_fst_map_to_list.
Qed.

Lemma size_union_list_disjoint (gs : list (gset string)) :
  NoDup gs → (∀ g1 g2, g1 ∈ gs → g2 ∈ gs → g1 ≠ g2 → g1 ## g2) →
  size (⋃ gs) = sum_list_with size gs.
Proof.
  induction gs as [|g gs IH]; intros Hnd Hdisj.
  { apply (size_empty (C := gset string)). }
  simpl.
  apply NoDup_cons in Hnd as [Hg Hnd].
  rewrite size_union, IH; [done|done| |].
  - intros g1 g2 ? ?. apply Hdisj; by right.
  - intros x Hx (g' & Hg' & Hx')%elem_of_union_list.
    assert (g ## g') as Hd; [|set_solver].
    apply Hdisj; [by left|by right|]. by intros ->.
Qed.

Lemma strictly_sorted_of_NoDup l :
  StronglySorted String.le l → NoDup l → StronglySorted name_lt l.
Proof.
  induction 1 as [|x l Hs IH Hall]; intros Hnd; [constructor|].
  apply NoDup_cons in Hnd as [Hx Hnd]. constructor; [by apply IH|].
  rewrite Forall_forall in *. intros y Hy. split; [by apply Hall|].
  by intros ->.
Qed.

(** The names of a result are the extracted names in strictly ascending
    order, and both maps of the result have an entry for every one of
    them and for nothing else: a function without calls or without
    callers has an empty set, never a missing key. *)
Theorem every_function_has_an_entry `{IterOrder} `{PythonAst} lang code :
  ∃ a, analyze_file lang code = Done a ∧
    StronglySorted name_lt (Analysis.names a) ∧
    (∀ n, n ∈ Analysis.names a ↔ n ∈ extracted_names lang code) ∧
    dom (Analysis.edges a) = extracted_names lang code ∧
    dom (Analysis.callers a) = extracted_names lang code.
Proof.
  destruct (analyze_file_shape lang code)
    as (a & Ha & (Hnames & Hs & HdomE & _) & Hnd & HdomC).
  exists a. split_and!; [done| | |done..].
  - by apply strictly_sorted_of_NoDup.
  - intros n. unfold extracted_names. rewrite <- Hnames.
    by rewrite elem_of_list_to_set.
Qed.

(** The sizes of the groups add up to the number of functions: no
    function is counted twice and none is left out. *)
Theorem group_sizes_add_up `{IterOrder} `{PythonAst} lang code :
  ∃ a, analyze_file lang code = Done a ∧
    sum_list_with size (Analysis.groups a) = length (Analysis.names a) ∧
    length (Analysis.names a) = size (extracted_names lang code).
Proof.
  destruct (analyze_file_shape lang code)
    as (a & Ha & (Hnames & _ & _ & _ & _ & _ & G & _ & Hinv) & Hnd & _).
  exists a. split; [done|].
  assert (length (Analysis.names a) = size (extracted_names lang code)) as Hlen.
  { unfold extracted_names. rewrite <- Hnames.
    by rewrite size_list_to_set. }
  split; [|done]. rewrite Hlen.
  destruct Hinv as (Hnd' & Hdisj & _ & Hun & _).
  unfold extracted_names. rewrite <- Hun.
  symmetry. by apply size_union_list_disjoint.
Qed.

(** ** The report of one group *)

Section report_facts.
Context `{IterOrder}.

Lemma list_to_set_sorted (s : gset string) : list_to_set (sorted s) = s.
Proof.
  apply set_eq. intros x. by rewrite elem_of_list_to_set, elem_of_sorted.
Qed.

Lemma foldl_insert_lookup {V} (f : string → V) l : ∀ (d : gmap string V) k,
  foldl (λ d n, <[n := f n]> d) d l !! k
  = if decide (k ∈ l) then Some (f k) else d !! k.
Proof.
  induction l as [|n l IH]; intros d k; simpl.
  { by destruct (decide (k ∈ [])) as [Hk%elem_of_nil|]. }
  rewrite IH. destruct (decide (k ∈ l)) as [Hl|Hl].
  { rewrite decide_True; [done|by right]. }
  destruct (decide (k = n)) as [->|Hne].
  - rewrite lookup_insert_eq. rewrite decide_True; [done|by left].
  - rewrite lookup_insert_ne by done. rewrite decide_False; [done|].
    by intros [?|?]%elem_of_cons.
Qed.

Lemma sub_map_lookup (m : gmap string (gset string)) g n :
  sub_map m g !! n
  = if decide (n ∈ g) then Some (default ∅ (m !! n) ∩ g) else None.
Proof.
  unfold sub_map.
  rewrite (foldl_insert_lookup
    (λ n, list_to_set (sorted (default ∅ (m !! n) ∩ g)))).
  rewrite list_to_set_sorted.
  destruct (decide (n ∈ set_iter g)) as [Hn|Hn];
    rewrite elem_of_set_iter in Hn.
  - by rewrite decide_True.
  - by rewrite decide_False.
Qed.

Lemma dom_sub_map (m : gmap string (gset string)) g : dom (sub_map m g) = g.
Proof.
  apply set_eq. intros n. rewrite elem_of_dom, sub_map_lookup.
  case_decide; [|by split; [intros [? ?]|]]. split; [done|by eexists].
Qed.

Lemma group_funcs_spec {A} (src_of : A → list ascii) (funcs : gmap string A) g :
  g ⊆ dom funcs →
  ∃ gf, group_funcs src_of funcs g = Done gf ∧ gf.*1 = sorted g ∧
    ∀ n s, (n, s) ∈ gf ↔ n ∈ g ∧ src_of <$> funcs !! n = Some s.
Proof.
  intros Hsub. unfold group_funcs.
  assert (∀ l acc, (∀ n, n ∈ l → n ∈ dom funcs) →
    ∃ gf, foldlM (λ acc n,
            match funcs !! n with
            | Some f => Done (acc ++ [(n, src_of f)])
            | None => KeyError n
            end) acc l = Done (acc ++ gf) ∧ gf.*1 = l ∧
      ∀ n s, (n, s) ∈ gf ↔ n ∈ l ∧ src_of <$> funcs !! n = Some s) as Hloop.
  { induction l as [|n l IH]; intros acc Hl; simpl.
    { exists []. rewrite app_nil_r. split_and!; [done..|].
      intros n s. split; [by intros ?%elem_of_nil|by intros [?%elem_of_nil _]]. }
    assert (n ∈ dom funcs) as [f Hf]%elem_of_dom by (apply Hl; by left).
    rewrite Hf. simpl.
    destruct (IH (acc ++ [(n, src_of f)])) as (gf & -> & Hfst & Hgf).
    { intros ??. apply Hl. by right. }
    exists ((n, src_of f) :: gf). rewrite <- app_assoc. simpl.
    split_and!; [done|by f_equal|]. intros n' s. rewrite !elem_of_cons, Hgf.
    split.
    - intros [[= -> ->]|[? ?]]; [|by auto]. split; [by left|by rewrite Hf].
    - intros [[->|?] Hs]; [|by auto]. left. rewrite Hf in Hs. simpl in Hs.
      congruence. }
  destruct (Hloop (sorted g) []) as (gf & Hgf & Hfst & Hin).
  { intros n Hn%elem_of_sorted. by apply Hsub. }
  exists gf. split_and!; [done..|]. intros n s. by rewrite Hin, elem_of_sorted.
Qed.

End report_facts.

(** ** The code that goes into a prompt *)

Lemma total_chars_nonneg l : 0 ≤ total_chars l.
Proof. induction l as [|x l IH]; simpl; unfold src_len in *; lia. Qed.

Lemma total_chars_perm l1 l2 : l1 ≡ₚ l2 → total_chars l1 = total_chars l2.
Proof. induction 1; simpl; lia. Qed.

(** The loop from any state: what it appends, and why it skips what it
    skips. *)
Lemma fit_loop limit l : ∀ acc t,
  ∃ kept,
    foldl (fit_step limit) (acc, t) l = (acc ++ kept, t + total_chars kept) ∧
    sublist kept l ∧
    (kept ≠ [] → t + total_chars kept ≤ limit) ∧
    (∀ x, x ∈ l → x ∉ kept → t + total_chars kept + src_len x > limit) ∧
    (t + total_chars l ≤ limit → kept = l) ∧
    (∀ x, head kept = Some x →
       ∃ l1 l2, l = l1 ++ x :: l2 ∧ t + src_len x ≤ limit ∧
         ∀ y, y ∈ l1 → t + src_len y > limit) ∧
    (kept = [] → ∀ y, y ∈ l → t + src_len y > limit).
Proof.
  induction l as [|x l IH]; intros acc t; simpl.
  { exists []. rewrite app_nil_r, Z.add_0_r.
    split_and!; [done..|by intros ? ?%elem_of_nil|done|done|
                 by intros _ ? ?%elem_of_nil]. }
  unfold fit_step at 2. simpl. case_bool_decide as Hx.
  - destruct (IH acc t) as (kept & -> & Hsub & Hcap & Hdrop & Hall & Hhd & Hnil).
    pose proof (total_chars_nonneg kept). pose proof (total_chars_nonneg l).
    exists kept. split_and!; [done|by apply sublist_cons|done| |lia| |].
    + intros y [->|Hy]%elem_of_cons Hn; [lia|by apply Hdrop].
    + intros y Hy. destruct (Hhd y Hy) as (l1 & l2 & -> & ? & Hl1).
      exists (x :: l1), l2. split_and!; [done..|].
      intros z [->|?]%elem_of_cons; [done|by apply Hl1].
    + intros Hk y [->|?]%elem_of_cons; [done|by apply Hnil].
  - destruct (IH (acc ++ [x]) (t + src_len x))
      as (kept & -> & Hsub & Hcap & Hdrop & Hall & _ & Hnil).
    pose proof (total_chars_nonneg kept).
    exists (x :: kept). rewrite <- app_assoc. simpl.
    split_and!; [f_equal; lia|by apply sublist_skip| | | | |done].
    + intros _. destruct kept as [|y kept]; [simpl; lia|].
      assert (t + src_len x + total_chars (y :: kept) ≤ limit) by (by apply Hcap).
      lia.
    + intros y [->|Hy]%elem_of_cons Hn; [by destruct Hn; left|].
      assert (t + src_len x + total_chars kept + src_len y > limit); [|lia].
      apply Hdrop; [done|]. intros ?. apply Hn. by right.
    + intros Hfit. f_equal. apply Hall. lia.
    + intros y [= <-]. exists [], l. split_and!; [done|lia|].
      by intros ? ?%elem_of_nil.
Qed.

Lemma fit_spec limit l :
  ∃ kept, fit limit l = (kept, total_chars kept) ∧
    sublist kept l ∧
    total_chars kept ≤ Z.max 0 limit ∧
    (∀ x, x ∈ l → x ∉ kept → total_chars kept + src_len x > limit) ∧
    (total_chars l ≤ limit → kept = l) ∧
    (∀ x, head kept = Some x →
       ∃ l1 l2, l = l1 ++ x :: l2 ∧ src_len x ≤ limit ∧
         ∀ y, y ∈ l1 → src_len y > limit) ∧
    (kept = [] → ∀ y, y ∈ l → src_len y > limit).
Proof.
  destruct (fit_loop limit l [] 0)
    as (kept & Hfit & Hsub & Hcap & Hdrop & Hall & Hhd & Hnil).
  exists kept. unfold fit. rewrite Hfit. simpl.
  split_and!; [done..| | | | |].
  - destruct kept as [|x kept]; [simpl; lia|].
    assert (0 + total_chars (x :: kept) ≤ limit) by (by apply Hcap). lia.
  - intros x Hx Hn. specialize (Hdrop x Hx Hn). lia.
  - intros ?. apply Hall. lia.
  - intros x Hx. destruct (Hhd x Hx) as (l1 & l2 & -> & ? & Hl1).
    exists l1, l2. split_and!; [done|lia|]. intros y Hy.
    specialize (Hl1 y Hy). lia.
  - intros Hk y Hy. specialize (Hnil Hk y Hy). lia.
Qed.

Lemma by_size_perm l : by_size l ≡ₚ l.
Proof. apply sort_by_perm. Qed.

Lemma by_size_sorted l :
  StronglySorted (λ x y, key_rel (- src_len x, x.1) (- src_len y, y.1))
    (by_size l).
Proof.
  apply Sorted_StronglySorted.
  { intros x y z. apply key_rel_trans. }
  apply (@sort_by_sorted _
    (λ x y, key_le (- src_len x, x.1) (- src_len y, y.1))).
  intros x y. apply key_rel_total.
Qed.

Lemma sort_by_of_sorted {A} (le : A → A → bool) l :
  Sorted (λ x y, Is_true (le x y)) l → sort_by le l = l.
Proof.
  induction 1 as [|x l Hs IH Hhd]; [done|]. simpl.
  fold (sort_by le l). rewrite IH.
  destruct Hhd as [|y l Hxy]; simpl; [done|].
  by apply Is_true_true in Hxy as ->.
Qed.

Lemma StronglySorted_sublist {A} (R : relation A) l1 l2 :
  sublist l1 l2 → StronglySorted R l2 → StronglySorted R l1.
Proof.
  induction 1 as [|x l1 l2 Hsub IH|x l1 l2 Hsub IH]; intros Hs; [done|..];
    apply StronglySorted_inv in Hs as [Hs Hall].
  - constructor; [by apply IH|]. rewrite Forall_forall in *.
    intros y Hy. apply Hall. by eapply elem_of_sublist.
  - by apply IH.
Qed.

Lemma fit_by_size limit (gf : list (string * list ascii)) :
  total_chars (fit limit (by_size gf)).1 ≤ Z.max 0 limit ∧
  sublist (fit limit (by_size gf)).1 (by_size gf) ∧
  ∀ x, x ∈ gf → x ∉ (fit limit (by_size gf)).1 →
    total_chars (fit limit (by_size gf)).1 + src_len x > limit.
Proof.
  destruct (fit_spec limit (by_size gf)) as (kept & -> & Hsub & Hcap & Hdrop & _).
  simpl. split_and!; [done..|]. intros x Hx. apply Hdrop.
  by rewrite by_size_perm.
Qed.

(** The pairs whose code goes into a prompt never exceed the cap of
    14000 characters, and the list handed over by the JavaScript branch
    never exceeds [max_snippet_chars]; both are picked from the pairs in
    the order longest first, and a pair is left out only when adding it
    to all that was picked would exceed the limit. *)
Theorem embedded_code_stays_within_the_limit max_snippet_chars
    (gf : list (string * list ascii)) :
  (total_chars (snippets gf) ≤ 14000 ∧
   sublist (snippets gf) (by_size gf) ∧
   ∀ x, x ∈ gf → x ∉ snippets gf →
     total_chars (snippets gf) + src_len x > 14000) ∧
  (total_chars (trimmed max_snippet_chars gf) ≤ Z.max 0 max_snippet_chars ∧
   sublist (trimmed max_snippet_chars gf) (by_size gf) ∧
   ∀ x, x ∈ gf → x ∉ trimmed max_snippet_chars gf →
     total_chars (trimmed max_snippet_chars gf) + src_len x > max_snippet_chars).
Proof.
  split; [|apply fit_by_size]. destruct (fit_by_size 14000 gf) as (? & ? & ?).
  unfold snippets. split_and!; [lia|done..].
Qed.

(** When the sources of a group have at most 14000 characters together,
    the prompt embeds all of them, the longest first and sources of the
    same length by name. *)
Theorem a_small_group_is_embedded_whole (gf : list (string * list ascii)) :
  total_chars gf ≤ 14000 →
  snippets gf = by_size gf ∧ snippets gf ≡ₚ gf.
Proof.
  intros Hfit. unfold snippets.
  destruct (fit_spec 14000 (by_size gf)) as (kept & -> & _ & _ & _ & Hall & _).
  simpl. rewrite Hall.
  - split; [done|apply by_size_perm].
  - by rewrite (total_chars_perm _ _ (by_size_perm gf)).
Qed.

Lemma a_small_group_is_embedded_whole_witness :
  total_chars [("g"%string, txt "g() {}"); ("f"%string, txt "f() { g(); }")]
    ≤ 14000 ∧
  snippets [("g"%string, txt "g() {}"); ("f"%string, txt "f() { g(); }")]
  = by_size [("g"%string, txt "g() {}"); ("f"%string, txt "f() { g(); }")] ∧
  snippets [("g"%string, txt "g() {}"); ("f"%string, txt "f() { g(); }")]
  ≡ₚ [("g"%string, txt "g() {}"); ("f"%string, txt "f() { g(); }")].
Proof.
  assert (total_chars
            [("g"%string, txt "g() {}"); ("f"%string, txt "f() { g(); }")]
          ≤ 14000) as Hfit by (by vm_compute).
  split; [exact Hfit|].
  exact (a_small_group_is_embedded_whole _ Hfit).
Defined.

(** The first source of a prompt is the longest one that fits the cap
    alone, the one with the smallest name if several are that long; a
    prompt holds no code exactly when every source is longer than the
    cap. *)
Theorem the_longest_fitting_source_comes_first (gf : list (string * list ascii)) :
  (snippets gf = [] ↔ ∀ y, y ∈ gf → src_len y > 14000) ∧
  (∀ x, head (snippets gf) = Some x →
     x ∈ gf ∧ src_len x ≤ 14000 ∧
     ∀ y, y ∈ gf → src_len y ≤ 14000 →
       src_len y < src_len x ∨
       (src_len y = src_len x ∧ String.le x.1 y.1)).
Proof.
  unfold snippets.
  destruct (fit_spec 14000 (by_size gf))
    as (kept & -> & Hsub & _ & _ & _ & Hhd & Hnil). simpl. split.
  - split.
    + intros Hk y Hy. apply Hnil; [done|]. by rewrite by_size_perm.
    + intros Hall. destruct kept as [|x kept]; [done|].
      destruct (Hhd x) as (l1 & l2 & Hl & Hx & _); [done|].
      assert (x ∈ gf) as Hin.
      { rewrite <- by_size_perm, Hl. set_solver. }
      specialize (Hall x Hin). lia.
  - intros x Hx. destruct (Hhd x Hx) as (l1 & l2 & Hl & Hlen & Hl1).
    assert (∀ y, y ∈ gf ↔ y ∈ l1 ∨ y = x ∨ y ∈ l2) as Hin.
    { intros y. rewrite <- by_size_perm, Hl. set_solver. }
    split_and!; [apply Hin; auto|done|].
    intros y Hy Hylen. apply Hin in Hy as [Hy|[->|Hy]].
    + specialize (Hl1 y Hy). lia.
    + right. done.
    + pose proof (by_size_sorted gf) as Hs. rewrite Hl in Hs.
      apply StronglySorted_app_1_r, StronglySorted_inv in Hs as [_ Hall].
      rewrite Forall_forall in Hall. specialize (Hall y Hy).
      apply key_rel_iff in Hall. simpl in Hall.
      destruct Hall as [?|[? ?]]; [left; lia|right; split; [lia|done]].
Qed.

Lemma snippets_of_trimmed max_snippet_chars (gf : list (string * list ascii)) :
  max_snippet_chars ≤ 14000 →
  snippets (trimmed max_snippet_chars gf) = trimmed max_snippet_chars gf.
Proof.
  intros Hm. destruct (fit_by_size max_snippet_chars gf) as (Hcap & Hsub & _).
  fold (trimmed max_snippet_chars gf) in Hcap, Hsub.
  unfold snippets.
  assert (by_size (trimmed max_snippet_chars gf) = trimmed max_snippet_chars gf)
    as ->.
  { apply sort_by_of_sorted, StronglySorted_Sorted.
    eapply StronglySorted_sublist; [done|]. apply by_size_sorted. }
  destruct (fit_spec 14000 (trimmed max_snippet_chars gf))
    as (kept & -> & _ & _ & _ & Hall & _).
  simpl. apply Hall. lia.
Qed.

(** With [max_snippet_chars] at most 14000, as by default, the cap of
    [make_group_prompt] drops nothing of what the JavaScript branch hands
    over and keeps its order, so the prompt embeds within
    [max_snippet_chars] characters. *)
Theorem the_cap_keeps_a_trimmed_list max_snippet_chars
    (gf : list (string * list ascii)) :
  max_snippet_chars ≤ 14000 →
  snippets (trimmed max_snippet_chars gf) = trimmed max_snippet_chars gf ∧
  total_chars (snippets (trimmed max_snippet_chars gf))
    ≤ Z.max 0 max_snippet_chars.
Proof.
  intros Hm. rewrite snippets_of_trimmed by done. split; [done|].
  by destruct (fit_by_size max_snippet_chars gf) as (? & _).
Qed.

Lemma the_cap_keeps_a_trimmed_list_witness :
  12 ≤ 14000 ∧
  snippets (trimmed 12
    [("g"%string, txt "g() {}"); ("f"%string, txt "f() { g(); }")])
  = trimmed 12
    [("g"%string, txt "g() {}"); ("f"%string, txt "f() { g(); }")].
Proof.
  assert (12 ≤ 14000) as Hm by lia.
  split; [exact Hm|]. exact (proj1 (the_cap_keeps_a_trimmed_list 12 _ Hm)).
Defined.

(** Above 14000 the two limits interfere: with a limit of 15000 the
    prompt embeds 10000 characters of a group of which it embeds 13000
    with a limit of 14000. *)
Example a_larger_limit_can_embed_less :
  let gf := [("a"%string, replicate (Z.to_nat 10000) "x"%char);
             ("b"%string, replicate (Z.to_nat 4500) "y"%char);
             ("c"%string, replicate (Z.to_nat 3000) "z"%char)] in
  total_chars (snippets (trimmed 15000 gf)) = 10000 ∧
  total_chars (snippets (trimmed 14000 gf)) = 13000.
Proof. split; by vm_compute. Qed.


(** ** The report of a group of a file *)

Lemma group_closed_under_edges `{IterOrder} raw a g n :
  analysis_ok raw a → g ∈ Analysis.groups a → n ∈ g →
  n ∈ dom raw ∧
  (∀ c, rel_of (Analysis.edges a) n c → c ∈ g) ∧
  (∀ x, rel_of (Analysis.edges a) x n → x ∈ g).
Proof.
  intros (_ & _ & _ & _ & _ & _ & G & HG & Hinv) Hg Hn.
  pose proof Hinv as (_ & _ & _ & Hun & _ & Hcl).
  split_and!.
  - rewrite <- Hun. apply elem_of_union_list. by exists g.
  - intros c Hc. destruct (decide (c = n)) as [->|Hne]; [done|].
    apply (Hcl g n c); [done..|]. apply HG. split; [done|by left].
  - intros x Hx. destruct (decide (x = n)) as [->|Hne]; [done|].
    apply (Hcl g n x); [done..|]. apply HG. split; [done|by right].
Qed.

Lemma sub_maps_of_a_group `{IterOrder} raw a g n :
  analysis_ok raw a → dom (Analysis.callers a) = dom raw →
  g ∈ Analysis.groups a → n ∈ g →
  ∃ s r, Analysis.edges a !! n = Some s ∧ Analysis.callers a !! n = Some r ∧
    sub_edges a g !! n = Some s ∧ sub_callers a g !! n = Some r ∧
    (∀ c, c ∈ s ↔ rel_of (Analysis.edges a) n c) ∧
    (∀ x, x ∈ r ↔ rel_of (Analysis.edges a) x n).
Proof.
  intros Hok HdomC Hg Hn.
  destruct (group_closed_under_edges _ a g n Hok Hg Hn) as (Hraw & Hout & Hin).
  pose proof Hok as (_ & _ & HdomE & _ & Hcallers & _).
  assert (n ∈ dom (Analysis.edges a)) as [s Hs]%elem_of_dom by (by rewrite HdomE).
  assert (n ∈ dom (Analysis.callers a)) as [r Hr]%elem_of_dom by (by rewrite HdomC).
  assert (∀ c, c ∈ s ↔ rel_of (Analysis.edges a) n c) as Hs'.
  { intros c. split; [by exists s|]. intros (s' & ? & ?). congruence. }
  assert (∀ x, x ∈ r ↔ rel_of (Analysis.edges a) x n) as Hr'.
  { intros x. rewrite <- Hcallers. split; [by exists r|].
    intros (r' & ? & ?). congruence. }
  exists s, r. unfold sub_edges, sub_callers.
  rewrite !sub_map_lookup, !decide_True by done. rewrite Hs, Hr. simpl.
  split_and!; [done..| | |done|done]; f_equal; apply set_eq; intros x;
    rewrite elem_of_intersection; split; try tauto; intros Hx; split; try done.
  - by apply Hout, Hs'.
  - by apply Hin, Hr'.
Qed.

(** The maps [sub_edges] and [sub_callers] of a group have exactly the
    names of the group as keys, and for each of them the same set as the
    maps of the whole file: a group is closed under calls, so cutting
    the sets down to the group removes nothing. *)
Theorem restricting_to_a_group_loses_nothing `{IterOrder} `{PythonAst}
    lang code a g :
  analyze_file lang code = Done a → g ∈ Analysis.groups a →
  dom (sub_edges a g) = g ∧ dom (sub_callers a g) = g ∧
  ∀ n, n ∈ g →
    is_Some (Analysis.edges a !! n) ∧
    sub_edges a g !! n = Analysis.edges a !! n ∧
    sub_callers a g !! n = Analysis.callers a !! n.
Proof.
  intros Ha Hg.
  destruct (analyze_file_shape lang code) as (a' & Ha' & Hok & _ & HdomC).
  rewrite Ha in Ha'. injection Ha' as <-.
  split_and!; [apply dom_sub_map..|]. intros n Hn.
  destruct (sub_maps_of_a_group _ a g n Hok HdomC Hg Hn)
    as (s & r & -> & -> & -> & -> & _).
  split_and!; [by eexists|done..].
Qed.

Lemma restricting_to_a_group_loses_nothing_witness :
  ∃ a, @analyze_file canonical_order tiny_python javascript countdown_js = Done a ∧
    {[ "f"%string ]} ∈ Analysis.groups a ∧
    @sub_edges canonical_order a {[ "f"%string ]} !! "f"%string
    = Analysis.edges a !! "f"%string.
Proof.
  destruct (@analyze_file_spec canonical_order tiny_python javascript countdown_js)
    as (a & Ha & _).
  assert (Analysis.groups a = [ {[ "f"%string ]} ]) as Hgs.
  { revert Ha. vm_compute. intros [= <-]. reflexivity. }
  assert ({[ "f"%string ]} ∈ Analysis.groups a) as Hg.
  { rewrite Hgs. apply list_elem_of_here. }
  exists a. split; [exact Ha|]. split; [exact Hg|].
  apply (@restricting_to_a_group_loses_nothing canonical_order tiny_python
           javascript countdown_js a {[ "f"%string ]} Ha Hg).
  exact (proj2 (elem_of_singleton _ _) eq_refl).
Defined.

Lemma group_funcs_of_a_group `{IterOrder} `{PythonAst} lang code a g :
  analyze_file lang code = Done a → g ∈ Analysis.groups a →
  ∃ gf,
    match lang with
    | python => group_funcs PyFunction.src (parse_python_functions code) g
    | javascript => group_funcs JsFunction.src (parse_js_functions code) g
    end = Done gf ∧
    gf.*1 = sorted g ∧
    ∀ n s, (n, s) ∈ gf ↔ n ∈ g ∧ source_of lang code n = Some s.
Proof.
  intros Ha Hg.
  destruct (analyze_file_spec lang code) as (a' & Ha' & Hok).
  rewrite Ha in Ha'. injection Ha' as <-.
  assert (g ⊆ dom (raw_callees lang code)) as Hsub.
  { intros n Hn. by destruct (group_closed_under_edges _ a g n Hok Hg Hn). }
  unfold raw_callees in Hsub. unfold source_of.
  destruct lang; rewrite dom_fmap_L in Hsub; by apply group_funcs_spec.
Qed.

Lemma NoDup_of_submseteq {A} (l k : list A) : l ⊆+ k → NoDup k → NoDup l.
Proof.
  intros [k' Hp]%submseteq_Permutation. rewrite Hp.
  by intros (? & _ & _)%NoDup_app.
Qed.

(** Collecting the sources and the relations of a group never raises a
    [KeyError]: every name of a group has a record.  The code embedded in
    the prompt is the source text of functions of the group, every
    function at most once, and stays within 14000 characters whatever
    [max_snippet_chars] is. *)
Theorem the_prompt_of_a_group_is_built `{IterOrder} `{PythonAst}
    lang max_snippet_chars code a g :
  analyze_file lang code = Done a → g ∈ Analysis.groups a →
  ∃ sn rl, prompt_parts lang max_snippet_chars code a g = Done (sn, rl) ∧
    total_chars sn ≤ 14000 ∧ NoDup sn.*1 ∧
    ∀ n s, (n, s) ∈ sn → n ∈ g ∧ source_of lang code n = Some s.
Proof.
  intros Ha Hg.
  destruct (group_funcs_of_a_group lang code a g Ha Hg) as (gf & Hgf & Hfst & Hin).
  assert (NoDup gf.*1) as Hnd.
  { rewrite Hfst. unfold sorted. rewrite sort_names_perm, set_iter_perm.
    apply NoDup_elements. }
  assert (∀ l, l ⊆+ gf → NoDup l.*1 ∧ ∀ n s, (n, s) ∈ l → (n, s) ∈ gf) as Hms.
  { intros l Hl. split.
    - apply (NoDup_of_submseteq _ gf.*1); [by apply fmap_submseteq|done].
    - intros n s Hns. by eapply elem_of_submseteq. }
  assert (∀ l, snippets l ⊆+ l) as Hsn.
  { intros l. destruct (fit_by_size 14000 l) as (_ & Hsub & _).
    unfold snippets. rewrite <- (by_size_perm l) at 2.
    by apply sublist_submseteq. }
  assert (trimmed max_snippet_chars gf ⊆+ gf) as Htr.
  { destruct (fit_by_size max_snippet_chars gf) as (_ & Hsub & _).
    unfold trimmed. rewrite <- (by_size_perm gf) at 2.
    by apply sublist_submseteq. }
  assert (∀ l, total_chars (snippets l) ≤ 14000) as Hcap.
  { intros l. destruct (fit_by_size 14000 l) as (? & _). unfold snippets. lia. }
  unfold prompt_parts. destruct lang; rewrite Hgf; simpl.
  - eexists _, _. split; [done|]. destruct (Hms (snippets gf)) as [? Hel]; [done|].
    split_and!; [done..|]. intros n s Hns. by apply Hin, Hel.
  - eexists _, _. split; [done|].
    destruct (Hms (snippets (trimmed max_snippet_chars gf))) as [? Hel].
    { etrans; [apply Hsn|exact Htr]. }
    split_and!; [done..|]. intros n s Hns. by apply Hin, Hel.
Qed.

Lemma the_prompt_of_a_group_is_built_witness :
  ∃ a, @analyze_file canonical_order tiny_python javascript countdown_js = Done a ∧
    {[ "f"%string ]} ∈ Analysis.groups a ∧
    ∃ sn rl,
      @prompt_parts canonical_order tiny_python javascript 14000 countdown_js a
        {[ "f"%string ]} = Done (sn, rl) ∧
      total_chars sn ≤ 14000.
Proof.
  destruct (@analyze_file_spec canonical_order tiny_python javascript countdown_js)
    as (a & Ha & _).
  assert (Analysis.groups a = [ {[ "f"%string ]} ]) as Hgs.
  { revert Ha. vm_compute. intros [= <-]. reflexivity. }
  assert ({[ "f"%string ]} ∈ Analysis.groups a) as Hg.
  { rewrite Hgs. apply list_elem_of_here. }
  exists a. split; [exact Ha|]. split; [exact Hg|].
  destruct (@the_prompt_of_a_group_is_built canonical_order tiny_python
              javascript 14000 countdown_js a {[ "f"%string ]} Ha Hg)
    as (sn & rl & Hp & Hcap & _).
  exists sn, rl. split; [exact Hp|exact Hcap].
Defined.

(** The relation lines of a prompt name functions of the group, and the
    line of a function lists, in ascending order, all the functions of
    the file that it calls and all that call it.  For Python every
    function of the group has a line, also one whose code is left out;
    for JavaScript with [max_snippet_chars] at most 14000 the lines are
    those of the functions whose code is embedded. *)
Theorem relation_lines_show_the_calls_of_the_file `{IterOrder} `{PythonAst}
    lang max_snippet_chars code a g :
  analyze_file lang code = Done a → g ∈ Analysis.groups a →
  ∃ sn rl, prompt_parts lang max_snippet_chars code a g = Done (sn, rl) ∧
    (∀ n cs rs, (n, cs, rs) ∈ rl →
       n ∈ g ∧
       StronglySorted String.le cs ∧ StronglySorted String.le rs ∧
       (∀ c, c ∈ cs ↔ rel_of (Analysis.edges a) n c) ∧
       (∀ x, x ∈ rs ↔ rel_of (Analysis.edges a) x n)) ∧
    (lang = python → rl.*1.*1 = sorted g) ∧
    (lang = javascript → max_snippet_chars ≤ 14000 → rl.*1.*1 = sn.*1).
Proof.
  intros Ha Hg.
  destruct (group_funcs_of_a_group lang code a g Ha Hg) as (gf & Hgf & Hfst & Hin).
  destruct (analyze_file_shape lang code) as (a' & Ha' & Hok & _ & HdomC).
  rewrite Ha in Ha'. injection Ha' as <-.
  assert (∀ l, l.*1 = (rel_lines l (sub_callers a g) (sub_edges a g)).*1.*1)
    as Hnames.
  { intros l. unfold rel_lines. rewrite <- !list_fmap_compose.
    by apply list_fmap_ext. }
  assert (∀ l n cs rs, (∀ x, x ∈ l → x ∈ gf) →
    (n, cs, rs) ∈ rel_lines l (sub_callers a g) (sub_edges a g) →
    n ∈ g ∧ StronglySorted String.le cs ∧ StronglySorted String.le rs ∧
    (∀ c, c ∈ cs ↔ rel_of (Analysis.edges a) n c) ∧
    (∀ x, x ∈ rs ↔ rel_of (Analysis.edges a) x n)) as Hlines.
  { intros l n cs rs Hl ([n' s'] & [= -> -> ->] & Hx%Hl)%list_elem_of_fmap.
    simpl. apply Hin in Hx as [Hn _].
    destruct (sub_maps_of_a_group _ a g n' Hok HdomC Hg Hn)
      as (s & r & _ & _ & -> & -> & Hs & Hr). simpl.
    split_and!; [done|apply sort_names_sorted..| |].
    - intros c. by rewrite elem_of_sorted.
    - intros x. by rewrite elem_of_sorted. }
  assert (trimmed max_snippet_chars gf ⊆+ gf) as Htr.
  { destruct (fit_by_size max_snippet_chars gf) as (_ & Hsub & _).
    unfold trimmed. rewrite <- (by_size_perm gf) at 2.
    by apply sublist_submseteq. }
  unfold prompt_parts. destruct lang; rewrite Hgf; simpl.
  - eexists _, _. split; [done|]. split_and!.
    + intros n cs rs. by apply Hlines.
    + intros _. by rewrite <- Hnames.
    + done.
  - eexists _, _. split; [done|]. split_and!.
    + intros n cs rs. apply Hlines. intros x Hx. by eapply elem_of_submseteq.
    + done.
    + intros _ Hm. rewrite <- Hnames.
      by rewrite snippets_of_trimmed.
Qed.

Lemma relation_lines_show_the_calls_of_the_file_witness :
  ∃ a, @analyze_file canonical_order tiny_python javascript countdown_js = Done a ∧
    {[ "f"%string ]} ∈ Analysis.groups a ∧
    ∃ sn rl,
      @prompt_parts canonical_order tiny_python javascript 14000 countdown_js a
        {[ "f"%string ]} = Done (sn, rl) ∧
      rl.*1.*1 = sn.*1.
Proof.
  destruct (@analyze_file_spec canonical_order tiny_python javascript countdown_js)
    as (a & Ha & _).
  assert (Analysis.groups a = [ {[ "f"%string ]} ]) as Hgs.
  { revert Ha. vm_compute. intros [= <-]. reflexivity. }
  assert ({[ "f"%string ]} ∈ Analysis.groups a) as Hg.
  { rewrite Hgs. apply list_elem_of_here. }
  exists a. split; [exact Ha|]. split; [exact Hg|].
  destruct (@relation_lines_show_the_calls_of_the_file canonical_order
              tiny_python javascript 14000 countdown_js a {[ "f"%string ]} Ha Hg)
    as (sn & rl & Hp & _ & _ & Hjs).
  exists sn, rl. split; [exact Hp|]. apply Hjs; [reflexivity|lia].
Defined.

(** ** The retry loop *)

Lemma call_openai_from_reply client k c : ∀ n i last_err sleeps,
  (i ≤ k < i + n)%nat → all_fail client i k → client k = Reply c →
  call_openai_from client i n last_err sleeps
  = {| Call.ending := Returned c; Call.calls := S k;
       Call.sleeps := sleeps ++ (backoff <$> seq i (k - i)) |}.
Proof.
  induction n as [|n IH]; intros i last_err sleeps Hk Hfail Hc; [lia|].
  simpl. destruct (decide (i = k)) as [->|Hne].
  - rewrite Hc, Nat.sub_diag. simpl. by rewrite app_nil_r.
  - destruct (Hfail i) as [e ->]; [lia|].
    rewrite (IH (S i)); [|lia| |done].
    + replace (k - i)%nat with (S (k - S i)) by lia. simpl.
      by rewrite <- app_assoc.
    + intros j Hj. apply Hfail. lia.
Qed.

Lemma call_openai_from_all_fail client : ∀ n i last_err sleeps,
  all_fail client i (i + n) →
  call_openai_from client i n last_err sleeps
  = {| Call.ending :=
         match n with
         | O => match last_err with
                | Some e => Raised e
                | None => RaisedTypeError
                end
         | S n' => match client (i + n')%nat with
                   | Failure e => Raised e
                   | Reply c => Returned c
                   end
         end;
       Call.calls := (i + n)%nat;
       Call.sleeps := sleeps ++ (backoff <$> seq i n) |}.
Proof.
  induction n as [|n IH]; intros i last_err sleeps Hfail; simpl.
  { by rewrite Nat.add_0_r, app_nil_r. }
  destruct (Hfail i) as [e He]; [lia|]. rewrite He.
  rewrite IH; [|intros j Hj; apply Hfail; lia].
  rewrite <- app_assoc. simpl. f_equal; [|lia].
  destruct n as [|n]; [by rewrite Nat.add_0_r, He|].
  by replace (S (i + n))%nat with (i + S n)%nat by lia.
Qed.

Lemma sum_backoff n :
  foldr Z.add 0 (backoff <$> seq 0 n) = 750 * Z.of_nat n * (Z.of_nat n + 1).
Proof.
  induction n as [|n IH]; [done|].
  rewrite seq_S, fmap_app, foldr_app. simpl.
  assert (∀ l a, foldr Z.add a l = foldr Z.add 0 l + a) as Hacc.
  { induction l as [|x l IHl]; intros a; simpl; [lia|]. rewrite IHl. lia. }
  rewrite Hacc, IH. unfold backoff. lia.
Qed.

(** The reply of the first call that succeeds is returned, without a
    further call: after [k] failures the client was called [k + 1] times,
    and the loop slept 1.5, 3, ... seconds, once after each failure. *)
Theorem first_reply_is_returned client retries k c :
  Z.of_nat k < retries → all_fail client 0 k → client k = Reply c →
  call_openai client retries
  = {| Call.ending := Returned c; Call.calls := S k;
       Call.sleeps := backoff <$> seq 0 k |}.
Proof.
  intros Hk Hfail Hc. unfold call_openai.
  rewrite (call_openai_from_reply client k c); [|lia|done..].
  by rewrite Nat.sub_0_r.
Qed.

Lemma first_reply_is_returned_witness :
  Z.of_nat 2 < 3 ∧
  call_openai third_time_lucky 3
  = {| Call.ending := Returned "ok"; Call.calls := 3;
       Call.sleeps := [1500; 3000] |}.
Proof.
  split; [lia|].
  apply (first_reply_is_returned third_time_lucky 3 2 "ok"); [lia| |reflexivity].
  intros j Hj. exists "timeout"%string.
  destruct j as [|[|j]]; [reflexivity|reflexivity|lia].
Defined.

(** When every call fails, the loop gives up after [retries] calls and
    raises the error of the last one, having slept after that failure
    too: 0.75 * retries * (retries + 1) seconds in all, which is 9 for
    the default of three.  When [retries] is not positive, the client is
    never called and the [raise] of [None] is a [TypeError]. *)
Theorem all_failures_raise_the_last_error client retries :
  all_fail client 0 (Z.to_nat retries) →
  Call.calls (call_openai client retries) = Z.to_nat retries ∧
  Call.sleeps (call_openai client retries) = backoff <$> seq 0 (Z.to_nat retries) ∧
  foldr Z.add 0 (Call.sleeps (call_openai client retries))
    = 750 * Z.max 0 retries * (Z.max 0 retries + 1) ∧
  (retries ≤ 0 → Call.ending (call_openai client retries) = RaisedTypeError) ∧
  (0 < retries →
     ∃ e, client (Z.to_nat retries - 1)%nat = Failure e ∧
          Call.ending (call_openai client retries) = Raised e).
Proof.
  intros Hfail. unfold call_openai.
  rewrite call_openai_from_all_fail by done. simpl.
  split_and!; [done..| | |].
  - rewrite sum_backoff. lia.
  - intros Hr. by replace (Z.to_nat retries) with 0%nat by lia.
  - intros Hr. destruct (Z.to_nat retries) as [|n] eqn:Hn; [lia|].
    destruct (Hfail n) as [e He]; [lia|].
    exists e. replace (S n - 1)%nat with n by lia. by rewrite He.
Qed.

Lemma all_failures_raise_the_last_error_witness :
  all_fail never_answers 0 (Z.to_nat 3) ∧
  Call.calls (call_openai never_answers 3) = 3%nat ∧
  foldr Z.add 0 (Call.sleeps (call_openai never_answers 3)) = 9000.
Proof.
  assert (all_fail never_answers 0 (Z.to_nat 3)) as Hfail.
  { intros j Hj. destruct j as [|[|[|j]]];
      [by exists "timeout"%string|by exists "timeout"%string
      |by exists "quota"%string|simpl in Hj; lia]. }
  split; [exact Hfail|].
  destruct (all_failures_raise_the_last_error never_answers 3 Hfail)
    as (Hcalls & _ & Hsum & _).
  split; [exact Hcalls|exact Hsum].
Defined.

(** ** The span locator from any index *)

(** From whatever index it starts, the span locator returns the sentinel
    or the index of a closing brace that lies at or after the start and
    inside the text. *)
Theorem brace_span_points_at_a_closing_brace code start :
  _brace_span code start = -1 ∨
  ∃ j : nat, _brace_span code start = Z.of_nat j ∧
    (start ≤ j < length code)%nat ∧ code !! j = Some rbrace.
Proof.
  pose proof (scan_range (drop start code) start 0 None false) as Hcases.
  fold (_brace_span code start) in Hcases.
  destruct Hcases as [?|[j Hj]]; [by left|]. right. exists j.
  split_and!; [done|by eapply brace_span_range..|by eapply brace_span_hits_rbrace].
Qed.

(** ** Every match with a block gives a function *)

Lemma str_find_first code ch start b :
  (start ≤ b)%nat → code !! b = Some ch →
  (∀ k, (start ≤ k < b)%nat → code !! k ≠ Some ch) →
  str_find code ch start = Z.of_nat b.
Proof.
  intros Hle Hb Hmin.
  destruct (find_char_cases ch (drop start code) start) as [Hnone|[b' Hb']];
    fold (str_find code ch start) in *.
  - unfold str_find in Hnone. apply find_char_none in Hnone. destruct Hnone.
    apply list_elem_of_lookup. exists (b - start)%nat. rewrite lookup_drop.
    by replace (start + (b - start))%nat with b by lia.
  - rewrite Hb'. f_equal.
    apply str_find_spec in Hb' as (Hr & Hch & Hmin').
    destruct (Nat.lt_trichotomy b b') as [?|[?|?]]; [|done|].
    + destruct (Hmin' b); [lia|done].
    + destruct (Hmin b'); [lia|done].
Qed.

(** Wherever one of the four patterns matches and the first opening
    brace at or after the end of the match has a matching closing brace,
    the mapping has a record under the matched name, and the span of
    that record is at least as long as the stretch from the start of the
    match to the closing brace. *)
Theorem a_match_with_a_block_is_recorded code rx_kind m b j :
  rx_kind ∈ JS_FUNC_PATTERNS → m ∈ finditer rx_kind.1 code →
  (m_end m ≤ b)%nat → code !! b = Some lbrace →
  (∀ k, (m_end m ≤ k < b)%nat → code !! k ≠ Some lbrace) →
  matching_brace code b j →
  ∃ jf, parse_js_functions code !! string_of_list_ascii (group1 code m)
        = Some jf ∧
    Z.of_nat (S j) - Z.of_nat (m_start m) ≤ span_len jf.
Proof.
  intros Hrx Hm Hle Hb Hmin Hj.
  destruct (function_pattern_group rx_kind code m Hrx Hm) as [Hname _].
  apply brace_span_complete in Hj.
  pose proof (str_find_first code lbrace (m_end m) b Hle Hb Hmin) as Hfind.
  assert (∃ c, candidate code m = Some c ∧
            JsFunction.name c = string_of_list_ascii (group1 code m) ∧
            span_len c = Z.of_nat (S j) - Z.of_nat (m_start m))
    as (c & Hc & Hcname & Hcspan).
  { unfold candidate. rewrite bool_decide_false by done.
    rewrite Hfind, bool_decide_false by lia. rewrite Nat2Z.id, Hj.
    rewrite bool_decide_false by lia. eexists. split; [done|].
    split; [done|]. unfold span_len. simpl. lia. }
  assert (c ∈ js_candidates code) as Hin.
  { unfold js_candidates. apply list_elem_of_bind. exists rx_kind.
    split; [|done]. apply list_elem_of_omap. by exists m. }
  pose proof (keep_all_spec (js_candidates code)) as [Hkept Hall].
  destruct (Hall c Hin) as [jf Hjf]. rewrite Hcname in Hjf.
  exists jf. rewrite parse_js_functions_candidates. split; [done|].
  destruct (Hkept _ _ Hjf) as [Hjfname Hw].
  rewrite <- Hcspan. apply (wins_le _ _ _ Hw Hin). congruence.
Qed.

Lemma a_match_with_a_block_is_recorded_witness :
  matching_brace countdown_js 14 33 ∧
  ∃ jf, parse_js_functions countdown_js !! "f"%string = Some jf ∧
        34 ≤ span_len jf.
Proof.
  assert (matching_brace countdown_js 14 33) as Hj.
  { apply brace_span_sound; [reflexivity|]. vm_compute. reflexivity. }
  split; [exact Hj|].
  refine (a_match_with_a_block_is_recorded countdown_js (rx_decl, "decl"%string)
            {| m_start := 0; m_end := 11; g_start := 9; g_end := 10 |}
            14 33 _ _ _ _ _ Hj).
  - apply list_elem_of_here.
  - vm_compute. apply list_elem_of_here.
  - simpl. lia.
  - reflexivity.
  - simpl. intros k Hk.
    assert (k = 11 ∨ k = 12 ∨ k = 13)%nat as [-> | [-> | ->]] by lia;
      vm_compute; discriminate.
Defined.
